(** * Closure Library bootstrap (base.js): namespaces and the debug loader

    A shallow embedding of the namespace registry ([goog.provide],
    [goog.exportPath_], [goog.getObjectByName], [goog.isProvided_]), of the
    dependency index ([goog.addDependency], [goog.dependencies_]) and of the
    debug loader ([goog.require], [goog.writeScripts_] with its inner
    [visitNode], [goog.importScript_]) of closure/goog/base.js, in
    uncompiled mode ([COMPILED = false], [goog.ENABLE_DEBUG_LOADER = true]).

    Modelling conventions.
    - JavaScript objects used as string-keyed sets or maps
      ([implicitNamespaces_], [nameToPath], [visited], [written], ...) are
      [gset string] and [gmap string _] of their own properties. Where
      [goog.isProvided_] reads [goog.implicitNamespaces_] and where
      [goog.getCssName] reads the mapping, the names inherited from
      [Object.prototype] are part of the model ([inherited]); the keys of
      the dependency index, which are script paths and namespaces, are
      assumed not to collide with them.
    - Objects that the code enumerates with [for .. in] ([goog.included_]
      and each [deps.requires[path]]) are lists of keys in the order of
      the enumeration, without duplicates: the keys that are array
      indices first, in ascending order, then the other keys in the order
      of their creation ([insert_key]).
    - The global object is a tree of property lists; object identity and
      aliasing are not modelled.
    - A thrown [Error] is the [Throw] result; the state reached before the
      throw is kept, as the mutations of a JavaScript object are.
    - The script import capability ([goog.global.CLOSURE_IMPORT_SCRIPT] or
      [goog.writeScriptTag_]) is a function from the history of earlier
      import requests and the requested source to the boolean it returns;
      the imported script itself runs after the current script has
      finished (document.write), so that it does not change the registry
      during a pass. A capability that runs the script at once and so
      re-enters [goog] during the pass is outside the model.

    The second half of the file adds [goog.exportSymbol], [goog.getUid]
    and [goog.removeUid], [goog.mixin] and [goog.globalize],
    [goog.findBasePath_], [goog.getCssName], and from
    closure/goog/array/array.js the binary search with
    [goog.array.binaryInsert] and [goog.array.binaryRemove],
    [goog.array.isSorted] and [goog.array.rotate].
    - Numbers are integers; where the code relies on the 32-bit or 53-bit
      limits of a JavaScript number, the conversion is written out.
    - An array is the list of its elements; a function that changes its
      array returns the array afterwards.
    - The objects that [goog.getUid] marks are references into a store
      that gives each object its own properties and its prototype chain;
      a read goes along the chain, a write and [delete] act on the object
      itself.
    - A TypeError of the language ([goog.mixin] on [null]) is the result
      [None]. *)

From Stdlib Require Import ZArith Ascii String List Lia.
From stdpp Require Import base option list gmap strings sets fin_maps sorting.

#[local] Set Warnings "-clear-no-such-hyp".

Open Scope string_scope.
Open Scope list_scope.

(** * The program *)

(** ** Strings *)

Module Str.

(** [s.split('.')] *)
Fixpoint split (s : string) : list string :=
  match s with
  | EmptyString => [EmptyString]
  | String c r =>
      if Ascii.eqb c "."%char then EmptyString :: split r
      else match split r with
           | h :: t => String c h :: t
           | [] => [String c EmptyString]
           end
  end.

(** [s.lastIndexOf('.')], [-1] when there is no dot. *)
Fixpoint lastIndexOf (s : string) : Z :=
  match s with
  | EmptyString => (-1)%Z
  | String c r =>
      let i := lastIndexOf r in
      if (0 <=? i)%Z then (i + 1)%Z
      else if Ascii.eqb c "."%char then 0%Z else (-1)%Z
  end.

(** [s.substring(0, e)]: a negative [e] counts as [0], one past the end
    as the length. *)
Definition substring0 (e : Z) (s : string) : string :=
  String.substring 0 (Z.to_nat e) s.

(** [relPath.replace] of every backslash by a slash. *)
Fixpoint replaceBackslashes (s : string) : string :=
  match s with
  | EmptyString => EmptyString
  | String c r =>
      String (if Ascii.eqb c "092"%char then "/"%char else c)
             (replaceBackslashes r)
  end.

(** A string is falsy exactly when it is empty. *)
Definition truthy (s : string) : bool :=
  match s with EmptyString => false | _ => true end.

End Str.

(** ** Values and the global object *)

#[warnings="-register-all"]
Inductive value : Type :=
| VUndefined
| VNull
| VBool (b : bool)
| VNumber (n : Z)
| VString (s : string)
| VObject (props : list (string * value)).

(** ToBoolean. *)
Definition truthy (v : value) : bool :=
  match v with
  | VUndefined | VNull => false
  | VBool b => b
  | VNumber n => negb (n =? 0)%Z
  | VString s => Str.truthy s
  | VObject _ => true
  end.

(** [goog.isDef] *)
Definition isDef (val : value) : bool :=
  match val with VUndefined => false | _ => true end.

(** [goog.isDefAndNotNull]: [val != null]. *)
Definition isDefAndNotNull (val : value) : bool :=
  match val with VUndefined | VNull => false | _ => true end.

Fixpoint lookup_prop (part : string) (props : list (string * value)) : value :=
  match props with
  | [] => VUndefined
  | (k, v) :: r => if String.eqb k part then v else lookup_prop part r
  end.

Fixpoint store_prop (part : string) (x : value) (props : list (string * value))
  : list (string * value) :=
  match props with
  | [] => [(part, x)]
  | (k, v) :: r =>
      if String.eqb k part then (k, x) :: r else (k, v) :: store_prop part x r
  end.

(** [cur[part]] on the own properties of [cur]. The built-in properties
    of primitive values and the properties that an object inherits from
    [Object.prototype] are not modelled here, reading one gives
    [undefined]: the segments of the names are assumed not to be among
    them. *)
Definition get (cur : value) (part : string) : value :=
  match cur with
  | VObject props => lookup_prop part props
  | _ => VUndefined
  end.

(** [cur[part] = x]; on a primitive value the assignment is dropped
    (base.js is not strict-mode code). *)
Definition set (cur : value) (part : string) (x : value) : value :=
  match cur with
  | VObject props => VObject (store_prop part x props)
  | _ => cur
  end.

(** The loop of [goog.getObjectByName]: [parts.shift()] ends the loop when
    the array is exhausted and also when the next part is the empty
    string. *)
Fixpoint getObjectByName_parts (parts : list string) (cur : value) : value :=
  match parts with
  | [] => cur
  | part :: rest =>
      if Str.truthy part then
        if isDefAndNotNull (get cur part)
        then getObjectByName_parts rest (get cur part)
        else VNull
      else cur
  end.

(** [goog.getObjectByName(name)] on the global object [global]. *)
Definition getObjectByName (name : string) (global : value) : value :=
  getObjectByName_parts (Str.split name) global.

(** The loop of [goog.exportPath_]; the result is the object [cur] after
    the assignments made below it. [opt_object] is [VUndefined] when the
    argument is omitted. *)
Fixpoint exportPath_parts (parts : list string) (opt_object : value)
    (cur : value) : value :=
  match parts with
  | [] => cur
  | part :: rest =>
      if Str.truthy part then
        if (match rest with [] => true | _ => false end) && isDef opt_object
        then set cur part opt_object
        else if truthy (get cur part)
        then set cur part (exportPath_parts rest opt_object (get cur part))
        else set cur part (exportPath_parts rest opt_object (VObject []))
      else cur
  end.

(** [goog.exportPath_(name, opt_object)] on the global object, in a host
    without [execScript]. *)
Definition exportPath_ (name : string) (opt_object : value) (global : value)
  : value :=
  exportPath_parts (Str.split name) opt_object global.

(** ** Errors and completions *)

Inductive error : Type :=
| NamespaceAlreadyDeclared (name : string)
  (* Error: Namespace (name) already declared. *)
| RequireCouldNotFind (name : string)
  (* Error: goog.require could not find: (name) *)
| UndefinedNameToPath (requireName : string)
  (* Error: Undefined nameToPath for (requireName) *)
| UndefinedScriptInput.
  (* Error: Undefined script input *)

Inductive completion (A : Type) : Type :=
| Normal (a : A)
| Throw (e : error).
Arguments Normal {A} a.
Arguments Throw {A} e.

(** ** The state of [goog] *)

(** [goog.dependencies_] *)
Record Dependencies : Type := mkDependencies {
  pathToNames : gmap string (gset string);
  nameToPath : gmap string string;
  requires : gmap string (list string);
  visited : gset string;
  written : gset string
}.

Record Goog : Type := mkGoog {
  global : value;                      (* goog.global *)
  implicitNamespaces_ : gset string;   (* goog.implicitNamespaces_ *)
  included_ : list string;             (* goog.included_ *)
  dependencies_ : Dependencies;        (* goog.dependencies_ *)
  basePath : string;                   (* goog.basePath *)
  imports : list string
    (* the sources handed to the import capability so far, oldest first *)
}.

Definition set_global (x : value) (g : Goog) : Goog :=
  mkGoog x (implicitNamespaces_ g) (included_ g) (dependencies_ g)
         (basePath g) (imports g).
Definition set_implicitNamespaces_ (x : gset string) (g : Goog) : Goog :=
  mkGoog (global g) x (included_ g) (dependencies_ g) (basePath g) (imports g).
Definition set_included_ (x : list string) (g : Goog) : Goog :=
  mkGoog (global g) (implicitNamespaces_ g) x (dependencies_ g)
         (basePath g) (imports g).
Definition set_dependencies_ (x : Dependencies) (g : Goog) : Goog :=
  mkGoog (global g) (implicitNamespaces_ g) (included_ g) x
         (basePath g) (imports g).
Definition set_imports (x : list string) (g : Goog) : Goog :=
  mkGoog (global g) (implicitNamespaces_ g) (included_ g) (dependencies_ g)
         (basePath g) x.
Definition set_visited (x : gset string) (d : Dependencies) : Dependencies :=
  mkDependencies (pathToNames d) (nameToPath d) (requires d) x (written d).
Definition set_written (x : gset string) (d : Dependencies) : Dependencies :=
  mkDependencies (pathToNames d) (nameToPath d) (requires d) (visited d) x.

(** The value of a decimal digit. *)
Definition digit (c : ascii) : option N :=
  let n := N_of_ascii c in
  if (48 <=? n)%N && (n <=? 57)%N then Some (n - 48)%N else None.

(** The number that the digits of [s] write after the digits read so far,
    which wrote [acc]. *)
Fixpoint digits (s : string) (acc : N) : option N :=
  match s with
  | EmptyString => Some acc
  | String c r =>
      match digit c with
      | Some d => digits r (10 * acc + d)%N
      | None => None
      end
  end.

(** The array index that a property name is, if it is one: the name is
    the decimal numeral, without a leading zero, of a number below
    [2^32 - 1]. *)
Definition arrayIndex (s : string) : option N :=
  match s with
  | EmptyString => None
  | String c r =>
      if Ascii.eqb c "0"%char && Str.truthy r then None
      else match digits s 0 with
           | Some n => if (n <? 2 ^ 32 - 1)%N then Some n else None
           | None => None
           end
  end.

(** The place of a new key that is the array index [n]: after the array
    indices below [n] and before every other key. *)
Fixpoint insert_index (n : N) (key : string) (keys : list string) : list string :=
  match keys with
  | [] => [key]
  | k :: rest =>
      match arrayIndex k with
      | Some m => if (m <? n)%N then k :: insert_index n key rest
                  else key :: keys
      | None => key :: keys
      end
  end.

(** [obj[key] = true] on an object that [for .. in] enumerates later. The
    enumeration lists the keys that are array indices first, in ascending
    order, and then the other keys in the order of their creation; an
    existing key keeps its place. *)
Definition insert_key (key : string) (keys : list string) : list string :=
  if decide (key ∈ keys) then keys
  else match arrayIndex key with
       | Some n => insert_index n key keys
       | None => keys ++ [key]
       end.

(** The state in which base.js leaves [goog] before any registration, with
    the global object [glob] and base path [base]. *)
Definition initial (glob : value) (base : string) : Goog :=
  mkGoog glob ∅ [] (mkDependencies ∅ ∅ ∅ ∅ ∅) base [].

(** ** Namespace registry *)

(** The names of the properties that an object created by [{}] inherits
    from [Object.prototype]: the ones of the standard, and the accessors
    of the prototype that the engines add. All of them hold a function or
    an object, so that reading one of them gives a truthy value. *)
Definition objectPrototypeNames : list string :=
  ["constructor"; "toString"; "toLocaleString"; "valueOf"; "hasOwnProperty";
   "isPrototypeOf"; "propertyIsEnumerable"; "__proto__"; "__defineGetter__";
   "__defineSetter__"; "__lookupGetter__"; "__lookupSetter__"].

(** [name] is a property that a plain object inherits. *)
Definition inherited (name : string) : bool :=
  bool_decide (name ∈ objectPrototypeNames).

(** [goog.isProvided_]. [goog.implicitNamespaces_[name]] is truthy for the
    names that [goog.provide] has stored in the object and for the names
    that the object inherits; [delete] takes out the former only. *)
Definition isProvided_ (name : string) (g : Goog) : bool :=
  negb (bool_decide (name ∈ implicitNamespaces_ g) || inherited name)
  && truthy (getObjectByName name (global g)).

(** The [while] loop of [goog.provide]: each round cuts [namespace] at its
    last dot. [None] when [fuel] rounds do not reach the end of the loop. *)
Fixpoint provide_loop (fuel : nat) (namespace : string) (glob : value)
    (implicit : gset string) : option (gset string) :=
  match fuel with
  | O => None
  | S fuel' =>
      let namespace' :=
        Str.substring0 (Str.lastIndexOf namespace) namespace in
      if Str.truthy namespace' then
        if truthy (getObjectByName namespace' glob) then Some implicit
        else provide_loop fuel' namespace' glob ({[namespace']} ∪ implicit)
      else Some implicit
  end.

(** [goog.provide(name)] *)
Definition provide (name : string) (g : Goog) : option (completion unit * Goog) :=
  if isProvided_ name g then Some (Throw (NamespaceAlreadyDeclared name), g)
  else
    match provide_loop (S (String.length name)) name (global g)
                       (implicitNamespaces_ g ∖ {[name]}) with
    | None => None
    | Some implicit =>
        Some (Normal tt,
              set_global (exportPath_ name VUndefined (global g))
                         (set_implicitNamespaces_ implicit g))
    end.


(** ** Dependency index *)

(** The elements that [for (var i = 0; x = a[i]; i++)] visits: those before
    the first falsy one. *)
Fixpoint untilFalsy (a : list string) : list string :=
  match a with
  | [] => []
  | x :: r => if Str.truthy x then x :: untilFalsy r else []
  end.

(** One round of the first loop of [goog.addDependency]. *)
Definition addProvide (path : string) (d : Dependencies) (provide : string)
  : Dependencies :=
  mkDependencies
    (<[path := {[provide]} ∪ default ∅ (pathToNames d !! path)]> (pathToNames d))
    (<[provide := path]> (nameToPath d))
    (requires d) (visited d) (written d).

(** One round of the second loop of [goog.addDependency]. *)
Definition addRequire (path : string) (d : Dependencies) (require : string)
  : Dependencies :=
  mkDependencies
    (pathToNames d) (nameToPath d)
    (<[path := insert_key require (default [] (requires d !! path))]> (requires d))
    (visited d) (written d).

(** [goog.addDependency(relPath, provides, requires)] *)
Definition addDependency (relPath : string) (provides requires_ : list string)
    (g : Goog) : Goog :=
  let path := Str.replaceBackslashes relPath in
  let deps := dependencies_ g in
  let deps := foldl (addProvide path) deps (untilFalsy provides) in
  let deps := foldl (addRequire path) deps (untilFalsy requires_) in
  set_dependencies_ deps g.

(** [goog.getPathFromDeps_]; [None] is [null]. *)
Definition getPathFromDeps_ (rule : string) (g : Goog) : option string :=
  nameToPath (dependencies_ g) !! rule.

(** ** The debug loader *)

(** The state that [visitNode] mutates: [deps.visited] and the two locals
    [seenScript] and [scripts] of [goog.writeScripts_]. *)
Record Walk : Type := mkWalk {
  walk_visited : gset string;   (* deps.visited *)
  seenScript : gset string;
  scripts : list string
}.

(** A computation on the walk state that may throw; [None] when the fuel
    that bounds the recursion depth is used up. *)
Definition Visit : Type := Walk → option (completion unit * Walk).

Definition skip : Visit := λ w, Some (Normal tt, w).
Definition throw (e : error) : Visit := λ w, Some (Throw e, w).

(** Sequencing: a throw of the first computation ends the second. *)
Definition andThen (c1 c2 : Visit) : Visit := λ w,
  match c1 w with
  | None => None
  | Some (Throw e, w') => Some (Throw e, w')
  | Some (Normal _, w') => c2 w'
  end.

(** [for (var key in obj) body(key)] over the keys of [obj]. *)
Fixpoint forIn (keys : list string) (body : string → Visit) : Visit :=
  match keys with
  | [] => skip
  | key :: rest => andThen (body key) (forIn rest body)
  end.

(** [if (!(path in seenScript)) { seenScript[path] = true;
    scripts.push(path); }] *)
Definition pushScript (path : string) : Visit := λ w,
  if decide (path ∈ seenScript w) then Some (Normal tt, w)
  else Some (Normal tt,
             mkWalk (walk_visited w) ({[path]} ∪ seenScript w)
                    (scripts w ++ [path])).

(** [deps.visited[path] = true] *)
Definition markVisited (path : string) : Visit := λ w,
  Some (Normal tt,
        mkWalk ({[path]} ∪ walk_visited w) (seenScript w) (scripts w)).

(** One round of the loop of [visitNode] over [deps.requires[path]];
    [visit] is the recursive call. *)
Definition visitRequire (g : Goog) (visit : string → Visit)
    (requireName : string) : Visit :=
  if isProvided_ requireName g then skip
  else match nameToPath (dependencies_ g) !! requireName with
       | Some p => visit p
       | None => throw (UndefinedNameToPath requireName)
       end.

(** The body of [visitNode] for a path that is neither written nor
    visited. *)
Definition visitFresh (g : Goog) (visit : string → Visit) (path : string)
  : Visit :=
  andThen (markVisited path)
    (andThen
       (forIn (default [] (requires (dependencies_ g) !! path))
              (visitRequire g visit))
       (pushScript path)).

(** The inner function [visitNode] of [goog.writeScripts_]; [fuel] bounds
    the depth of the recursion. *)
Fixpoint visitNode (g : Goog) (fuel : nat) (path : string) : Visit :=
  match fuel with
  | O => λ _, None
  | S fuel' => λ w,
      if decide (path ∈ written (dependencies_ g)) then skip w
      else if decide (path ∈ walk_visited w) then pushScript path w
      else visitFresh g (visitNode g fuel') path w
  end.

(** A recursion depth that no walk over the index of [g] exceeds (see
    [visitNode_fuel]): every call below the first one is on a path in the
    image of [nameToPath], and every call that recurses marks a path that
    was not yet visited. *)
Definition walkFuel (g : Goog) : nat :=
  S (S (size (map_img (nameToPath (dependencies_ g)) : gset string))).

(** The first loop of [goog.writeScripts_], over [goog.included_]. *)
Definition visitIncluded (g : Goog) : Visit :=
  forIn (included_ g)
        (λ path,
           if decide (path ∈ written (dependencies_ g)) then skip
           else visitNode g (walkFuel g) path).

(** The walk state at the start of [goog.writeScripts_]. *)
Definition startWalk (g : Goog) : Walk :=
  mkWalk (visited (dependencies_ g)) ∅ [].

Section loader.

(** The import capability: [importScript hist src] is what the call
    [importScript(src)] returns after the requests [hist]. *)
Variable importScript : list string → string → bool.

(** [goog.importScript_(src)] *)
Definition importScript_ (src : string) (g : Goog) : Goog :=
  let deps := dependencies_ g in
  if decide (src ∈ written deps) then g
  else
    let g' := set_imports (imports g ++ [src]) g in
    if importScript (imports g) src
    then set_dependencies_ (set_written ({[src]} ∪ written deps) deps) g'
    else g'.

(** The second loop of [goog.writeScripts_], over [scripts]. *)
Fixpoint importScripts (scripts : list string) (g : Goog)
  : completion unit * Goog :=
  match scripts with
  | [] => (Normal tt, g)
  | script :: rest =>
      if Str.truthy script
      then importScripts rest (importScript_ (String.append (basePath g) script) g)
      else (Throw UndefinedScriptInput, g)
  end.

(** [goog.writeScripts_()] *)
Definition writeScripts_ (g : Goog) : option (completion unit * Goog) :=
  let deps := dependencies_ g in
  match visitIncluded g (startWalk g) with
  | None => None
  | Some (Throw e, w) =>
      Some (Throw e, set_dependencies_ (set_visited (walk_visited w) deps) g)
  | Some (Normal _, w) =>
      Some (importScripts (scripts w)
              (set_dependencies_ (set_visited (walk_visited w) deps) g))
  end.

(** [goog.require(name)]; the message that goes to [console.error] before
    the throw is not part of the state. *)
Definition require (name : string) (g : Goog) : option (completion unit * Goog) :=
  if isProvided_ name g then Some (Normal tt, g)
  else
    match getPathFromDeps_ name g with
    | Some path =>
        if Str.truthy path
        then writeScripts_ (set_included_ (insert_key path (included_ g)) g)
        else Some (Throw (RequireCouldNotFind name), g)
    | None => Some (Throw (RequireCouldNotFind name), g)
    end.

End loader.

(** The state after [goog.require(name)], whatever its completion. *)
Definition afterRequire (importScript : list string → string → bool)
    (name : string) (g : Goog) : Goog :=
  match require importScript name g with
  | Some (_, g') => g'
  | None => g
  end.

(** A sequence of requests, each one a pass of its own; a throw ends a
    request, not the sequence. *)
Fixpoint requireAll (importScript : list string → string → bool)
    (names : list string) (g : Goog) : Goog :=
  match names with
  | [] => g
  | name :: rest => requireAll importScript rest (afterRequire importScript name g)
  end.

(** The output [scripts] of the walk of a pass started in [g]. *)
Definition passScripts (g : Goog) : option (completion unit * list string) :=
  match visitIncluded g (startWalk g) with
  | Some (c, w) => Some (c, scripts w)
  | None => None
  end.

(** * Vocabulary of the properties *)

(** The value that the segments [parts] lead to from [cur], read one
    property after the other. *)
Definition segmentValue (parts : list string) (cur : value) : value :=
  foldl get cur parts.

(** No primitive value stands below [cur] on the way of [parts]: wherever
    the loop of [goog.exportPath_] arrives, it is at an object. *)
Fixpoint containersAlong (parts : list string) (cur : value) : Prop :=
  match parts with
  | [] => True
  | part :: rest =>
      Str.truthy part = true →
      (∃ props, cur = VObject props)
      ∧ (truthy (get cur part) = true → containersAlong rest (get cur part))
  end.

(** Partial correctness of a walk computation: from a state in [P], a
    normal end is in [Q] and a throw of [e] is in [E e]. *)
Definition triple (P : Walk → Prop) (c : Visit) (Q : Walk → Prop)
    (E : error → Walk → Prop) : Prop :=
  ∀ w r w', P w → c w = Some (r, w') →
            match r with Normal _ => Q w' | Throw e => E e w' end.

(** [deps.visited] and [scripts] only grow during a walk. *)
Definition extends (w0 w : Walk) : Prop :=
  walk_visited w0 ⊆ walk_visited w ∧ (∀ q, q ∈ scripts w0 → q ∈ scripts w).

(** The paths that own a namespace: only these are visited below the first
    call of a walk. *)
Definition owners (g : Goog) : gset string :=
  map_img (nameToPath (dependencies_ g)).

(** [edge g p q]: the walk goes from [p] to [q], that is, [p] requires a
    name that is not provided yet and that [q] owns. *)
Definition edge (g : Goog) (p q : string) : Prop :=
  ∃ l r, requires (dependencies_ g) !! p = Some l ∧ r ∈ l
         ∧ isProvided_ r g = false
         ∧ nameToPath (dependencies_ g) !! r = Some q.

(** [x] comes strictly before [y] in [l]. *)
Definition before (x y : string) (l : list string) : Prop :=
  ∃ l1 l2 l3, l = l1 ++ x :: l2 ++ y :: l3.

(** A requirement that the walk has dealt with: the name is provided, or
    its owner is written or reached. *)
Definition settled (g : Goog) (w : Walk) (r : string) : Prop :=
  isProvided_ r g = true
  ∨ ∃ q, nameToPath (dependencies_ g) !! r = Some q
         ∧ (q ∈ written (dependencies_ g)
            ∨ (q ∈ walk_visited w ∧ q ∈ scripts w)).

(** A path that a call has dealt with: it is written, or it is marked and
    in [scripts]. *)
Definition reached (g : Goog) (w : Walk) (path : string) : Prop :=
  path ∈ written (dependencies_ g)
  ∨ (path ∈ walk_visited w ∧ path ∈ scripts w).

(** The state of a walk of the pass that started with [deps.visited = V0],
    below the calls of [visitNode] on the paths [K] that have not returned
    yet. *)
Record Inv (g : Goog) (V0 : gset string) (K : gset string) (w : Walk)
  : Prop := mkInv {
  inv_nodup : NoDup (scripts w);
  inv_seen : ∀ p, p ∈ seenScript w ↔ p ∈ scripts w;
  inv_visited : ∀ q, q ∈ walk_visited w → q ∈ V0 ∨ q ∈ scripts w ∨ q ∈ K;
  inv_scripts : ∀ q, q ∈ scripts w →
                     q ∈ walk_visited w ∧ q ∉ written (dependencies_ g);
  inv_order : ∀ a b, a ∈ scripts w → a ∉ V0 → ¬ tc (edge g) a a → edge g a b →
                     b ∈ written (dependencies_ g) ∨ before b a (scripts w);
  inv_settled : ∀ a l r, a ∈ walk_visited w → a ∉ V0 → a ∉ K →
                         requires (dependencies_ g) !! a = Some l → r ∈ l →
                         settled g w r
}.

(** [r] is required by a path that the walk has marked, is not provided
    and has no owner. *)
Definition unresolvedAt (g : Goog) (w : Walk) (r : string) : Prop :=
  isProvided_ r g = false
  ∧ nameToPath (dependencies_ g) !! r = None
  ∧ ∃ p l, p ∈ walk_visited w ∧ requires (dependencies_ g) !! p = Some l ∧ r ∈ l.

Definition throwsUnresolved (g : Goog) (e : error) (w : Walk) : Prop :=
  ∃ r, e = UndefinedNameToPath r ∧ unresolvedAt g w r.



(** [g'] differs from [g] at most in [deps.written] and in the requests
    made to the import capability. *)
Definition onlyImports (g g' : Goog) : Prop :=
  global g' = global g
  ∧ implicitNamespaces_ g' = implicitNamespaces_ g
  ∧ included_ g' = included_ g
  ∧ basePath g' = basePath g
  ∧ pathToNames (dependencies_ g') = pathToNames (dependencies_ g)
  ∧ nameToPath (dependencies_ g') = nameToPath (dependencies_ g)
  ∧ requires (dependencies_ g') = requires (dependencies_ g)
  ∧ visited (dependencies_ g') = visited (dependencies_ g).

(** The requests [new] made between [g] and [g']. *)
Definition requested (g g' : Goog) (new : list string) : Prop :=
  imports g' = imports g ++ new.

(** Every request that the capability has answered with [true] is in
    [deps.written] and has not been made again since. *)
Definition importedOnce (importScript : list string → string → bool)
    (g : Goog) : Prop :=
  ∀ h1 src h2, imports g = h1 ++ src :: h2 →
               importScript h1 src = true →
               src ∈ written (dependencies_ g) ∧ src ∉ h2.




(** ** Example indexes *)

(** [b.js] provides [b]; [a.js] provides [a] and requires [b]. *)
Definition chainIndex : Goog :=
  addDependency "a.js" ["a"] ["b"]
    (addDependency "b.js" ["b"] [] (initial (VObject []) EmptyString)).

(** [a.js] requires [d] and [b]; [d.js] requires [a] back; [b.js] requires
    nothing. *)
Definition sideCycleIndex : Goog :=
  addDependency "b.js" ["b"] []
    (addDependency "d.js" ["d"] ["a"]
       (addDependency "a.js" ["a"] ["d"; "b"] (initial (VObject []) EmptyString))).

(** [c.js] requires [a] and [x]; [a.js] requires [b]; [b.js] provides [b]
    and [x]; the global object already has [b]. *)
Definition providedIndex : Goog :=
  addDependency "b.js" ["b"; "x"] []
    (addDependency "a.js" ["a"] ["b"]
       (addDependency "c.js" ["c"] ["a"; "x"]
          (initial (VObject [("b", VObject [])]) EmptyString))).


(** [chainIndex] loaded from the base path [lib/]. *)
Definition libChainIndex : Goog :=
  addDependency "a.js" ["a"] ["b"]
    (addDependency "b.js" ["b"] [] (initial (VObject []) "lib/")).


Ltac refute_before H :=
  let l1 := fresh "l1" in
  let l2 := fresh "l2" in
  let l3 := fresh "l3" in
  destruct H as (l1 & l2 & l3 & H);
  repeat (destruct l1 as [|? l1]; simplify_eq/=);
  repeat (destruct l2 as [|? l2]; simplify_eq/=).

(** * Further functions of base.js *)

(** ** Exported symbols *)


(** [ns] names the first [k] segments of [name]. *)
Definition segmentsOf (ns name : string) (k : nat) : Prop :=
  Str.split ns = take k (Str.split name).

(** [q] is needed by the pass: the walk gets to it from an included path
    along requirements that are not provided. *)
Definition needed (g : Goog) (q : string) : Prop :=
  ∃ p, p ∈ included_ g ∧ rtc (edge g) p q.

(** The invariant of the walk for [needed]: what is in [scripts] is needed
    and not written. *)
Definition scriptsNeeded (g : Goog) (w : Walk) : Prop :=
  ∀ q, q ∈ scripts w → (q ∉ written (dependencies_ g)) ∧ needed g q.

(** [a.js] requires [b], whose owner was registered under the empty
    path. *)
Definition emptyPathIndex : Goog :=
  addDependency EmptyString ["b"] []
    (addDependency "a.js" ["a"] ["b"] (initial (VObject []) EmptyString)).

(** Every name that has an owner is listed under its owner in
    [deps.pathToNames]. *)
Definition ownersListed (d : Dependencies) : Prop :=
  ∀ n p, nameToPath d !! n = Some p → n ∈ default ∅ (pathToNames d !! p).

(** ** Unique ids of objects *)

(** [part in obj], for the own properties. *)
Fixpoint has_prop (part : string) (props : list (string * value)) : bool :=
  match props with
  | [] => false
  | (k, _) :: r => String.eqb k part || has_prop part r
  end.


(** The objects that [goog.getUid] and [goog.removeUid] are called on:
    references into a store that gives each object its own properties
    and its prototype chain, that is, the objects that a property read on
    it visits after the object itself, nearest first. A reference that
    the store does not have denotes an object without own properties
    whose prototypes have neither the uid property nor
    [removeAttribute]. *)
Record Uids : Type := mkUids {
  objects : gmap positive (list (string * value));
  prototypes : gmap positive (list positive);
  uidCounter_ : Z                       (* goog.uidCounter_ *)
}.

Definition propsOf (st : Uids) (obj : positive) : list (string * value) :=
  default [] (objects st !! obj).

Definition ancestors (st : Uids) (obj : positive) : list positive :=
  default [] (prototypes st !! obj).

(** A property read along a chain: the first object that has the
    property gives the value. *)
Fixpoint readChain (st : Uids) (part : string) (chain : list positive) : value :=
  match chain with
  | [] => VUndefined
  | o :: rest =>
      if has_prop part (propsOf st o) then lookup_prop part (propsOf st o)
      else readChain st part rest
  end.

(** [obj[part]] *)
Definition read (st : Uids) (obj : positive) (part : string) : value :=
  readChain st part (obj :: ancestors st obj).


(** [++n] on a counter that holds an integer between [0] and [2^53]: the
    number after [2^53] is not a double, and the sum rounds back. *)
Definition increment (n : Z) : Z :=
  if (n <? 2 ^ 53)%Z then (n + 1)%Z else n.

Section uid.

(** [goog.UID_PROPERTY_], drawn at random when base.js is loaded. *)
Variable UID_PROPERTY_ : string.

(** [goog.getUid(obj)] *)
Definition getUid (obj : positive) (st : Uids) : value * Uids :=
  let cur := read st obj UID_PROPERTY_ in
  if truthy cur then (cur, st)
  else
    let n := increment (uidCounter_ st) in
    (VNumber n,
     mkUids (<[obj := store_prop UID_PROPERTY_ (VNumber n) (propsOf st obj)]>
               (objects st))
            (prototypes st) n).


(** The value of the own uid property of [obj]. *)
Definition uidOf (st : Uids) (obj : positive) : value :=
  lookup_prop UID_PROPERTY_ (propsOf st obj).

(** No object of the prototype chain of [obj] has the uid property. *)
Definition inheritsNoUid (st : Uids) (obj : positive) : bool :=
  forallb (λ p, negb (has_prop UID_PROPERTY_ (propsOf st p))) (ancestors st obj).

(** The uids in the store were handed out by the counter: each truthy own
    uid property is a number between [1] and the counter, and no two
    objects have the same one as their own. *)
Definition uidInv (st : Uids) : Prop :=
  (0 ≤ uidCounter_ st ≤ 2 ^ 53)%Z
  ∧ (∀ o, truthy (uidOf st o) = true →
          ∃ k, uidOf st o = VNumber k ∧ (1 ≤ k ≤ uidCounter_ st)%Z)
  ∧ (∀ o o', truthy (uidOf st o) = true → uidOf st o = uidOf st o' → o = o').

End uid.

(** The store when base.js is loaded: no object has a uid. *)
Definition noUids : Uids := mkUids ∅ ∅ 0.

(** An object [1] that has the uid [1], and an object [2] whose prototype
    it is. *)
Definition heirStore (UID_PROPERTY_ : string) : Uids :=
  mkUids {[1%positive := [(UID_PROPERTY_, VNumber 1)]]}
         {[2%positive := [1%positive]]} 1.

(** ** Copying properties *)

(** [target[x] = v] in [goog.mixin] and [goog.globalize]: a TypeError,
    [None], on [undefined] and [null]; dropped on the other primitive
    values. *)
Definition assign (target : value) (x : string) (v : value) : option value :=
  match target with
  | VUndefined | VNull => None
  | _ => Some (set target x v)
  end.

(** [goog.mixin(target, source)]: the target afterwards, [None] for a
    TypeError. [source] lists the properties that [for (var x in source)]
    enumerates, with their values, in the order of the enumeration; names
    that an implementation leaves out of the enumeration, as the comment
    in the function says of Internet Explorer, are not in the list. *)
Definition mixin (target : value) (source : list (string * value)) : option value :=
  foldl (λ t x, t ≫= λ t, assign t x (lookup_prop x source))
        (Some target) (map fst source).

(** [goog.globalize(obj)], called without [opt_global]. *)
Definition globalize (obj : list (string * value)) (g : Goog) : option Goog :=
  glob ← mixin (global g) obj; Some (set_global glob g).

(** ** The base path *)

Definition set_basePath (x : string) (g : Goog) : Goog :=
  mkGoog (global g) (implicitNamespaces_ g) (included_ g) (dependencies_ g)
         x (imports g).

(** [s.lastIndexOf(c)] for a character [c], [-1] when [c] is not in [s]. *)
Fixpoint lastIndexOfChar (c : ascii) (s : string) : Z :=
  match s with
  | EmptyString => (-1)%Z
  | String x r =>
      let i := lastIndexOfChar c r in
      if (0 <=? i)%Z then (i + 1)%Z
      else if Ascii.eqb x c then 0%Z else (-1)%Z
  end.

(** [s.substr(start, length)]: a negative [start] counts from the end. *)
Definition substr (s : string) (start length : Z) : string :=
  let size := Z.of_nat (String.length s) in
  let from := if (start <? 0)%Z then Z.max (size + start) 0 else Z.min start size in
  let len := Z.min (Z.max length 0) (size - from) in
  String.substring (Z.to_nat from) (Z.to_nat len) s.

(** [goog.inHtmlDocument_()]; [None] is the TypeError of [in] on a
    [document] that is not an object. *)
Definition inHtmlDocument_ (g : Goog) : option bool :=
  match get (global g) "document" with
  | VUndefined => Some false
  | VObject props => Some (has_prop "write" props)
  | _ => None
  end.

(** The loop of [goog.findBasePath_] over the [src] of the script
    elements, last element first. *)
Fixpoint findBasePath_loop (scripts_rev : list string) : option string :=
  match scripts_rev with
  | [] => None
  | src :: rest =>
      let qmark := lastIndexOfChar "?"%char src in
      let l := if (qmark =? -1)%Z then Z.of_nat (String.length src) else qmark in
      if String.eqb (substr src (l - 7) 7) "base.js"
      then Some (substr src 0 (l - 7))
      else findBasePath_loop rest
  end.

(** [goog.findBasePath_()] in a document whose script elements have the
    sources [scripts]. [None] when [CLOSURE_BASE_PATH] is truthy and not a
    string, or when [goog.inHtmlDocument_] throws. *)
Definition findBasePath_ (scripts : list string) (g : Goog) : option Goog :=
  let base := get (global g) "CLOSURE_BASE_PATH" in
  if truthy base then
    match base with
    | VString s => Some (set_basePath s g)
    | _ => None
    end
  else
    match inHtmlDocument_ g with
    | None => None
    | Some false => Some g
    | Some true =>
        match findBasePath_loop (rev scripts) with
        | Some path => Some (set_basePath path g)
        | None => Some g
        end
    end.

(** ** CSS names *)

(** [s.split(c)] for a character [c]. *)
Fixpoint splitOn (c : ascii) (s : string) : list string :=
  match s with
  | EmptyString => [EmptyString]
  | String x r =>
      if Ascii.eqb x c then EmptyString :: splitOn c r
      else match splitOn c r with
           | h :: t => String x h :: t
           | [] => [String x EmptyString]
           end
  end.

(** [parts.join(sep)] *)
Fixpoint join (sep : string) (parts : list string) : string :=
  match parts with
  | [] => EmptyString
  | [x] => x
  | x :: rest => String.append x (String.append sep (join sep rest))
  end.

(** [goog.cssNameMapping_] and [goog.cssNameMappingStyle_]; [None] is
    [undefined]. The mapping is an object whose own properties are
    strings. *)
Record CssNames : Type := mkCssNames {
  cssNameMapping_ : option (gmap string string);
  cssNameMappingStyle_ : option string
}.

(** [goog.setCssNameMapping(mapping, opt_style)] *)
Definition setCssNameMapping (mapping : gmap string string)
    (opt_style : option string) : CssNames :=
  mkCssNames (Some mapping) opt_style.

(** The inner function [getMapping] of [goog.getCssName]:
    [goog.cssNameMapping_[cssName] || cssName]. For a name that the
    mapping does not have itself and inherits from [Object.prototype] the
    read gives the inherited function or object, and the result is no
    string: [None]. *)
Definition getMapping (mapping : gmap string string) (cssName : string)
  : option string :=
  match mapping !! cssName with
  | Some v => Some (if Str.truthy v then v else cssName)
  | None => if inherited cssName then None else Some cssName
  end.

(** The loop of [renameByParts]: [mapped] after the loop. *)
Fixpoint mapParts (mapping : gmap string string) (parts : list string)
  : option (list string) :=
  match parts with
  | [] => Some []
  | part :: rest =>
      m ← getMapping mapping part;
      mapped ← mapParts mapping rest;
      Some (m :: mapped)
  end.

(** The inner function [renameByParts] of [goog.getCssName]. *)
Definition renameByParts (mapping : gmap string string) (cssName : string)
  : option string :=
  join "-" <$> mapParts mapping (splitOn "-"%char cssName).

(** [goog.getCssName(className, opt_modifier)]; [None] when a part is
    renamed to a value that is no string. *)
Definition getCssName (st : CssNames) (className : string)
    (opt_modifier : option string) : option string :=
  let rename :=
    match cssNameMapping_ st with
    | Some mapping =>
        if decide (cssNameMappingStyle_ st = Some "BY_WHOLE")
        then getMapping mapping else renameByParts mapping
    | None => λ a, Some a
    end in
  match opt_modifier with
  | Some modifier =>
      if Str.truthy modifier
      then String.append className <$> (String.append "-" <$> rename modifier)
      else rename className
  | None => rename className
  end.

(** * array.js *)

Module array.

(** ToInt32 of an integer, the conversion that [>>] and [~] apply to their
    operand. *)
Definition toInt32 (n : Z) : Z := ((n + 2 ^ 31) mod 2 ^ 32 - 2 ^ 31)%Z.

Section elements.

Context {A : Type}.

(** What reading outside an array gives: [undefined]. *)
Variable undefined : A.

(** [a < b] on the elements; [a > b] is [lessThan b a]. *)
Variable lessThan : A → A → bool.

(** [arr[i]] *)
Definition at_ (arr : list A) (i : Z) : A :=
  if (i <? 0)%Z then undefined else nth (Z.to_nat i) arr undefined.

(** [goog.array.defaultCompare] *)
Definition defaultCompare (a b : A) : Z :=
  if lessThan b a then 1%Z else if lessThan a b then (-1)%Z else 0%Z.

(** The loop of [goog.array.binarySearch_]. [compareResult x i arr] is the
    number that the loop computes for the element [x] at index [i]: the
    call of the evaluator, or of the comparator on the target and [x].
    [None] when [fuel] rounds do not end the loop. *)
Fixpoint binarySearch_loop (fuel : nat) (arr : list A)
    (compareResult : A → Z → list A → Z) (left right : Z) (found : bool)
  : option Z :=
  match fuel with
  | O => None
  | S fuel' =>
      if (left <? right)%Z then
        let middle := Z.shiftr (toInt32 (left + right)) 1 in
        let c := compareResult (at_ arr middle) middle arr in
        if (c >? 0)%Z
        then binarySearch_loop fuel' arr compareResult (middle + 1) right found
        else binarySearch_loop fuel' arr compareResult left middle (c =? 0)%Z
      else Some (if found then left else Z.lnot (toInt32 left))
  end.

(** [goog.array.binarySearch_] *)
Definition binarySearch_ (arr : list A) (compareResult : A → Z → list A → Z)
  : option Z :=
  binarySearch_loop (S (length arr)) arr compareResult 0
                    (Z.of_nat (length arr)) false.

(** [goog.array.binarySearch(arr, target, opt_compareFn)] *)
Definition binarySearch (arr : list A) (target : A)
    (opt_compareFn : option (A → A → Z)) : option Z :=
  binarySearch_ arr (λ x _ _, default defaultCompare opt_compareFn target x).

(** [goog.array.binarySelect(arr, evaluator)] *)
Definition binarySelect (arr : list A) (evaluator : A → Z → list A → Z)
  : option Z :=
  binarySearch_ arr evaluator.

(** The loop of [goog.array.isSorted] from the pair [prev], [rest]. *)
Fixpoint isSorted_loop (compare : A → A → Z) (opt_strict : bool) (prev : A)
    (rest : list A) : bool :=
  match rest with
  | [] => true
  | x :: rest' =>
      let c := compare prev x in
      if (c >? 0)%Z || ((c =? 0)%Z && opt_strict) then false
      else isSorted_loop compare opt_strict x rest'
  end.

(** [goog.array.isSorted(arr, opt_compareFn, opt_strict)] *)
Definition isSorted (arr : list A) (opt_compareFn : option (A → A → Z))
    (opt_strict : bool) : bool :=
  match arr with
  | [] => true
  | x :: rest => isSorted_loop (default defaultCompare opt_compareFn) opt_strict x rest
  end.

(** [Array.prototype.splice] with integer arguments: the removed elements
    and the array afterwards. *)
Definition splice (arr : list A) (index howMany : Z) (items : list A)
  : list A * list A :=
  let len := Z.of_nat (length arr) in
  let start := if (index <? 0)%Z then Z.max (len + index) 0 else Z.min index len in
  let count := Z.min (Z.max howMany 0) (len - start) in
  (firstn (Z.to_nat count) (skipn (Z.to_nat start) arr),
   firstn (Z.to_nat start) arr ++ items ++ skipn (Z.to_nat (start + count)) arr).

(** [goog.array.insertAt(arr, obj, opt_i)]: the array afterwards. *)
Definition insertAt (arr : list A) (obj : A) (opt_i : option Z) : list A :=
  (splice arr (default 0%Z opt_i) 0 [obj]).2.

(** [goog.array.removeAt(arr, i)]: the result and the array afterwards. *)
Definition removeAt (arr : list A) (i : Z) : bool * list A :=
  let r := splice arr i 1 [] in
  (Nat.eqb (length r.1) 1, r.2).

(** [goog.array.binaryInsert]: the result and the array afterwards. *)
Definition binaryInsert (array : list A) (value : A)
    (opt_compareFn : option (A → A → Z)) : option (bool * list A) :=
  match binarySearch array value opt_compareFn with
  | None => None
  | Some index =>
      if (index <? 0)%Z
      then Some (true, insertAt array value (Some (- (index + 1))%Z))
      else Some (false, array)
  end.

(** [goog.array.binaryRemove]: the result and the array afterwards. *)
Definition binaryRemove (array : list A) (value : A)
    (opt_compareFn : option (A → A → Z)) : option (bool * list A) :=
  match binarySearch array value opt_compareFn with
  | None => None
  | Some index =>
      if (0 <=? index)%Z then Some (removeAt array index)
      else Some (false, array)
  end.

(** [goog.array.rotate(array, n)] for an integer [n]: the array
    afterwards. *)
Definition rotate (array : list A) (n : Z) : list A :=
  if Nat.eqb (length array) 0 then array
  else
    let n := Z.rem n (Z.of_nat (length array)) in
    if (n >? 0)%Z then
      let r := splice array (- n) n [] in r.1 ++ r.2
    else if (n <? 0)%Z then
      let r := splice array 0 (- n) [] in r.2 ++ r.1
    else array.

End elements.

End array.

(** The order that [goog.array.isSorted] checks on integers with the
    default comparison: strict when [opt_strict] is set. *)
Definition ordered (opt_strict : bool) : Z → Z → Prop :=
  if opt_strict then Z.lt else Z.le.

(** The powers of two of the 32-bit conversions, as numerals. *)
Ltac pow2 :=
  change (2 ^ 30)%Z with 1073741824%Z in *;
  change (2 ^ 31)%Z with 2147483648%Z in *;
  change (2 ^ 32)%Z with 4294967296%Z in *.

(** * Properties *)

(** ** Lookup of a name: [goog.getObjectByName] *)

Lemma isDefAndNotNull_truthy v : truthy v = true → isDefAndNotNull v = true.
Proof. by destruct v. Qed.

Lemma getObjectByName_parts_segmentValue parts cur :
  Forall (λ part, Str.truthy part = true) parts →
  isDefAndNotNull (segmentValue parts cur) = false →
  parts ≠ [] →
  getObjectByName_parts parts cur = VNull.
Proof.
  intros Hparts. revert cur.
  induction Hparts as [|part parts Hpart Hparts IH]; intros cur Hv Hne; [done|].
  cbn in *. rewrite Hpart.
  destruct (isDefAndNotNull (get cur part)) eqn:Hd; [|done].
  destruct parts as [|part' parts'].
  - cbn in Hv. congruence.
  - by apply IH.
Qed.

Lemma getObjectByName_parts_prefix_null pre post cur :
  Forall (λ part, Str.truthy part = true) pre →
  pre ≠ [] →
  getObjectByName_parts pre cur = VNull →
  getObjectByName_parts (pre ++ post) cur = VNull.
Proof.
  intros Hpre. revert cur.
  induction Hpre as [|part pre Hpart _ IH]; intros cur Hne Hnull; [done|].
  cbn in *. rewrite Hpart in *.
  destruct (isDefAndNotNull (get cur part)) eqn:Hd; [|done].
  destruct pre as [|part' pre'].
  - cbn in Hnull. by rewrite Hnull in Hd.
  - by apply IH.
Qed.

(** C10. [goog.getObjectByName] returns [null] as soon as one of the
    segments of the name, the last one included, reads as [undefined] or
    as [null] (for a name whose segments up to that one are not empty);
    a name whose value is [null] is therefore not found, and
    [goog.isProvided_] is false for it. *)
Theorem getObjectByName_undefined_or_null_segment (name : string) (g : Goog) (k : nat) :
  k < length (Str.split name) →
  Forall (λ part, part ≠ EmptyString) (take (S k) (Str.split name)) →
  isDefAndNotNull (segmentValue (take (S k) (Str.split name)) (global g)) = false →
  getObjectByName name (global g) = VNull ∧ isProvided_ name g = false.
Proof.
  intros Hk Hparts Hv.
  assert (Hnull : getObjectByName name (global g) = VNull).
  { unfold getObjectByName.
    rewrite <- (take_drop (S k) (Str.split name)).
    assert (Hparts' : Forall (λ part, Str.truthy part = true)
                             (take (S k) (Str.split name))).
    { eapply Forall_impl; [exact Hparts|]. intros [|? ?] ?; done. }
    assert (Hne : take (S k) (Str.split name) ≠ []).
    { destruct (Str.split name); [cbn in Hk; lia|done]. }
    apply getObjectByName_parts_prefix_null; [done|done|].
    by apply getObjectByName_parts_segmentValue. }
  split; [done|].
  unfold isProvided_. rewrite Hnull. cbn. by rewrite andb_false_r.
Qed.

Lemma getObjectByName_undefined_or_null_segment_witness :
  getObjectByName "a.b.c"
    (global (initial (VObject [("a", VObject [("b", VNull)])]) EmptyString))
  = VNull
  ∧ isProvided_ "a.b.c"
      (initial (VObject [("a", VObject [("b", VNull)])]) EmptyString) = false.
Proof.
  apply (getObjectByName_undefined_or_null_segment "a.b.c"
           (initial (VObject [("a", VObject [("b", VNull)])]) EmptyString) 1).
  - vm_compute. lia.
  - vm_compute. repeat constructor; discriminate.
  - reflexivity.
Defined.

(** ** A request that is already satisfied *)

(** C5. [goog.require(name)] for a name that [goog.isProvided_] accepts
    returns at once: the state is unchanged, so no script is handed to the
    import capability. *)
Theorem require_provided (importScript : list string → string → bool)
    (name : string) (g : Goog) :
  isProvided_ name g = true →
  require importScript name g = Some (Normal tt, g).
Proof. intros H. unfold require. by rewrite H. Qed.

Lemma require_provided_witness :
  require (λ _ _, true) "a"
          (addDependency "a.js" ["a"] [] (initial (VObject [("a", VObject [])]) EmptyString))
  = Some (Normal tt,
          addDependency "a.js" ["a"] [] (initial (VObject [("a", VObject [])]) EmptyString)).
Proof.
  apply require_provided. reflexivity.
Defined.

(** ** Registration of dependencies: [goog.addDependency] *)

Lemma foldl_addRequire_nameToPath path names d :
  nameToPath (foldl (addRequire path) d names) = nameToPath d.
Proof. revert d. induction names as [|n names IH]; intros d; [done|]. cbn. by rewrite IH. Qed.

Lemma foldl_addProvide_nameToPath path names d n :
  nameToPath (foldl (addProvide path) d names) !! n
  = if decide (n ∈ names) then Some path else nameToPath d !! n.
Proof.
  revert d. induction names as [|n' names IH]; intros d; cbn.
  - rewrite decide_False; [done|]. apply not_elem_of_nil.
  - rewrite IH. cbn.
    destruct (decide (n ∈ names)) as [Hin|Hin].
    + rewrite decide_True; [done|]. rewrite elem_of_cons. by right.
    + destruct (decide (n' = n)) as [->|Hne].
      * rewrite lookup_insert_eq. rewrite decide_True; [done|].
        rewrite elem_of_cons. by left.
      * rewrite lookup_insert_ne by done.
        rewrite decide_False; [done|]. rewrite elem_of_cons. by intros [?|?].
Qed.

Lemma untilFalsy_all names :
  Forall (λ n, n ≠ EmptyString) names → untilFalsy names = names.
Proof.
  induction 1 as [|n names Hn _ IH]; [done|].
  cbn. destruct n; [done|]. cbn. by rewrite IH.
Qed.

(** C3, as the code has it. [goog.addDependency] has no conflict check and
    never throws: after registering [relPath] with a list [provides] of
    non-empty names, every name of the list is owned by the (normalized)
    [relPath], whoever owned it before -- the last registration wins --
    and the names outside the list keep their owner. *)
Theorem addDependency_last_registration_wins
    (relPath : string) (provides requires_ : list string) (g : Goog) (n : string) :
  Forall (λ p, p ≠ EmptyString) provides →
  nameToPath (dependencies_ (addDependency relPath provides requires_ g)) !! n
  = if decide (n ∈ provides) then Some (Str.replaceBackslashes relPath)
    else nameToPath (dependencies_ g) !! n.
Proof.
  intros Hne. unfold addDependency. cbn.
  rewrite foldl_addRequire_nameToPath, foldl_addProvide_nameToPath.
  by rewrite untilFalsy_all.
Qed.

Lemma addDependency_last_registration_wins_witness :
  nameToPath (dependencies_
    (addDependency "m2.js" ["n"] []
       (addDependency "m1.js" ["n"] [] (initial (VObject []) EmptyString)))) !! "n"
  = if decide ("n" ∈ ["n"]) then Some (Str.replaceBackslashes "m2.js")
    else nameToPath (dependencies_
           (addDependency "m1.js" ["n"] [] (initial (VObject []) EmptyString))) !! "n".
Proof.
  apply addDependency_last_registration_wins.
  repeat constructor; discriminate.
Defined.

(** C3 fails as stated: the second module takes the namespace over. *)
Lemma addDependency_conflict_overwrites :
  nameToPath (dependencies_
    (addDependency "m1.js" ["n"] [] (initial (VObject []) EmptyString))) !! "n"
  = Some "m1.js"
  ∧ nameToPath (dependencies_
      (addDependency "m2.js" ["n"] []
         (addDependency "m1.js" ["n"] [] (initial (VObject []) EmptyString)))) !! "n"
    = Some "m2.js"
  ∧ nameToPath (dependencies_
      (addDependency "m2.js" ["n"] []
         (addDependency "m1.js" ["n"] [] (initial (VObject []) EmptyString)))) !! "n"
    ≠ Some "m1.js".
Proof. vm_compute. repeat split; discriminate. Qed.

(** ** Declaration of a namespace: [goog.provide] *)

Lemma substring_length n s : (String.length (String.substring 0 n s) ≤ n)%nat.
Proof.
  revert s. induction n as [|n IH]; intros [|c s]; cbn; try lia.
  specialize (IH s). lia.
Qed.

Lemma lastIndexOf_lt s : (Str.lastIndexOf s < Z.of_nat (String.length s))%Z.
Proof.
  induction s as [|c s IH]; cbn [Str.lastIndexOf String.length]; [lia|].
  destruct (0 <=? Str.lastIndexOf s)%Z; [lia|].
  destruct (Ascii.eqb c "."%char); lia.
Qed.

(** One round of the loop of [goog.provide] leaves a strictly shorter
    namespace, or the empty one. *)
Lemma cut_shorter s :
  Str.truthy (Str.substring0 (Str.lastIndexOf s) s) = true →
  (String.length (Str.substring0 (Str.lastIndexOf s) s) < String.length s)%nat.
Proof.
  intros Ht. unfold Str.substring0 in *.
  pose proof (substring_length (Z.to_nat (Str.lastIndexOf s)) s) as Hle.
  pose proof (lastIndexOf_lt s) as Hlt.
  destruct (String.substring 0 (Z.to_nat (Str.lastIndexOf s)) s) eqn:E; [done|].
  cbn [String.length] in *. lia.
Qed.

(** The loop of [goog.provide] ends within [String.length namespace + 1]
    rounds. *)
Lemma provide_loop_fuel fuel namespace glob implicit :
  (String.length namespace < fuel)%nat →
  is_Some (provide_loop fuel namespace glob implicit).
Proof.
  revert namespace implicit.
  induction fuel as [|fuel IH]; intros namespace implicit Hlt; [lia|].
  cbn [provide_loop].
  destruct (Str.truthy _) eqn:Ht; [|done].
  destruct (truthy _); [done|].
  apply IH. apply cut_shorter in Ht. lia.
Qed.


(** [goog.provide] always returns or throws. *)
Lemma provide_total name g : is_Some (provide name g).
Proof.
  unfold provide. destruct (isProvided_ name g); [done|].
  destruct (provide_loop_fuel (S (String.length name)) name (global g)
              (implicitNamespaces_ g ∖ {[name]})) as [imp ->]; [lia|done].
Qed.




Lemma lookup_store_prop_eq part x props :
  lookup_prop part (store_prop part x props) = x.
Proof.
  induction props as [|[k v] props IH]; cbn.
  - by rewrite String.eqb_refl.
  - destruct (String.eqb k part) eqn:E; cbn; by rewrite E.
Qed.

Lemma set_truthy cur part x : truthy cur = true → truthy (set cur part x) = true.
Proof. by destruct cur. Qed.

Lemma exportPath_parts_truthy parts cur :
  truthy cur = true → truthy (exportPath_parts parts VUndefined cur) = true.
Proof.
  intros Hcur. destruct parts as [|part rest]; [done|]. cbn.
  destruct (Str.truthy part); [|done]. rewrite andb_false_r.
  destruct (truthy (get cur part)); by apply set_truthy.
Qed.

Lemma containersAlong_empty parts : containersAlong parts (VObject []).
Proof. destruct parts as [|part rest]; [done|]. intros _. split; [by eexists|done]. Qed.

(** Where no primitive value stands in the way, [goog.exportPath_] leaves
    the name resolving to a truthy value. *)
Lemma exportPath_parts_materializes parts cur :
  truthy cur = true → containersAlong parts cur →
  truthy (getObjectByName_parts parts (exportPath_parts parts VUndefined cur)) = true.
Proof.
  revert cur. induction parts as [|part rest IH]; intros cur Hcur Halong; [done|].
  cbn [getObjectByName_parts exportPath_parts].
  destruct (Str.truthy part) eqn:Hpart; [|done].
  destruct (Halong Hpart) as [[props ->] Hrest]. rewrite andb_false_r.
  assert (Hget : ∀ x, get (set (VObject props) part x) part = x).
  { intros x. cbn. apply lookup_store_prop_eq. }
  destruct (truthy (get (VObject props) part)) eqn:Hchild; rewrite Hget.
  - rewrite isDefAndNotNull_truthy by (by apply exportPath_parts_truthy).
    by apply IH; [|apply Hrest].
  - rewrite isDefAndNotNull_truthy by (by apply exportPath_parts_truthy).
    apply IH; [done|apply containersAlong_empty].
Qed.

(** A [goog.provide(name)] that returns leaves [name] resolving to a truthy
    value, unless a primitive value stands in its way. *)
Lemma provide_materializes name g g1 :
  provide name g = Some (Normal tt, g1) →
  truthy (global g) = true →
  containersAlong (Str.split name) (global g) →
  truthy (getObjectByName name (global g1)) = true.
Proof.
  unfold provide. destruct (isProvided_ name g); [done|].
  destruct (provide_loop _ _ _ _); [|done].
  intros [= <-] Hglob Halong. by apply exportPath_parts_materializes.
Qed.

Lemma getObjectByName_parts_falsy part rest v :
  truthy v = false →
  getObjectByName_parts (String part.1 part.2 :: rest) v = VNull.
Proof. by destruct v. Qed.

(** C4. In a state where the global object has no truthy property [a],
    [goog.provide('a.b.c')] returns, leaves [a], [a.b] and [a.b.c]
    resolving to nested objects, and records [a] and [a.b] as implicit
    namespaces: afterwards [goog.isProvided_] is false for [a] and for
    [a.b] and true for [a.b.c]. *)
Theorem provide_a_b_c (g : Goog) (props : list (string * value)) :
  global g = VObject props →
  truthy (get (global g) "a") = false →
  ∃ g' : Goog,
    provide "a.b.c" g = Some (Normal tt, g')
    ∧ getObjectByName "a" (global g') = VObject [("b", VObject [("c", VObject [])])]
    ∧ getObjectByName "a.b" (global g') = VObject [("c", VObject [])]
    ∧ getObjectByName "a.b.c" (global g') = VObject []
    ∧ "a" ∈ implicitNamespaces_ g'
    ∧ "a.b" ∈ implicitNamespaces_ g'
    ∧ isProvided_ "a" g' = false
    ∧ isProvided_ "a.b" g' = false
    ∧ isProvided_ "a.b.c" g' = true.
Proof.
  intros Hglob Ha.
  assert (Hnull : ∀ part rest,
            getObjectByName_parts ("a" :: String part.1 part.2 :: rest) (global g) = VNull).
  { intros part rest. cbn [getObjectByName_parts Str.truthy].
    destruct (isDefAndNotNull (get (global g) "a")); [|done].
    change (getObjectByName_parts (String part.1 part.2 :: rest) (get (global g) "a") = VNull).
    by apply getObjectByName_parts_falsy. }
  assert (Hab : getObjectByName "a.b" (global g) = VNull)
    by apply (Hnull ("b"%char, EmptyString) []).
  assert (Habc : getObjectByName "a.b.c" (global g) = VNull)
    by apply (Hnull ("b"%char, EmptyString) ["c"]).
  assert (Ha' : truthy (getObjectByName "a" (global g)) = false).
  { unfold getObjectByName. change (Str.split "a") with ["a"].
    cbn [getObjectByName_parts Str.truthy].
    by destruct (isDefAndNotNull (get (global g) "a")). }
  eexists. split.
  { unfold provide, isProvided_. rewrite Habc. cbn [truthy].
    rewrite andb_false_r.
    change (String.length "a.b.c") with 5.
    cbn [provide_loop].
    change (Str.substring0 (Str.lastIndexOf "a.b.c") "a.b.c") with "a.b".
    cbn [Str.truthy]. rewrite Hab. cbn [truthy].
    change (Str.substring0 (Str.lastIndexOf "a.b") "a.b") with "a".
    cbn [Str.truthy]. rewrite Ha'.
    change (Str.substring0 (Str.lastIndexOf "a") "a") with EmptyString.
    cbn [Str.truthy]. reflexivity. }
  unfold isProvided_, set_global, set_implicitNamespaces_.
  cbn [global implicitNamespaces_].
  assert (Hexp : get (exportPath_ "a.b.c" VUndefined (global g)) "a"
                 = VObject [("b", VObject [("c", VObject [])])]).
  { unfold exportPath_. change (Str.split "a.b.c") with ["a"; "b"; "c"].
    cbn [exportPath_parts Str.truthy isDef andb]. rewrite Ha.
    rewrite Hglob. cbn [set get lookup_prop truthy].
    by rewrite lookup_store_prop_eq. }
  assert (Hga : getObjectByName "a" (exportPath_ "a.b.c" VUndefined (global g))
                = VObject [("b", VObject [("c", VObject [])])]).
  { unfold getObjectByName. change (Str.split "a") with ["a"].
    cbn [getObjectByName_parts Str.truthy]. by rewrite Hexp. }
  assert (Hgab : getObjectByName "a.b" (exportPath_ "a.b.c" VUndefined (global g))
                 = VObject [("c", VObject [])]).
  { unfold getObjectByName. change (Str.split "a.b") with ["a"; "b"].
    cbn [getObjectByName_parts Str.truthy]. by rewrite Hexp. }
  assert (Hgabc : getObjectByName "a.b.c" (exportPath_ "a.b.c" VUndefined (global g))
                  = VObject []).
  { unfold getObjectByName. change (Str.split "a.b.c") with ["a"; "b"; "c"].
    cbn [getObjectByName_parts Str.truthy]. by rewrite Hexp. }
  rewrite Hga, Hgab, Hgabc. cbn [truthy].
  assert (Hia : "a" ∈ ({["a"]} ∪ ({["a.b"]} ∪ implicitNamespaces_ g ∖ {["a.b.c"]}) : gset string))
    by (apply elem_of_union_l; by apply elem_of_singleton).
  assert (Hiab : "a.b" ∈ ({["a"]} ∪ ({["a.b"]} ∪ implicitNamespaces_ g ∖ {["a.b.c"]}) : gset string))
    by (apply elem_of_union_r, elem_of_union_l; by apply elem_of_singleton).
  assert (Hiabc : "a.b.c" ∉ ({["a"]} ∪ ({["a.b"]} ∪ implicitNamespaces_ g ∖ {["a.b.c"]}) : gset string)).
  { rewrite !elem_of_union, elem_of_difference, !elem_of_singleton.
    intros [?|[?|[_ ?]]]; done. }
  repeat split; try done.
  - by rewrite bool_decide_eq_true_2.
  - by rewrite bool_decide_eq_true_2.
  - by rewrite bool_decide_eq_false_2.
Qed.

Lemma provide_a_b_c_witness :
  ∃ g' : Goog,
    provide "a.b.c" (initial (VObject []) EmptyString) = Some (Normal tt, g')
    ∧ getObjectByName "a" (global g') = VObject [("b", VObject [("c", VObject [])])]
    ∧ getObjectByName "a.b" (global g') = VObject [("c", VObject [])]
    ∧ getObjectByName "a.b.c" (global g') = VObject []
    ∧ "a" ∈ implicitNamespaces_ g'
    ∧ "a.b" ∈ implicitNamespaces_ g'
    ∧ isProvided_ "a" g' = false
    ∧ isProvided_ "a.b" g' = false
    ∧ isProvided_ "a.b.c" g' = true.
Proof.
  apply (provide_a_b_c (initial (VObject []) EmptyString) []); reflexivity.
Defined.

(** ** Reasoning about walks *)

Lemma triple_skip P E : triple P skip P E.
Proof. intros w r w' HP [= <- <-]. done. Qed.

Lemma triple_throw (P Q : Walk → Prop) (E : error → Walk → Prop) e :
  (∀ w, P w → E e w) → triple P (throw e) Q E.
Proof. intros H w r w' HP [= <- <-]. by apply H. Qed.

Lemma triple_andThen P R Q E c1 c2 :
  triple P c1 R E → triple R c2 Q E → triple P (andThen c1 c2) Q E.
Proof.
  intros H1 H2 w r w' HP Hrun. unfold andThen in Hrun.
  destruct (c1 w) as [[[[]|e] w1]|] eqn:E1; [| |done].
  - apply (H2 w1 r w'); [|done]. exact (H1 w _ w1 HP E1).
  - injection Hrun as <- <-. exact (H1 w _ w1 HP E1).
Qed.

Lemma triple_conseq (P P' Q Q' : Walk → Prop) (E E' : error → Walk → Prop) c :
  (∀ w, P' w → P w) → (∀ w, Q w → Q' w) → (∀ e w, E e w → E' e w) →
  triple P c Q E → triple P' c Q' E'.
Proof.
  intros HP HQ HE H w r w' HP' Hrun.
  specialize (H w r w' (HP _ HP') Hrun). destruct r; auto.
Qed.

(** The rule of [for .. in], with an invariant that knows the keys already
    handled. *)
Lemma triple_forIn (I : list string → Walk → Prop) E keys body :
  (∀ pre key post, keys = pre ++ key :: post →
                   triple (I pre) (body key) (I (pre ++ [key])) E) →
  triple (I []) (forIn keys body) (I keys) E.
Proof.
  intros Hbody.
  assert (H : ∀ rest pre, keys = pre ++ rest →
                          triple (I pre) (forIn rest body) (I keys) E).
  { induction rest as [|key rest IH]; intros pre Hkeys.
    - rewrite app_nil_r in Hkeys. subst pre. apply triple_skip.
    - cbn [forIn]. eapply triple_andThen.
      + by apply (Hbody pre key rest).
      + apply IH. by rewrite <- app_assoc. }
  by apply (H keys []).
Qed.

Lemma triple_forIn_simple (I : Walk → Prop) E keys body :
  (∀ key, key ∈ keys → triple I (body key) I E) →
  triple I (forIn keys body) I E.
Proof.
  intros Hbody. apply (triple_forIn (λ _, I)).
  intros pre key post ->. apply Hbody.
  apply elem_of_app. right. apply elem_of_cons. by left.
Qed.

Lemma triple_pushScript (P Q : Walk → Prop) E path :
  (∀ w, P w → path ∈ seenScript w → Q w) →
  (∀ w, P w → path ∉ seenScript w →
        Q (mkWalk (walk_visited w) ({[path]} ∪ seenScript w) (scripts w ++ [path]))) →
  triple P (pushScript path) Q E.
Proof.
  intros H1 H2 w r w' HP Hrun. unfold pushScript in Hrun.
  destruct (decide (path ∈ seenScript w)); injection Hrun as <- <-; auto.
Qed.

Lemma triple_markVisited (P Q : Walk → Prop) E path :
  (∀ w, P w → Q (mkWalk ({[path]} ∪ walk_visited w) (seenScript w) (scripts w))) →
  triple P (markVisited path) Q E.
Proof. intros H w r w' HP [= <- <-]. by apply H. Qed.

(** The three cases of [visitNode]. *)
Lemma triple_visitNode (P Q : Walk → Prop) E g fuel path :
  (∀ w, P w → path ∈ written (dependencies_ g) → Q w) →
  triple (λ w, P w ∧ (path ∉ written (dependencies_ g)) ∧ path ∈ walk_visited w)
         (pushScript path) Q E →
  triple (λ w, P w ∧ (path ∉ written (dependencies_ g)) ∧ path ∉ walk_visited w)
         (visitFresh g (visitNode g fuel) path) Q E →
  triple P (visitNode g (S fuel) path) Q E.
Proof.
  intros Hwritten Hvisited Hfresh w r w' HP Hrun. cbn [visitNode] in Hrun.
  destruct (decide (path ∈ written (dependencies_ g))) as [Hwr|Hwr].
  { injection Hrun as <- <-. auto. }
  destruct (decide (path ∈ walk_visited w)) as [Hvis|Hvis].
  - by apply (Hvisited w r w').
  - by apply (Hfresh w r w').
Qed.

Lemma triple_visitRequire (P Q : Walk → Prop) E g visit requireName :
  (isProvided_ requireName g = true → ∀ w, P w → Q w) →
  (∀ p, isProvided_ requireName g = false →
        nameToPath (dependencies_ g) !! requireName = Some p →
        triple P (visit p) Q E) →
  (isProvided_ requireName g = false →
   nameToPath (dependencies_ g) !! requireName = None →
   ∀ w, P w → E (UndefinedNameToPath requireName) w) →
  triple P (visitRequire g visit requireName) Q E.
Proof.
  intros Hprov Hvisit Hthrow. unfold visitRequire.
  destruct (isProvided_ requireName g).
  - intros w r w' HP [= <- <-]. by apply Hprov.
  - destruct (nameToPath (dependencies_ g) !! requireName) as [p|].
    + by apply Hvisit.
    + apply triple_throw. by apply Hthrow.
Qed.

(** A property of the walk state that marking and pushing keep is kept by
    [visitNode], whether it returns or throws. *)
Lemma visitNode_preserves (R : Walk → Prop) g :
  (∀ p w, R w → R (mkWalk ({[p]} ∪ walk_visited w) (seenScript w) (scripts w))) →
  (∀ p w, R w → p ∉ seenScript w →
          R (mkWalk (walk_visited w) ({[p]} ∪ seenScript w) (scripts w ++ [p]))) →
  ∀ fuel path, triple R (visitNode g fuel path) R (λ _, R).
Proof.
  intros Hmark Hpush.
  induction fuel as [|fuel IH]; intros path; [by intros w r w' _ ?|].
  apply triple_visitNode.
  - auto.
  - apply triple_pushScript; [by intros w [? _] _|].
    intros w [? _] ?. by apply Hpush.
  - apply (triple_andThen _ R).
    { apply triple_markVisited. intros w [? _]. by apply Hmark. }
    apply (triple_andThen R R); [|apply triple_pushScript; auto].
    apply triple_forIn_simple. intros r _.
    apply triple_visitRequire; auto.
Qed.

Lemma visitNode_extends g fuel path w r w' :
  visitNode g fuel path w = Some (r, w') → extends w w'.
Proof.
  intros Hrun.
  pose proof (visitNode_preserves (extends w) g) as H.
  assert (Hrefl : extends w w) by done.
  specialize (H (λ p w1 Hw1, conj (union_subseteq_r' _ _ _ (proj1 Hw1)) (proj2 Hw1))).
  assert (Hpush : ∀ p w1, extends w w1 → p ∉ seenScript w1 →
            extends w (mkWalk (walk_visited w1) ({[p]} ∪ seenScript w1) (scripts w1 ++ [p]))).
  { intros p w1 [H1 H2] _. split; [done|]. intros q Hq. cbn.
    apply elem_of_app. left. by apply H2. }
  specialize (H Hpush fuel path w r w' Hrefl Hrun). by destruct r.
Qed.

Lemma visitRequire_extends g fuel requireName w r w' :
  visitRequire g (visitNode g fuel) requireName w = Some (r, w') → extends w w'.
Proof.
  unfold visitRequire. destruct (isProvided_ requireName g).
  { by intros [= <- <-]. }
  destruct (nameToPath (dependencies_ g) !! requireName).
  - apply visitNode_extends.
  - by intros [= <- <-].
Qed.

Lemma extends_trans w0 w1 w2 : extends w0 w1 → extends w1 w2 → extends w0 w2.
Proof. intros [H1 H2] [H3 H4]. split; [set_solver|auto]. Qed.

(** ** Termination of the walk *)





Lemma visitIncluded_extends g w r w' :
  visitIncluded g w = Some (r, w') → extends w w'.
Proof.
  intros Hrun.
  assert (H : triple (extends w) (visitIncluded g) (extends w) (λ _, extends w)).
  { apply triple_forIn_simple. intros path _.
    destruct (decide _); [apply triple_skip|].
    intros w1 c w2 Hw1 Hrun2. apply visitNode_extends in Hrun2.
    pose proof (extends_trans _ _ _ Hw1 Hrun2). by destruct c. }
  specialize (H w r w' (conj (reflexivity _) (λ _ H, H)) Hrun). by destruct r.
Qed.


(** ** The invariant of a pass *)

Section invariant.

Variable g : Goog.
(** [deps.visited] at the start of the pass. *)
Variable V0 : gset string.

Lemma before_snoc x y l z : before x y l → before x y (l ++ [z]).
Proof.
  intros (l1 & l2 & l3 & ->). exists l1, l2, (l3 ++ [z]).
  by rewrite <- app_assoc, <- app_comm_cons, <- app_assoc, <- app_comm_cons.
Qed.

Lemma before_last x y l : x ∈ l → before x y (l ++ [y]).
Proof.
  intros (l1 & l2 & ->)%list_elem_of_split. exists l1, l2, [].
  by rewrite <- app_assoc, <- app_comm_cons.
Qed.

Lemma settled_extends w w' r : extends w w' → settled g w r → settled g w' r.
Proof.
  intros [Hv Hs] [Hp|(q & Hq & [Hw|[Hqv Hqs]])]; [by left|right; exists q..].
  - split; [done|]. by left.
  - split; [done|]. right. split; [by apply Hv|by apply Hs].
Qed.

(** Pushing [path] in the branch of [visitNode] for a visited path. *)
Lemma Inv_push_visited K path w :
  Inv g V0 K w → (∀ a, a ∈ K → tc (edge g) a path) →
  path ∉ written (dependencies_ g) → path ∈ walk_visited w →
  path ∉ seenScript w →
  Inv g V0 K (mkWalk (walk_visited w) ({[path]} ∪ seenScript w) (scripts w ++ [path])).
Proof.
  intros [Hnd Hseen Hvis Hscr Hord Hset] Hanc Hwr Hpv Hps.
  assert (Hnot : path ∉ scripts w) by (by rewrite <- Hseen).
  split; cbn.
  - apply NoDup_app. split_and!; [done| |apply NoDup_singleton].
    intros x Hx ->%list_elem_of_singleton. done.
  - intros p. rewrite elem_of_union, elem_of_singleton, elem_of_app,
      list_elem_of_singleton, Hseen. tauto.
  - intros q Hq. destruct (Hvis q Hq) as [?|[?|?]]; [by left| |by right; right].
    right. left. apply elem_of_app. by left.
  - intros q [Hq| ->%list_elem_of_singleton]%elem_of_app; [by apply Hscr|done].
  - intros a b [Ha| ->%list_elem_of_singleton]%elem_of_app Ha0 Hcyc Hab.
    + destruct (Hord a b Ha Ha0 Hcyc Hab) as [?|?]; [by left|right].
      by apply before_snoc.
    + destruct (Hvis path Hpv) as [?|[?|HK]]; [done..|].
      destruct Hcyc. by apply Hanc.
  - intros a l r Ha Ha0 HaK Hl Hr.
    eapply settled_extends; [|by eapply Hset].
    split; [done|]. cbn. intros q Hq. apply elem_of_app. by left.
Qed.

(** The end of a call of [visitNode] on a fresh path: [path] leaves the
    set of pending calls and is pushed unless a cycle has pushed it
    already. *)
Lemma Inv_push_fresh K path w :
  Inv g V0 ({[path]} ∪ K) w →
  path ∉ written (dependencies_ g) → path ∈ walk_visited w →
  (∀ l r, requires (dependencies_ g) !! path = Some l → r ∈ l → settled g w r) →
  (path ∈ seenScript w → Inv g V0 K w)
  ∧ (path ∉ seenScript w →
     Inv g V0 K (mkWalk (walk_visited w) ({[path]} ∪ seenScript w) (scripts w ++ [path]))).
Proof.
  intros [Hnd Hseen Hvis Hscr Hord Hset] Hwr Hpv Hreq. split; intros Hps.
  - apply Hseen in Hps. split; try done.
    + intros q Hq. destruct (Hvis q Hq) as [?|[?|HK]]; [by left|by right; left|].
      apply elem_of_union in HK as [->%elem_of_singleton|?];
        [by right; left|by right; right].
    + intros a l r Ha Ha0 HaK Hl Hr.
      destruct (decide (a = path)) as [->|Hne]; [by eapply Hreq|].
      eapply Hset; try done. set_solver.
  - assert (Hnot : path ∉ scripts w) by (by rewrite <- Hseen).
    split; cbn.
    + apply NoDup_app. split_and!; [done| |apply NoDup_singleton].
      intros x Hx ->%list_elem_of_singleton. done.
    + intros p. rewrite elem_of_union, elem_of_singleton, elem_of_app,
        list_elem_of_singleton, Hseen. tauto.
    + intros q Hq. rewrite elem_of_app, list_elem_of_singleton.
      destruct (Hvis q Hq) as [?|[?|HK]]; [by left|by right; left; left|].
      apply elem_of_union in HK as [->%elem_of_singleton|?];
        [by right; left; right|by right; right].
    + intros q [Hq| ->%list_elem_of_singleton]%elem_of_app; [by apply Hscr|done].
    + intros a b [Ha| ->%list_elem_of_singleton]%elem_of_app Ha0 Hcyc Hab.
      * destruct (Hord a b Ha Ha0 Hcyc Hab) as [?|?]; [by left|right].
        by apply before_snoc.
      * destruct Hab as (l & r & Hl & Hr & Hprov & Hown).
        destruct (Hreq l r Hl Hr) as [Hp|(q & Hq & Hq')]; [congruence|].
        assert (q = b) as -> by congruence.
        destruct Hq' as [?|[_ Hbs]]; [by left|right].
        by apply before_last.
    + intros a l r Ha Ha0 HaK Hl Hr.
      assert (Hext : extends w (mkWalk (walk_visited w) ({[path]} ∪ seenScript w)
                                       (scripts w ++ [path]))).
      { split; [done|]. cbn. intros q Hq. apply elem_of_app. by left. }
      eapply settled_extends; [exact Hext|].
      destruct (decide (a = path)) as [->|Hne]; [by eapply Hreq|].
      eapply Hset; try done. set_solver.
Qed.

Lemma Inv_mark K path w :
  Inv g V0 K w → path ∉ walk_visited w →
  Inv g V0 ({[path]} ∪ K) (mkWalk ({[path]} ∪ walk_visited w) (seenScript w) (scripts w)).
Proof.
  intros [Hnd Hseen Hvis Hscr Hord Hset] Hpv. split; cbn; try done.
  - intros q [->%elem_of_singleton|Hq]%elem_of_union.
    + right. right. set_solver.
    + destruct (Hvis q Hq) as [?|[?|?]]; [by left|by right; left|].
      right. right. set_solver.
  - intros q Hq. destruct (Hscr q Hq). split; [set_solver|done].
  - intros a l r [->%elem_of_singleton|Ha]%elem_of_union Ha0 HaK Hl Hr; [set_solver|].
    eapply settled_extends; [|eapply (Hset a); try done; set_solver].
    split; [cbn; set_solver|done].
Qed.

End invariant.

Lemma reached_extends g w w' path :
  extends w w' → reached g w path → reached g w' path.
Proof. intros [Hv Hs] [?|[? ?]]; [by left|right]. split; [by apply Hv|by apply Hs]. Qed.

(** A call of [visitNode] that returns keeps the invariant and has dealt
    with its path. [K] are the paths of the pending calls around it, each
    of which goes to [path] by requirements. *)
Lemma visitNode_Inv g V0 fuel path K :
  (∀ a, a ∈ K → tc (edge g) a path) →
  triple (Inv g V0 K) (visitNode g fuel path)
         (λ w, Inv g V0 K w ∧ reached g w path) (λ _ _, True).
Proof.
  revert path K. induction fuel as [|fuel IH]; intros path K Hanc;
    [by intros w r w' _ ?|].
  apply triple_visitNode.
  - intros w HI Hw. split; [done|by left].
  - apply triple_pushScript.
    + intros w (HI & Hwr & Hv) Hs. split; [done|]. right. split; [done|].
      by apply (inv_seen _ _ _ _ HI).
    + intros w (HI & Hwr & Hv) Hs. split; [by apply Inv_push_visited|].
      right. split; [done|]. cbn. apply elem_of_app. right.
      by apply list_elem_of_singleton.
  - set (keys := default [] (requires (dependencies_ g) !! path)).
    set (L := λ (pre : list string) (w : Walk),
                Inv g V0 ({[path]} ∪ K) w ∧ path ∈ walk_visited w
                ∧ (path ∉ written (dependencies_ g))
                ∧ ∀ r, r ∈ pre → settled g w r).
    unfold visitFresh. fold keys.
    apply (triple_andThen _ (L [])).
    { apply triple_markVisited. intros w (HI & Hwr & Hv). split_and!.
      - by apply Inv_mark.
      - cbn. set_solver.
      - done.
      - intros r Hr. by apply elem_of_nil in Hr. }
    apply (triple_andThen _ (L keys)).
    + apply (triple_forIn L). intros pre r post Hkeys w c w' HL Hrun.
      destruct HL as (HI & Hpv & Hwr & Hpre).
      pose proof (visitRequire_extends _ _ _ _ _ _ Hrun) as Hext.
      destruct c as [[]|e]; [|done].
      assert (Hrest : Inv g V0 ({[path]} ∪ K) w' ∧ settled g w' r).
      { unfold visitRequire in Hrun.
        destruct (isProvided_ r g) eqn:Hprov.
        { injection Hrun as <-. split; [done|by left]. }
        destruct (nameToPath (dependencies_ g) !! r) as [q|] eqn:Hq; [|done].
        assert (Hedge : edge g path q).
        { destruct (requires (dependencies_ g) !! path) as [l|] eqn:Hl.
          - exists l, r. split_and!; try done.
            subst keys. cbn in Hkeys. rewrite Hkeys.
            apply elem_of_app. right. apply elem_of_cons. by left.
          - subst keys. cbn in Hkeys. by destruct pre. }
        assert (Hanc' : ∀ a, a ∈ {[path]} ∪ K → tc (edge g) a q).
        { intros a [->%elem_of_singleton|Ha]%elem_of_union.
          - by apply tc_once.
          - eapply tc_r; [by apply Hanc|done]. }
        destruct (IH q _ Hanc' w (Normal tt) w' HI Hrun) as [HI' Hreached].
        split; [done|]. right. by exists q. }
      destruct Hrest as [HI' Hr]. split_and!; try done.
      * by apply (proj1 Hext).
      * intros r' [Hr'| ->%list_elem_of_singleton]%elem_of_app; [|done].
        eapply settled_extends; [done|by apply Hpre].
    + apply triple_pushScript.
      * intros w (HI & Hpv & Hwr & Hreq) Hs.
        assert (Hreq' : ∀ l r, requires (dependencies_ g) !! path = Some l →
                               r ∈ l → settled g w r).
        { intros l r Hl Hr. apply Hreq. subst keys. by rewrite Hl. }
        destruct (Inv_push_fresh g V0 K path w HI Hwr Hpv Hreq') as [H1 _].
        split; [by apply H1|]. right. split; [done|].
        by apply (inv_seen _ _ _ _ HI).
      * intros w (HI & Hpv & Hwr & Hreq) Hs.
        assert (Hreq' : ∀ l r, requires (dependencies_ g) !! path = Some l →
                               r ∈ l → settled g w r).
        { intros l r Hl Hr. apply Hreq. subst keys. by rewrite Hl. }
        destruct (Inv_push_fresh g V0 K path w HI Hwr Hpv Hreq') as [_ H2].
        split; [by apply H2|]. right. split; [done|]. cbn.
        apply elem_of_app. right. by apply list_elem_of_singleton.
Qed.

Lemma Inv_initial g V0 : Inv g V0 ∅ (mkWalk V0 ∅ []).
Proof.
  split; cbn.
  - apply NoDup_nil_2.
  - intros p. split; [intros Hp; by apply not_elem_of_empty in Hp|].
    intros Hp. by apply elem_of_nil in Hp.
  - intros q Hq. by left.
  - intros q Hq. by apply elem_of_nil in Hq.
  - intros a b Ha. by apply elem_of_nil in Ha.
  - intros a l r Ha Ha0. done.
Qed.

(** The first loop of [goog.writeScripts_] that returns keeps the
    invariant and has dealt with every included path. *)
Lemma visitIncluded_Inv g V0 :
  triple (Inv g V0 ∅) (visitIncluded g)
         (λ w, Inv g V0 ∅ w ∧ ∀ path, path ∈ included_ g → reached g w path)
         (λ _ _, True).
Proof.
  set (L := λ (pre : list string) (w : Walk),
              Inv g V0 ∅ w ∧ ∀ path, path ∈ pre → reached g w path).
  apply (triple_conseq (L []) _ (L (included_ g)) _ (λ _ _, True)); try done.
  { intros w HI. split; [done|]. intros p Hp. by apply elem_of_nil in Hp. }
  apply (triple_forIn L). intros pre path post Hkeys w c w' [HI Hpre] Hrun.
  destruct c as [[]|e]; [|done].
  destruct (decide (path ∈ written (dependencies_ g))) as [Hwr|Hwr].
  - injection Hrun as <-. split; [done|].
    intros p [Hp| ->%list_elem_of_singleton]%elem_of_app; [by apply Hpre|by left].
  - pose proof (visitNode_extends _ _ _ _ _ _ Hrun) as Hext.
    assert (Hanc : ∀ a, a ∈ (∅ : gset string) → tc (edge g) a path)
      by (intros a Ha; by apply not_elem_of_empty in Ha).
    destruct (visitNode_Inv g V0 _ path ∅ Hanc w (Normal tt) w' HI Hrun) as [HI' Hr].
    split; [done|].
    intros p [Hp| ->%list_elem_of_singleton]%elem_of_app; [|done].
    eapply reached_extends; [done|by apply Hpre].
Qed.

(** ** Errors of a walk *)

(** The only error of [visitNode] is the one for a required name that is
    neither provided nor owned. *)
Lemma visitNode_throws g fuel path (X : gset string) :
  triple (λ w, X ⊆ walk_visited w) (visitNode g fuel path)
         (λ w, X ⊆ walk_visited w)
         (λ e w, throwsUnresolved g e w).
Proof.
  revert path X. induction fuel as [|fuel IH]; intros path X;
    [by intros w r w' _ ?|].
  apply triple_visitNode.
  - done.
  - apply triple_pushScript; by intros w (? & _).
  - apply (triple_andThen _ (λ w, {[path]} ∪ X ⊆ walk_visited w)).
    { apply triple_markVisited. intros w (HX & _). cbn. set_solver. }
    apply (triple_andThen _ (λ w, {[path]} ∪ X ⊆ walk_visited w)).
    + destruct (requires (dependencies_ g) !! path) as [l|] eqn:Hl;
        [|apply triple_skip].
      apply triple_forIn_simple. intros r Hr.
      apply triple_visitRequire; [done|intros; apply IH|].
      intros Hprov Hown w HX. exists r. split; [done|].
      split_and!; [done..|]. exists path, l. split_and!; [set_solver|done..].
    + apply triple_pushScript; intros w HX; cbn; set_solver.
Qed.

Lemma visitIncluded_throws g w e w' :
  visitIncluded g w = Some (Throw e, w') → throwsUnresolved g e w'.
Proof.
  intros Hrun.
  assert (H : triple (λ w, (∅ : gset string) ⊆ walk_visited w) (visitIncluded g)
                     (λ w, (∅ : gset string) ⊆ walk_visited w)
                     (λ e w, throwsUnresolved g e w)).
  { apply triple_forIn_simple. intros path _.
    destruct (decide _); [apply triple_skip|]. apply visitNode_throws. }
  apply (H w (Throw e) w'); [|done]. apply empty_subseteq.
Qed.

(** ** Cycles of requirements *)









(** ** Import requests *)

Lemma onlyImports_refl g : onlyImports g g.
Proof. by repeat split. Qed.

Lemma onlyImports_trans g1 g2 g3 :
  onlyImports g1 g2 → onlyImports g2 g3 → onlyImports g1 g3.
Proof.
  intros (?&?&?&?&?&?&?&?) (?&?&?&?&?&?&?&?).
  repeat split; congruence.
Qed.

Lemma set_same_eta g :
  set_dependencies_ (set_visited (visited (dependencies_ g)) (dependencies_ g)) g = g.
Proof. by destruct g as [? ? ? [] ? ?]. Qed.

Lemma set_included__eta g : set_included_ (included_ g) g = g.
Proof. by destruct g. Qed.

Section imports.

Variable importScript : list string → string → bool.

Lemma importScript__cases src g :
  (src ∈ written (dependencies_ g) ∧ importScript_ importScript src g = g)
  ∨ ((src ∉ written (dependencies_ g))
     ∧ onlyImports g (importScript_ importScript src g)
     ∧ imports (importScript_ importScript src g) = imports g ++ [src]
     ∧ written (dependencies_ (importScript_ importScript src g))
       = (if importScript (imports g) src then {[src]} ∪ written (dependencies_ g)
          else written (dependencies_ g))).
Proof.
  unfold importScript_.
  destruct (decide (src ∈ written (dependencies_ g))) as [Hin|Hin]; [by left|].
  right. split; [done|]. destruct (importScript (imports g) src); by repeat split.
Qed.

Lemma importScript__importedOnce src g :
  importedOnce importScript g → importedOnce importScript (importScript_ importScript src g).
Proof.
  intros Hlog.
  destruct (importScript__cases src g) as [[_ ->]|(Hnew & _ & Himp & Hwr)]; [done|].
  intros h1 s h2 Hsplit Hok. rewrite Himp in Hsplit. rewrite Hwr.
  destruct h2 as [|x h2 _] using rev_ind.
  - apply (app_inj_tail (imports g) h1 src s) in Hsplit as [-> ->].
    rewrite Hok. split; [set_solver|apply not_elem_of_nil].
  - rewrite app_comm_cons, app_assoc in Hsplit.
    apply app_inj_tail in Hsplit as [Hsplit ->].
    destruct (Hlog h1 s h2 Hsplit Hok) as [Hs Hs2].
    split; [destruct (importScript (imports g) x); set_solver|].
    rewrite elem_of_app, list_elem_of_singleton. intros [?|Heq]; [done|].
    subst x. done.
Qed.

(** What the second loop of [goog.writeScripts_] does to the state. *)
Lemma importScripts_spec scripts g c g' :
  importScripts importScript scripts g = (c, g') →
  onlyImports g g'
  ∧ written (dependencies_ g) ⊆ written (dependencies_ g')
  ∧ (importedOnce importScript g → importedOnce importScript g')
  ∧ ∃ new, requested g g' new
           ∧ (∀ src, src ∈ new → src ∉ written (dependencies_ g))
           ∧ (c = Normal tt →
              ∀ s, s ∈ scripts →
                   Str.truthy s = true
                   ∧ (String.append (basePath g) s ∈ written (dependencies_ g)
                      ∨ String.append (basePath g) s ∈ new)).
Proof.
  revert g. induction scripts as [|script rest IH]; intros g Hrun; cbn in Hrun.
  { injection Hrun as <- <-. split_and!; [apply onlyImports_refl|done..|].
    exists []. split_and!.
    - unfold requested. by rewrite app_nil_r.
    - intros src Hsrc. by apply elem_of_nil in Hsrc.
    - intros _ s Hs. by apply elem_of_nil in Hs. }
  destruct (Str.truthy script) eqn:Htruthy.
  2:{ injection Hrun as <- <-. split_and!; [apply onlyImports_refl|done..|].
      exists []. split_and!.
      - unfold requested. by rewrite app_nil_r.
      - intros src Hsrc. by apply elem_of_nil in Hsrc.
      - done. }
  destruct (IH _ Hrun) as (Honly & Hsub & Hlog & new1 & Hreq & Hnew & Hnormal).
  set (src := String.append (basePath g) script) in *.
  pose proof (importScript__importedOnce src g) as Hlog0.
  destruct (importScript__cases src g) as [[Hin Heq]|(Hnotin & Honly0 & Himp & Hwr)].
  - rewrite Heq in *. split_and!; [done..|auto|].
    exists new1. split_and!; [done..|].
    intros Hc s [->|Hs]%elem_of_cons; [split; [done|by left]|by apply Hnormal].
  - assert (Hsub0 : written (dependencies_ g)
                    ⊆ written (dependencies_ (importScript_ importScript src g))).
    { rewrite Hwr. destruct (importScript (imports g) src); set_solver. }
    split_and!; [by eapply onlyImports_trans|set_solver|auto|].
    exists (src :: new1). split_and!.
    + unfold requested in *. rewrite Hreq, Himp. by rewrite <- app_assoc.
    + intros s [->|Hs]%elem_of_cons; [done|]. apply Hnew in Hs. set_solver.
    + intros Hc s [->|Hs]%elem_of_cons.
      * split; [done|]. right. apply elem_of_cons. by left.
      * destruct (Hnormal Hc s Hs) as [Ht Hs'].
        split; [done|].
        destruct Honly0 as (_ & _ & _ & Hbase & _). rewrite Hbase in Hs'.
        destruct Hs' as [Hs'|Hs']; [|right; apply elem_of_cons; by right].
        rewrite Hwr in Hs'.
        destruct (importScript (imports g) src); [|by left].
        apply elem_of_union in Hs' as [->%elem_of_singleton|?]; [|by left].
        right. apply elem_of_cons. by left.
Qed.

(** A script whose source is written is not requested again. *)
Lemma importScripts_written scripts g :
  (∀ s, s ∈ scripts →
        Str.truthy s = true
        ∧ String.append (basePath g) s ∈ written (dependencies_ g)) →
  importScripts importScript scripts g = (Normal tt, g).
Proof.
  induction scripts as [|script rest IH]; intros Hall; [done|].
  cbn. destruct (Hall script) as [-> Hin]; [apply elem_of_cons; by left|].
  unfold importScript_. rewrite decide_True by done.
  apply IH. intros s Hs. apply Hall. apply elem_of_cons. by right.
Qed.

(** What [goog.writeScripts_] does to the state. *)
Lemma writeScripts__spec g c g' :
  writeScripts_ importScript g = Some (c, g') →
  ∃ cw w,
    visitIncluded g (startWalk g) = Some (cw, w)
    ∧ visited (dependencies_ g') = walk_visited w
    ∧ global g' = global g
    ∧ implicitNamespaces_ g' = implicitNamespaces_ g
    ∧ included_ g' = included_ g
    ∧ basePath g' = basePath g
    ∧ nameToPath (dependencies_ g') = nameToPath (dependencies_ g)
    ∧ requires (dependencies_ g') = requires (dependencies_ g)
    ∧ written (dependencies_ g) ⊆ written (dependencies_ g')
    ∧ (importedOnce importScript g → importedOnce importScript g')
    ∧ match cw with
      | Throw e => c = Throw e ∧ imports g' = imports g
                   ∧ written (dependencies_ g') = written (dependencies_ g)
      | Normal _ =>
          ∃ new, requested g g' new
                 ∧ (∀ src, src ∈ new → src ∉ written (dependencies_ g))
                 ∧ (c = Normal tt →
                    ∀ s, s ∈ scripts w →
                         Str.truthy s = true
                         ∧ (String.append (basePath g) s ∈ written (dependencies_ g)
                            ∨ String.append (basePath g) s ∈ new))
      end.
Proof.
  unfold writeScripts_.
  destruct (visitIncluded g (startWalk g)) as [[[[]|e] w]|] eqn:Hwalk; [| |done].
  - intros Hrun. exists (Normal tt), w.
    destruct (importScripts importScript (scripts w) _) as [c' g''] eqn:Himp.
    injection Hrun as -> ->.
    apply importScripts_spec in Himp
      as ((?&?&?&?&?&?&?&?) & Hsub & Hlog & new & Hreq & Hnew & Hnormal).
    cbn in *. split_and!; try done. by exists new.
  - intros [= <- <-]. exists (Throw e), w. by split_and!.
Qed.

End imports.


Lemma isProvided__ext name g g' :
  global g' = global g → implicitNamespaces_ g' = implicitNamespaces_ g →
  isProvided_ name g' = isProvided_ name g.
Proof. intros H1 H2. unfold isProvided_. by rewrite H1, H2. Qed.

(** ** Unresolved requirements *)




(** ** A second pass *)

Lemma elem_of_insert_index n key keys x :
  x ∈ insert_index n key keys ↔ x = key ∨ x ∈ keys.
Proof.
  induction keys as [|k rest IH]; cbn [insert_index].
  - rewrite list_elem_of_singleton, elem_of_nil. naive_solver.
  - destruct (arrayIndex k) as [m|]; [|by rewrite (elem_of_cons (k :: rest))].
    destruct (m <? n)%N; [|by rewrite (elem_of_cons (k :: rest))].
    rewrite !elem_of_cons, IH. naive_solver.
Qed.

Lemma elem_of_insert_key key keys x :
  x ∈ insert_key key keys ↔ x = key ∨ x ∈ keys.
Proof.
  unfold insert_key. destruct (decide (key ∈ keys)); [naive_solver|].
  destruct (arrayIndex key).
  - apply elem_of_insert_index.
  - rewrite elem_of_app, list_elem_of_singleton. naive_solver.
Qed.

Lemma insert_key_elem key keys : key ∈ insert_key key keys.
Proof. apply elem_of_insert_key. by left. Qed.

Lemma insert_key_id key keys : key ∈ keys → insert_key key keys = keys.
Proof. intros H. unfold insert_key. by rewrite decide_True. Qed.

(** When every included path is written or marked visited, the walk of a
    pass marks nothing and its output has only included paths that are
    not written. *)
Lemma visitIncluded_marked g keys w :
  (∀ p, p ∈ keys → p ∈ written (dependencies_ g) ∨ p ∈ walk_visited w) →
  ∃ w', forIn keys
          (λ path, if decide (path ∈ written (dependencies_ g)) then skip
                   else visitNode g (walkFuel g) path) w
        = Some (Normal tt, w')
        ∧ walk_visited w' = walk_visited w
        ∧ ∀ s, s ∈ scripts w' →
               s ∈ scripts w ∨ (s ∈ keys ∧ s ∉ written (dependencies_ g)).
Proof.
  revert w. induction keys as [|key keys IH]; intros w Hall.
  { exists w. split_and!; [done..|]. intros s Hs. by left. }
  cbn [forIn]. unfold andThen.
  assert (Hkeys : ∀ w1, walk_visited w1 = walk_visited w →
                        ∀ p, p ∈ keys →
                             p ∈ written (dependencies_ g) ∨ p ∈ walk_visited w1).
  { intros w1 -> p Hp. apply Hall. apply elem_of_cons. by right. }
  destruct (decide (key ∈ written (dependencies_ g))) as [Hwr|Hwr].
  - destruct (IH w (Hkeys w eq_refl)) as (w' & Hrun & Hv & Hs).
    exists w'. split_and!; [done..|].
    intros s Hs'. destruct (Hs s Hs') as [?|[? ?]]; [by left|right].
    split; [apply elem_of_cons; by right|done].
  - assert (Hvis : key ∈ walk_visited w).
    { destruct (Hall key) as [?|?]; [apply elem_of_cons; by left|done..]. }
    unfold walkFuel. cbn [visitNode].
    rewrite decide_False by done. rewrite decide_True by done.
    unfold pushScript. destruct (decide (key ∈ seenScript w)) as [Hseen|Hseen].
    + destruct (IH w (Hkeys w eq_refl)) as (w' & Hrun & Hv & Hs).
      exists w'. split_and!; [done..|].
      intros s Hs'. destruct (Hs s Hs') as [?|[? ?]]; [by left|right].
      split; [apply elem_of_cons; by right|done].
    + destruct (IH (mkWalk (walk_visited w) ({[key]} ∪ seenScript w)
                           (scripts w ++ [key])) (Hkeys _ eq_refl))
        as (w' & Hrun & Hv & Hs).
      exists w'. split_and!; [done..|].
      intros s Hs'. destruct (Hs s Hs') as [Hs''|[? ?]].
      * cbn in Hs''. apply elem_of_app in Hs'' as [?| ->%list_elem_of_singleton];
          [by left|right].
        split; [apply elem_of_cons; by left|done].
      * right. split; [apply elem_of_cons; by right|done].
Qed.

Lemma forIn_all_written g keys (visit : string → Visit) w :
  (∀ p, p ∈ keys → p ∈ written (dependencies_ g)) →
  forIn keys (λ path, if decide (path ∈ written (dependencies_ g)) then skip
                      else visit path) w
  = Some (Normal tt, w).
Proof.
  induction keys as [|key keys IH]; intros Hall; [done|].
  cbn [forIn]. unfold andThen.
  rewrite decide_True by (apply Hall, elem_of_cons; by left). cbn.
  apply IH. intros p Hp. apply Hall, elem_of_cons. by right.
Qed.

(** C8. From a state in which every successful import is recorded in
    [deps.written], a completed [goog.require(name)] leaves such a state,
    and none of the sources it hands to the import capability was written
    before (so that no injected source is handed over twice, in this pass
    or in a later one). When the request returns and every source it
    handed over was imported successfully, a second [goog.require(name)]
    returns with the state unchanged: it hands nothing to the import
    capability; with the empty [goog.basePath] the output [scripts] of its
    pass is empty as well. *)
Theorem require_idempotent (importScript : list string → string → bool)
    (name : string) (g : Goog) (c : completion unit) (g1 : Goog) :
  importedOnce importScript g →
  require importScript name g = Some (c, g1) →
  importedOnce importScript g1
  ∧ (∃ new, requested g g1 new
            ∧ ∀ src, src ∈ new → src ∉ written (dependencies_ g))
  ∧ (c = Normal tt →
     (∀ new, requested g g1 new →
             ∀ src, src ∈ new → src ∈ written (dependencies_ g1)) →
     require importScript name g1 = Some (Normal tt, g1)
     ∧ (isProvided_ name g = false → basePath g = EmptyString →
        passScripts g1 = Some (Normal tt, []))).
Proof.
  intros Hlog Hrun.
  assert (Hnone : ∃ new, requested g g new
                         ∧ ∀ src, src ∈ new → src ∉ written (dependencies_ g)).
  { exists []. split; [unfold requested; by rewrite app_nil_r|].
    intros src Hsrc. by apply elem_of_nil in Hsrc. }
  unfold require in Hrun.
  destruct (isProvided_ name g) eqn:Hprov.
  { injection Hrun as <- <-. split_and!; [done..|].
    intros _ _. split; [|done]. unfold require. by rewrite Hprov. }
  destruct (getPathFromDeps_ name g) as [path|] eqn:Hpath.
  2:{ injection Hrun as <- <-. split_and!; [done..|]. done. }
  destruct (Str.truthy path) eqn:Htruthy.
  2:{ injection Hrun as <- <-. split_and!; [done..|]. done. }
  set (gi := set_included_ (insert_key path (included_ g)) g) in *.
  destruct (writeScripts__spec _ _ _ _ Hrun)
    as (cw & w & Hwalk & Hvis & Hglob & Himpl & Hincl & Hbase & Hn2p & Hreqs
        & Hsub & Hlog' & Hcw).
  split_and!.
  - by apply Hlog'.
  - destruct cw as [[]|e].
    + destruct Hcw as (new & Hreq & Hnew & _). by exists new.
    + destruct Hcw as (_ & Himp & _). exists []. split.
      * unfold requested. by rewrite Himp, app_nil_r.
      * intros src Hsrc. by apply elem_of_nil in Hsrc.
  - intros -> Hok. destruct cw as [[]|e]; [|by destruct Hcw].
    destruct Hcw as (new & Hreq & Hnew & Hscripts).
    specialize (Hscripts eq_refl). specialize (Hok new Hreq).
    destruct (visitIncluded_Inv gi (visited (dependencies_ gi)) (startWalk gi)
                (Normal tt) w (Inv_initial _ _) Hwalk) as [HI Hreached].
    assert (Hdone : ∀ s, s ∈ included_ g1 →
                         s ∈ written (dependencies_ g1)
                         ∨ (s ∈ walk_visited w ∧ Str.truthy s = true
                            ∧ String.append (basePath g1) s
                              ∈ written (dependencies_ g1))).
    { intros s Hs. rewrite Hincl in Hs.
      destruct (Hreached s Hs) as [Hw|[Hv Hsc]]; [left; by apply Hsub|right].
      destruct (Hscripts s Hsc) as [Ht Hsrc]. split_and!; [done..|].
      rewrite Hbase. destruct Hsrc as [Hsrc|Hsrc]; [by apply Hsub|by apply Hok]. }
    split.
    2:{ intros _ Hempty. unfold passScripts, visitIncluded.
        rewrite forIn_all_written; [done|].
        intros p Hp. destruct (Hdone p Hp) as [?|(_ & _ & Hsrc)]; [done|].
        rewrite Hbase in Hsrc. change (basePath gi) with (basePath g) in Hsrc.
        by rewrite Hempty in Hsrc. }
    unfold require. rewrite (isProvided__ext name g g1 Hglob Himpl), Hprov.
    unfold getPathFromDeps_ in *. rewrite Hn2p.
    change (dependencies_ gi) with (dependencies_ g). rewrite Hpath, Htruthy.
    rewrite Hincl. change (included_ gi) with (insert_key path (included_ g)).
    rewrite insert_key_id by apply insert_key_elem.
    change (insert_key path (included_ g)) with (included_ gi).
    rewrite <- Hincl, set_included__eta.
    unfold writeScripts_, visitIncluded.
    destruct (visitIncluded_marked g1 (included_ g1) (startWalk g1))
      as (w2 & -> & Hv2 & Hs2).
    { intros p Hp. destruct (Hdone p Hp) as [?|(Hv & _)]; [by left|right].
      cbn. by rewrite Hvis. }
    cbn in Hv2. rewrite Hv2, set_same_eta. f_equal.
    apply importScripts_written.
    intros s Hs. destruct (Hs2 s Hs) as [Hs'|[Hs' Hsw]];
      [by apply elem_of_nil in Hs'|].
    destruct (Hdone s Hs') as [?|(_ & ? & ?)]; done.
Qed.

(** With a base path the keys of [deps.written] are the sources, not the
    paths that [visitNode] tests: the walk of the second pass still puts
    [a.js] in [scripts], and [goog.importScript_] is what keeps it from
    being requested again. *)
Lemma second_pass_with_basePath :
  imports (afterRequire (λ _ _, true) "a" libChainIndex) = ["lib/b.js"; "lib/a.js"]
  ∧ passScripts (afterRequire (λ _ _, true) "a" libChainIndex)
    = Some (Normal tt, ["a.js"])
  ∧ imports (requireAll (λ _ _, true) ["a"; "a"] libChainIndex)
    = ["lib/b.js"; "lib/a.js"].
Proof. split_and!; vm_compute; reflexivity. Qed.

Lemma importedOnce_initial importScript glob base :
  importedOnce importScript (initial glob base).
Proof. intros h1 src h2 H. by destruct h1. Qed.

Lemma importedOnce_addDependency importScript relPath provides requires_ g :
  importedOnce importScript g →
  importedOnce importScript (addDependency relPath provides requires_ g).
Proof.
  assert (Hp : ∀ path names d,
            written (foldl (addProvide path) d names) = written d).
  { intros path names. induction names as [|n names IH]; intros d; [done|].
    cbn. by rewrite IH. }
  assert (Hr : ∀ path names d,
            written (foldl (addRequire path) d names) = written d).
  { intros path names. induction names as [|n names IH]; intros d; [done|].
    cbn. by rewrite IH. }
  intros Hlog h1 src h2 Himp Hok. unfold addDependency in *. cbn in *.
  rewrite Hr, Hp. by apply (Hlog h1 src h2).
Qed.

Lemma require_idempotent_witness :
  require (λ _ _, true) "a" (afterRequire (λ _ _, true) "a" chainIndex)
  = Some (Normal tt, afterRequire (λ _ _, true) "a" chainIndex).
Proof.
  refine (proj1 (proj2 (proj2 (require_idempotent (λ _ _, true) "a" chainIndex
                                 (Normal tt)
                                 (afterRequire (λ _ _, true) "a" chainIndex) _ _))
                       eq_refl _)).
  - repeat apply importedOnce_addDependency. apply importedOnce_initial.
  - vm_compute. reflexivity.
  - intros new Hnew src Hsrc.
    assert (Himp : imports (afterRequire (λ _ _, true) "a" chainIndex)
                   = ["b.js"; "a.js"]) by (vm_compute; reflexivity).
    unfold requested in Hnew. rewrite Himp in Hnew. cbn in Hnew. subst new.
    assert (written (dependencies_ (afterRequire (λ _ _, true) "a" chainIndex))
            = {["b.js"; "a.js"]}) as -> by (vm_compute; reflexivity).
    set_solver.
Defined.

(** ** What a pass leaves behind *)

Lemma require_grows importScript name g c g' :
  require importScript name g = Some (c, g') →
  visited (dependencies_ g) ⊆ visited (dependencies_ g')
  ∧ written (dependencies_ g) ⊆ written (dependencies_ g').
Proof.
  unfold require. destruct (isProvided_ name g); [by intros [= <- <-]|].
  destruct (getPathFromDeps_ name g) as [path|]; [|by intros [= <- <-]].
  destruct (Str.truthy path); [|by intros [= <- <-]].
  intros Hrun.
  destruct (writeScripts__spec _ _ _ _ Hrun)
    as (cw & w & Hwalk & Hvis & _ & _ & _ & _ & _ & _ & Hsub & _).
  split; [|done]. rewrite Hvis.
  apply visitIncluded_extends in Hwalk as [Hv _]. done.
Qed.

Lemma visitNode_marked g fuel path w :
  path ∉ written (dependencies_ g) → path ∈ walk_visited w →
  visitNode g (S fuel) path w = pushScript path w.
Proof.
  intros Hw Hv. cbn [visitNode].
  rewrite decide_False by done. by rewrite decide_True by done.
Qed.

(** C9, as the code has it. Over any sequence of requests [deps.visited]
    and [deps.written] only grow: the visited marks are kept from pass to
    pass like the written ones. Only [seenScript] and [scripts] start
    empty in every pass. A path that starts a pass marked visited and not
    written is pushed at once by [visitNode], which neither marks anything
    nor walks the requirements of the path. *)
Theorem visited_persists (importScript : list string → string → bool)
    (names : list string) (g : Goog) :
  visited (dependencies_ g)
    ⊆ visited (dependencies_ (requireAll importScript names g))
  ∧ written (dependencies_ g)
      ⊆ written (dependencies_ (requireAll importScript names g))
  ∧ seenScript (startWalk (requireAll importScript names g)) = ∅
  ∧ scripts (startWalk (requireAll importScript names g)) = []
  ∧ ∀ path fuel,
      path ∈ visited (dependencies_ (requireAll importScript names g)) →
      path ∉ written (dependencies_ (requireAll importScript names g)) →
      ∃ w, visitNode (requireAll importScript names g) (S fuel) path
             (startWalk (requireAll importScript names g))
           = Some (Normal tt, w)
           ∧ scripts w = [path]
           ∧ walk_visited w
             = visited (dependencies_ (requireAll importScript names g)).
Proof.
  split_and!; [| |done|done|].
  - revert g. induction names as [|name names IH]; intros g; [done|].
    cbn [requireAll]. etrans; [|apply IH].
    unfold afterRequire.
    destruct (require importScript name g) as [[c g']|] eqn:Hrun; [|done].
    by apply require_grows in Hrun as [? _].
  - revert g. induction names as [|name names IH]; intros g; [done|].
    cbn [requireAll]. etrans; [|apply IH].
    unfold afterRequire.
    destruct (require importScript name g) as [[c g']|] eqn:Hrun; [|done].
    by apply require_grows in Hrun as [_ ?].
  - intros path fuel Hv Hw. rewrite visitNode_marked by done.
    unfold pushScript, startWalk. cbn.
    rewrite decide_False by apply not_elem_of_empty. by eexists.
Qed.

Lemma visited_persists_witness :
  ∃ w, visitNode (requireAll (λ _ _, false) ["a"] chainIndex) 1 "b.js"
         (startWalk (requireAll (λ _ _, false) ["a"] chainIndex))
       = Some (Normal tt, w)
       ∧ scripts w = ["b.js"]
       ∧ walk_visited w
         = visited (dependencies_ (requireAll (λ _ _, false) ["a"] chainIndex)).
Proof.
  refine (proj2 (proj2 (proj2 (proj2
            (visited_persists (λ _ _, false) ["a"] chainIndex)))) "b.js" 0 _ _).
  - assert (visited (dependencies_ (requireAll (λ _ _, false) ["a"] chainIndex))
            = {["a.js"; "b.js"]}) as -> by (vm_compute; reflexivity).
    set_solver.
  - assert (written (dependencies_ (requireAll (λ _ _, false) ["a"] chainIndex))
            = ∅) as -> by (vm_compute; reflexivity).
    apply not_elem_of_empty.
Defined.

(** C9 fails as stated: after a request for [a] whose imports failed,
    [b.js] is not written and yet starts the next pass marked visited; the
    output of that pass is [a.js] alone, where a pass from the same state
    with the marks removed has [b.js] and then [a.js]. *)
Lemma visited_not_discarded :
  "b.js" ∈ visited (dependencies_ (afterRequire (λ _ _, false) "a" chainIndex))
  ∧ ("b.js" ∉ written (dependencies_ (afterRequire (λ _ _, false) "a" chainIndex)))
  ∧ passScripts (afterRequire (λ _ _, false) "a" chainIndex)
    = Some (Normal tt, ["a.js"])
  ∧ passScripts
      (set_dependencies_
         (set_visited ∅ (dependencies_ (afterRequire (λ _ _, false) "a" chainIndex)))
         (afterRequire (λ _ _, false) "a" chainIndex))
    = Some (Normal tt, ["b.js"; "a.js"]).
Proof.
  assert (Hv : visited (dependencies_ (afterRequire (λ _ _, false) "a" chainIndex))
               = {["a.js"; "b.js"]}) by (vm_compute; reflexivity).
  assert (Hw : written (dependencies_ (afterRequire (λ _ _, false) "a" chainIndex))
               = ∅) by (vm_compute; reflexivity).
  split_and!.
  - rewrite Hv. set_solver.
  - rewrite Hw. apply not_elem_of_empty.
  - vm_compute. reflexivity.
  - vm_compute. reflexivity.
Qed.

(** ** The order of the import requests *)

Lemma append_inj_r s a b : String.append s a = String.append s b → a = b.
Proof. induction s as [|c s IH]; cbn; [done|]. intros [= H]. by apply IH. Qed.

Lemma before_sublist x y (l k : list string) :
  l `sublist_of` k → before x y l → before x y k.
Proof.
  intros Hsub (l1 & l2 & l3 & ->).
  apply sublist_app_l in Hsub as (k1 & k2 & -> & _ & Hsub).
  apply sublist_cons_l in Hsub as (k21 & k22 & -> & Hsub).
  apply sublist_app_l in Hsub as (m1 & m2 & -> & _ & Hsub).
  apply sublist_cons_l in Hsub as (m21 & m22 & -> & _).
  exists (k1 ++ k21), (m1 ++ m21), m22.
  by rewrite <- !app_assoc.
Qed.

Lemma before_total x y (l : list string) :
  x ∈ l → y ∈ l → x ≠ y → before x y l ∨ before y x l.
Proof.
  intros (l1 & l2 & ->)%list_elem_of_split Hy Hne.
  apply elem_of_app in Hy as [Hy|Hy].
  - right. apply list_elem_of_split in Hy as (a & b & ->).
    exists a, b, l2. by rewrite <- app_assoc.
  - apply elem_of_cons in Hy as [->|Hy]; [done|].
    left. apply list_elem_of_split in Hy as (a & b & ->). by exists l1, a, b.
Qed.

Lemma before_NoDup x y (l : list string) :
  NoDup l → before x y l → ¬ before y x l.
Proof.
  intros Hnd (l1 & l2 & l3 & ->) (k1 & k2 & k3 & Hk).
  apply NoDup_app in Hnd as (_ & Hl1 & Hnd).
  apply NoDup_cons in Hnd as (Hx & Hnd).
  apply NoDup_app in Hnd as (_ & Hl2 & Hnd).
  apply NoDup_cons in Hnd as (Hy & _).
  assert (Hyin : y ∈ l2 ++ y :: l3).
  { apply elem_of_app. right. apply elem_of_cons. by left. }
  revert k1 Hk Hl1. induction l1 as [|z l1 IH]; intros k1 Hk Hl1.
  - destruct k1 as [|z k1]; cbn in Hk.
    + injection Hk as -> _. done.
    + injection Hk as <- Hk. apply Hx. rewrite Hk.
      apply elem_of_app. right. apply elem_of_cons. right.
      apply elem_of_app. right. apply elem_of_cons. by left.
  - destruct k1 as [|z' k1]; cbn in Hk.
    + injection Hk as -> _. apply (Hl1 y); [apply elem_of_cons; by left|].
      apply elem_of_cons. by right.
    + injection Hk as _ Hk. apply (IH k1 Hk).
      intros a Ha. apply Hl1. apply elem_of_cons. by right.
Qed.

Lemma before_fmap (f : string → string) x y (l : list string) :
  before x y l → before (f x) (f y) (f <$> l).
Proof.
  intros (l1 & l2 & l3 & ->). exists (f <$> l1), (f <$> l2), (f <$> l3).
  by rewrite !fmap_app, !fmap_cons, !fmap_app, !fmap_cons.
Qed.

(** The requests of the second loop of [goog.writeScripts_] are made in
    the order of [scripts]. *)
Lemma importScripts_sublist importScript scripts g c g' new :
  importScripts importScript scripts g = (c, g') →
  requested g g' new →
  new `sublist_of` (String.append (basePath g) <$> scripts).
Proof.
  revert g new. induction scripts as [|script rest IH]; intros g new Hrun Hreq;
    cbn in Hrun.
  { injection Hrun as <- <-. unfold requested in Hreq.
    rewrite <- (app_nil_r (imports g)) in Hreq at 1.
    apply app_inv_head in Hreq as <-. constructor. }
  destruct (Str.truthy script).
  2:{ injection Hrun as <- <-. unfold requested in Hreq.
      rewrite <- (app_nil_r (imports g)) in Hreq at 1.
      apply app_inv_head in Hreq as <-. apply sublist_nil_l. }
  cbn [fmap list_fmap].
  destruct (importScript__cases importScript (String.append (basePath g) script) g)
    as [[_ Heq]|(_ & Honly & Himp & _)].
  - rewrite Heq in Hrun. apply sublist_cons. by apply IH.
  - destruct (importScripts_spec _ _ _ _ _ Hrun) as (_ & _ & _ & new1 & Hreq1 & _).
    pose proof (IH _ _ Hrun Hreq1) as Hsub.
    unfold requested in *. rewrite Himp, <- app_assoc in Hreq1.
    rewrite Hreq1 in Hreq. apply app_inv_head in Hreq as <-.
    destruct Honly as (_ & _ & _ & <- & _). by apply sublist_skip.
Qed.

Lemma sublist_elem_of (l k : list string) x :
  l `sublist_of` k → x ∈ l → x ∈ k.
Proof.
  induction 1 as [|y l k _ IH|y l k _ IH]; [done| |].
  - intros [->|?]%elem_of_cons; apply elem_of_cons; [by left|right; by apply IH].
  - intros ?. apply elem_of_cons. right. by apply IH.
Qed.

(** ** Order of the output of a pass *)

(** C1, as the code has it. Let a pass return the output [scripts w], and
    let [A] require a name [r] owned by [B]. If [r] is not provided when
    the pass runs, [A] was not marked visited before the pass, and [A] is
    on no cycle of requirements, then [B] comes strictly before [A] in the
    output whenever both are in it, and the import of [B] is requested
    before the import of [A] whenever both are requested in the pass. *)
Theorem scripts_requirement_first (g : Goog) (w : Walk) (A B r : string)
    (l : list string) :
  visitIncluded g (startWalk g) = Some (Normal tt, w) →
  requires (dependencies_ g) !! A = Some l →
  r ∈ l →
  nameToPath (dependencies_ g) !! r = Some B →
  isProvided_ r g = false →
  A ∉ visited (dependencies_ g) →
  ¬ tc (edge g) A A →
  (A ∈ scripts w → B ∈ scripts w → before B A (scripts w))
  ∧ ∀ importScript c g' new,
      writeScripts_ importScript g = Some (c, g') →
      requested g g' new →
      String.append (basePath g) A ∈ new →
      String.append (basePath g) B ∈ new →
      before (String.append (basePath g) B) (String.append (basePath g) A) new.
Proof.
  intros Hrun Hl Hr Hown Hprov Hfresh Hcyc.
  destruct (visitIncluded_Inv g (visited (dependencies_ g)) (startWalk g)
              (Normal tt) w (Inv_initial _ _) Hrun) as [HI _].
  assert (Hedge : edge g A B) by (by exists l, r).
  assert (Hfirst : A ∈ scripts w → B ∈ scripts w → before B A (scripts w)).
  { intros HA HB.
    destruct (inv_order _ _ _ _ HI A B HA Hfresh Hcyc Hedge) as [Hw|?]; [|done].
    by destruct (proj2 (inv_scripts _ _ _ _ HI B HB)). }
  split; [done|].
  intros importScript c g' new Hpass Hreq HA HB.
  unfold writeScripts_ in Hpass. rewrite Hrun in Hpass. injection Hpass as Hpass.
  pose proof (importScripts_sublist _ _ _ _ _ _ Hpass Hreq) as Hsub.
  cbn [basePath set_dependencies_] in Hsub.
  set (src := String.append (basePath g)) in *.
  assert (Hinj : Inj (=) (=) src) by (intros x y; apply append_inj_r).
  assert (Hin : ∀ x, src x ∈ new → x ∈ scripts w).
  { intros x Hx. apply (sublist_elem_of _ _ _ Hsub) in Hx.
    apply list_elem_of_fmap in Hx as (y & Hy & ?).
    by apply Hinj in Hy as ->. }
  pose proof (before_fmap src _ _ _ (Hfirst (Hin A HA) (Hin B HB))) as Hbefore.
  assert (Hnd : NoDup (src <$> scripts w)).
  { apply NoDup_fmap_2; [done|]. by apply (inv_nodup _ _ _ _ HI). }
  assert (Hne : src B ≠ src A).
  { intros Heq. rewrite Heq in Hbefore. by apply (before_NoDup _ _ _ Hnd Hbefore). }
  destruct (before_total _ _ _ HB HA Hne) as [?|Hwrong]; [done|].
  destruct (before_NoDup _ _ _ Hnd Hbefore). by eapply before_sublist.
Qed.

Lemma scripts_requirement_first_witness :
  before "b.js" "a.js"
    (scripts (default (startWalk chainIndex)
                (snd <$> visitIncluded (set_included_ ["a.js"] chainIndex)
                           (startWalk (set_included_ ["a.js"] chainIndex))))).
Proof.
  refine (proj1 (scripts_requirement_first (set_included_ ["a.js"] chainIndex) _
                   "a.js" "b.js" "b" ["b"] _ _ _ _ _ _ _) _ _).
  - vm_compute. reflexivity.
  - vm_compute. reflexivity.
  - apply elem_of_cons. by left.
  - vm_compute. reflexivity.
  - vm_compute. reflexivity.
  - assert (visited (dependencies_ (set_included_ ["a.js"] chainIndex)) = ∅)
      as -> by reflexivity.
    apply not_elem_of_empty.
  - assert (Hedge : ∀ p q, edge (set_included_ ["a.js"] chainIndex) p q →
                           p = "a.js" ∧ q = "b.js").
    { intros p q (l & r & Hl & Hr & _ & Hq).
      change (requires (dependencies_ (set_included_ ["a.js"] chainIndex)))
        with ({["a.js" := ["b"]]} : gmap string (list string)) in Hl.
      apply lookup_singleton_Some in Hl as [<- <-].
      apply list_elem_of_singleton in Hr as ->.
      vm_compute in Hq. by injection Hq as <-. }
    assert (Htc : ∀ p q, tc (edge (set_included_ ["a.js"] chainIndex)) p q →
                         p = "a.js" ∧ q = "b.js").
    { induction 1 as [p q Hpq|p q q' Hpq _ IH]; [by apply Hedge|].
      destruct (Hedge _ _ Hpq) as [_ ->]. by destruct IH. }
    intros Hcyc. by destruct (Htc _ _ Hcyc).
  - vm_compute. apply elem_of_cons. right. apply elem_of_cons. by left.
  - vm_compute. apply elem_of_cons. by left.
Defined.

(** C1 fails as stated, in three ways. (1) [a.js] requires [b], owned by
    [b.js], which requires nothing; [a.js] is on a cycle with a third
    module [d.js], and the pass for [a] requests [a.js] first. (2) After a
    pass for [a] whose imports failed, [a.js] and [b.js] are both still
    marked visited, and the pass for [b] that follows requests them in the
    order of [goog.included_]. (3) [a.js] requires [b], which is already
    provided, so that its owner [b.js] is only reached later, through
    another of its names. *)
Lemma scripts_requirement_not_first :
  (requires (dependencies_ sideCycleIndex) !! "a.js" = Some ["d"; "b"]
   ∧ nameToPath (dependencies_ sideCycleIndex) !! "b" = Some "b.js"
   ∧ requires (dependencies_ sideCycleIndex) !! "b.js" = None
   ∧ passScripts (set_included_ ["a.js"] sideCycleIndex)
     = Some (Normal tt, ["a.js"; "d.js"; "b.js"])
   ∧ imports (afterRequire (λ _ _, true) "a" sideCycleIndex)
     = ["a.js"; "d.js"; "b.js"]
   ∧ ¬ before "b.js" "a.js" ["a.js"; "d.js"; "b.js"])
  ∧ (requires (dependencies_ chainIndex) !! "a.js" = Some ["b"]
     ∧ nameToPath (dependencies_ chainIndex) !! "b" = Some "b.js"
     ∧ requires (dependencies_ chainIndex) !! "b.js" = None
     ∧ imports (requireAll (λ _ _, false) ["a"] chainIndex) = ["b.js"; "a.js"]
     ∧ imports (requireAll (λ _ _, false) ["a"; "b"] chainIndex)
       = ["b.js"; "a.js"] ++ ["a.js"; "b.js"]
     ∧ passScripts (requireAll (λ _ _, false) ["a"; "b"] chainIndex)
       = Some (Normal tt, ["a.js"; "b.js"])
     ∧ ¬ before "b.js" "a.js" ["a.js"; "b.js"])
  ∧ (requires (dependencies_ providedIndex) !! "a.js" = Some ["b"]
     ∧ nameToPath (dependencies_ providedIndex) !! "b" = Some "b.js"
     ∧ requires (dependencies_ providedIndex) !! "b.js" = None
     ∧ isProvided_ "b" providedIndex = true
     ∧ imports (afterRequire (λ _ _, true) "c" providedIndex)
       = ["a.js"; "b.js"; "c.js"]
     ∧ ¬ before "b.js" "a.js" ["a.js"; "b.js"; "c.js"]).
Proof.
  split_and!; try (vm_compute; reflexivity); intros H; refute_before H.
Qed.

(** * Further properties *)

Lemma isProvided__true name g :
  isProvided_ name g = true
  ↔ (name ∉ implicitNamespaces_ g) ∧ inherited name = false
    ∧ truthy (getObjectByName name (global g)) = true.
Proof.
  unfold isProvided_.
  rewrite andb_true_iff, negb_true_iff, orb_false_iff, bool_decide_eq_false.
  tauto.
Qed.

(** ** Names and their segments *)

Lemma split_nonempty s : Str.split s ≠ [].
Proof.
  destruct s as [|c r]; cbn; [done|].
  destruct (Ascii.eqb c "."%char); [done|]. by destruct (Str.split r).
Qed.

Lemma lastIndexOf_ge s : (-1 ≤ Str.lastIndexOf s)%Z.
Proof.
  induction s as [|c r IH]; cbn [Str.lastIndexOf]; [lia|].
  destruct (0 <=? Str.lastIndexOf r)%Z eqn:E; [lia|].
  destruct (Ascii.eqb c "."%char); lia.
Qed.

(** A name without a dot is its own single segment. *)
Lemma split_no_dot s : (Str.lastIndexOf s < 0)%Z → Str.split s = [s].
Proof.
  induction s as [|c r IH]; cbn [Str.lastIndexOf Str.split]; [done|].
  destruct (0 <=? Str.lastIndexOf r)%Z eqn:E.
  { apply Z.leb_le in E. pose proof (lastIndexOf_ge r). lia. }
  apply Z.leb_gt in E.
  destruct (Ascii.eqb c "."%char); [lia|].
  intros _. by rewrite (IH E).
Qed.

(** Cutting a name at its last dot drops its last segment. *)
Lemma split_cut s :
  (0 ≤ Str.lastIndexOf s)%Z →
  Str.split (Str.substring0 (Str.lastIndexOf s) s) = removelast (Str.split s)
  ∧ (2 ≤ length (Str.split s))%nat.
Proof.
  induction s as [|c r IH]; cbn [Str.lastIndexOf]; [lia|].
  destruct (0 <=? Str.lastIndexOf r)%Z eqn:E.
  - apply Z.leb_le in E. intros _. destruct (IH E) as [IH1 IH2].
    unfold Str.substring0 in *.
    replace (Z.to_nat (Str.lastIndexOf r + 1)) with (S (Z.to_nat (Str.lastIndexOf r)))
      by lia.
    cbn [String.substring Str.split].
    destruct (Ascii.eqb c "."%char).
    + rewrite IH1. split; [|cbn; lia].
      destruct (Str.split r) as [|h t]; [cbn in IH2; lia|done].
    + rewrite IH1.
      destruct (Str.split r) as [|h [|t0 t]]; [cbn in IH2; lia..|].
      split; [done|cbn; lia].
  - apply Z.leb_gt in E.
    destruct (Ascii.eqb c "."%char) eqn:Ec; [|lia].
    intros _. unfold Str.substring0. cbn [Z.to_nat String.substring Str.split].
    destruct r; rewrite Ec, (split_no_dot _ E); done.
Qed.

Lemma cut_truthy s :
  Str.truthy (Str.substring0 (Str.lastIndexOf s) s) = true →
  (0 ≤ Str.lastIndexOf s)%Z.
Proof.
  unfold Str.substring0. pose proof (lastIndexOf_ge s).
  destruct (decide (Str.lastIndexOf s = -1)%Z) as [->|]; [|lia].
  cbn. by destruct s.
Qed.

Lemma removelast_take {A} (l : list A) m :
  (m ≤ length l)%nat → removelast (take m l) = take (pred m) l.
Proof.
  intros Hm. rewrite removelast_firstn_len.
  rewrite length_take, Nat.min_l by done.
  change (@firstn A) with (@take A). rewrite take_take. f_equal. lia.
Qed.

(** The segments determine the name. *)
Lemma split_inj s1 s2 : Str.split s1 = Str.split s2 → s1 = s2.
Proof.
  revert s2. induction s1 as [|c r IH]; intros [|c' r']; cbn [Str.split].
  - done.
  - destruct (Ascii.eqb c' "."%char).
    + intros [= H]. symmetry in H. by apply split_nonempty in H.
    + destruct (Str.split r'); done.
  - destruct (Ascii.eqb c "."%char).
    + intros [= H]. by apply split_nonempty in H.
    + destruct (Str.split r); done.
  - destruct (Ascii.eqb c "."%char) eqn:Ec, (Ascii.eqb c' "."%char) eqn:Ec'.
    + apply Ascii.eqb_eq in Ec, Ec'. intros [= H]. f_equal; [congruence|by apply IH].
    + destruct (Str.split r'); done.
    + destruct (Str.split r); done.
    + destruct (Str.split r) as [|h t] eqn:Er; [by apply split_nonempty in Er|].
      destruct (Str.split r') as [|h' t'] eqn:Er'; [by apply split_nonempty in Er'|].
      intros [= -> -> ->]. f_equal. apply IH. by rewrite Er'.
Qed.

(** ** Reading and writing properties *)

Lemma lookup_store_prop_ne a b x props :
  a ≠ b → lookup_prop b (store_prop a x props) = lookup_prop b props.
Proof.
  intros Hne. induction props as [|[k v] props IH]; cbn.
  - destruct (String.eqb a b) eqn:E; [by apply String.eqb_eq in E|done].
  - destruct (String.eqb k a) eqn:E; cbn.
    + apply String.eqb_eq in E as ->.
      destruct (String.eqb a b) eqn:E'; [by apply String.eqb_eq in E'|done].
    + by rewrite IH.
Qed.







(** ** Lookups after an export *)







(** ** Namespaces after [goog.provide] *)

Lemma provide_loop_subseteq fuel ns glob imp imp' :
  provide_loop fuel ns glob imp = Some imp' → imp ⊆ imp'.
Proof.
  revert ns imp. induction fuel as [|fuel IH]; intros ns imp Hloop; [done|].
  cbn [provide_loop] in Hloop.
  destruct (Str.truthy _); [|by simplify_eq].
  destruct (truthy _); [by simplify_eq|].
  apply IH in Hloop. set_solver.
Qed.

(** One round of the loop moves from the first [m] segments to the first
    [m - 1]. *)
Lemma cut_segments ns parts m :
  Str.split ns = take m parts → (m ≤ length parts)%nat →
  (0 ≤ Str.lastIndexOf ns)%Z →
  Str.split (Str.substring0 (Str.lastIndexOf ns) ns) = take (pred m) parts
  ∧ (2 ≤ m)%nat.
Proof.
  intros Hns Hm Hdot. destruct (split_cut ns Hdot) as [Hcut Hlen].
  rewrite Hns in Hcut, Hlen. rewrite length_take in Hlen.
  split; [|lia]. by rewrite Hcut, removelast_take.
Qed.

Lemma provide_loop_sound fuel ns glob imp imp' parts m x :
  provide_loop fuel ns glob imp = Some imp' →
  Str.split ns = take m parts → (m ≤ length parts)%nat →
  x ∈ imp' →
  x ∈ imp
  ∨ ∃ k, (0 < k < m)%nat ∧ Str.split x = take k parts
         ∧ truthy (getObjectByName x glob) = false.
Proof.
  revert ns imp m.
  induction fuel as [|fuel IH]; intros ns imp m Hloop Hns Hm Hx; [done|].
  cbn [provide_loop] in Hloop.
  destruct (Str.truthy _) eqn:Ht; [|left; by simplify_eq].
  destruct (truthy (getObjectByName (Str.substring0 _ _) glob)) eqn:Hres;
    [left; by simplify_eq|].
  destruct (cut_segments ns parts m Hns Hm (cut_truthy _ Ht)) as [Hcut Hm2].
  destruct (IH _ _ (pred m) Hloop Hcut ltac:(lia) Hx) as [Hin|(k & Hk & Hxk & Hxres)].
  - apply elem_of_union in Hin as [->%elem_of_singleton|Hin]; [|by left].
    right. exists (pred m). repeat split; [lia|lia|done|done].
  - right. exists k. repeat split; [lia|lia|done|done].
Qed.

Lemma provide_loop_complete fuel ns glob imp imp' parts m x k :
  provide_loop fuel ns glob imp = Some imp' →
  Str.split ns = take m parts → (m ≤ length parts)%nat →
  (0 < k < m)%nat → Str.split x = take k parts → Str.truthy x = true →
  (∀ j, (k ≤ j < m)%nat →
        truthy (getObjectByName_parts (take j parts) glob) = false) →
  x ∈ imp'.
Proof.
  revert ns imp m.
  induction fuel as [|fuel IH]; intros ns imp m Hloop Hns Hm Hk Hx Hxt Hnone;
    [done|].
  cbn [provide_loop] in Hloop.
  assert (Hdot : (0 ≤ Str.lastIndexOf ns)%Z).
  { destruct (decide (0 ≤ Str.lastIndexOf ns)%Z) as [|Hno]; [done|].
    rewrite split_no_dot in Hns by lia.
    apply (f_equal length) in Hns. rewrite length_take in Hns. cbn in Hns. lia. }
  destruct (cut_segments ns parts m Hns Hm Hdot) as [Hcut Hm2].
  set (ns' := Str.substring0 (Str.lastIndexOf ns) ns) in *.
  assert (Hlast : k = pred m → x = ns').
  { intros ->. apply split_inj. by rewrite Hx, Hcut. }
  destruct (Str.truthy ns') eqn:Ht.
  2:{ destruct ns'; [|done]. cbn in Hcut.
      assert (pred m = 1)%nat as Hm1.
      { apply (f_equal length) in Hcut. rewrite length_take in Hcut.
        cbn in Hcut. lia. }
      rewrite <- (Hlast ltac:(lia)) in Ht. congruence. }
  unfold getObjectByName in Hloop. rewrite Hcut in Hloop.
  rewrite (Hnone (pred m)) in Hloop by lia.
  destruct (decide (k = pred m)) as [Hkm|Hkm].
  - apply provide_loop_subseteq in Hloop. rewrite (Hlast Hkm). set_solver.
  - apply (IH _ _ (pred m) Hloop Hcut); [lia..|done|done|].
    intros j Hj. apply Hnone. lia.
Qed.

Lemma provide_inv name g g1 :
  provide name g = Some (Normal tt, g1) →
  isProvided_ name g = false
  ∧ ∃ implicit,
      provide_loop (S (String.length name)) name (global g)
        (implicitNamespaces_ g ∖ {[name]}) = Some implicit
      ∧ g1 = set_global (exportPath_ name VUndefined (global g))
               (set_implicitNamespaces_ implicit g).
Proof.
  unfold provide. destruct (isProvided_ name g); [done|].
  destruct (provide_loop _ _ _ _) as [implicit|]; [|done].
  intros [= <-]. eauto.
Qed.

(** X1. The names that a returning [goog.provide(name)] leaves in
    [goog.implicitNamespaces_] are the ones that were there, [name]
    itself excepted, and names made of the first [k] segments of [name],
    for a [k] below the number of its segments, that did not resolve to a
    truthy value before the call. *)
Theorem provide_implicit_sound (name x : string) (g g1 : Goog) :
  provide name g = Some (Normal tt, g1) →
  x ∈ implicitNamespaces_ g1 →
  (x ∈ implicitNamespaces_ g ∧ x ≠ name)
  ∨ ∃ k, (0 < k < length (Str.split name))%nat ∧ segmentsOf x name k
         ∧ truthy (getObjectByName x (global g)) = false.
Proof.
  intros (_ & implicit & Hloop & ->)%provide_inv Hx. cbn in Hx.
  destruct (provide_loop_sound _ _ _ _ _ (Str.split name)
              (length (Str.split name)) x Hloop) as [Hin|Hk];
    [by rewrite firstn_all|done|done| |by right].
  left. set_solver.
Qed.

Lemma provide_implicit_sound_witness :
  ("a" ∈ implicitNamespaces_ (initial (VObject []) EmptyString) ∧ "a" ≠ "a.b")
  ∨ ∃ k, (0 < k < length (Str.split "a.b"))%nat ∧ segmentsOf "a" "a.b" k
         ∧ truthy (getObjectByName "a" (global (initial (VObject []) EmptyString)))
           = false.
Proof.
  apply (provide_implicit_sound "a.b" "a" (initial (VObject []) EmptyString)
           (set_global (VObject [("a", VObject [("b", VObject [])])])
              (set_implicitNamespaces_ {["a"]} (initial (VObject []) EmptyString)))).
  - vm_compute. reflexivity.
  - cbn. apply elem_of_singleton. reflexivity.
Defined.

(** X2. A returning [goog.provide(name)] records as implicit every
    non-empty name made of the first [k] segments of [name], [k] below
    the number of its segments, when no prefix of [name] of [k] or more
    segments, [name] itself left out, resolved to a truthy value before
    the call. *)
Theorem provide_implicit_complete (name x : string) (k : nat) (g g1 : Goog) :
  provide name g = Some (Normal tt, g1) →
  (0 < k < length (Str.split name))%nat →
  segmentsOf x name k → Str.truthy x = true →
  (∀ j, (k ≤ j < length (Str.split name))%nat →
        truthy (getObjectByName_parts (take j (Str.split name)) (global g))
        = false) →
  x ∈ implicitNamespaces_ g1.
Proof.
  intros (_ & implicit & Hloop & ->)%provide_inv Hk Hx Hxt Hnone. cbn.
  apply (provide_loop_complete _ _ _ _ _ (Str.split name)
           (length (Str.split name)) x k Hloop);
    [by rewrite firstn_all|done..].
Qed.

Lemma provide_implicit_complete_witness :
  "a" ∈ implicitNamespaces_
          (set_global (VObject [("a", VObject [("b", VObject [])])])
             (set_implicitNamespaces_ {["a"]} (initial (VObject []) EmptyString))).
Proof.
  apply (provide_implicit_complete "a.b" "a" 1 (initial (VObject []) EmptyString)).
  - vm_compute. reflexivity.
  - cbn. lia.
  - reflexivity.
  - reflexivity.
  - intros j Hj. cbn in Hj. assert (j = 1)%nat as -> by lia. reflexivity.
Defined.









(** A returning [goog.provide(name)] that leaves [name] resolving has
    provided it, unless the name is an inherited one. *)
Lemma provide_isProvided name g g1 :
  provide name g = Some (Normal tt, g1) →
  truthy (getObjectByName name (global g1)) = true →
  inherited name = false →
  isProvided_ name g1 = true.
Proof.
  intros (_ & implicit & Hloop & ->)%provide_inv Hres Hown.
  apply isProvided__true. split_and!; [|done..]. cbn. intros Hin.
  destruct (provide_loop_sound _ _ _ _ _ (Str.split name)
              (length (Str.split name)) name Hloop)
    as [Hin'|(k & Hk & Hseg & _)]; [by rewrite firstn_all|done|done|..].
  - set_solver.
  - apply (f_equal length) in Hseg. rewrite length_take in Hseg. lia.
Qed.

(** X8. A namespace that was just provided needs no loading: after a
    returning [goog.provide(name)] that leaves [name] resolving to a
    truthy value, for a [name] that is not a property that
    [goog.implicitNamespaces_] inherits, [goog.require(name)] returns at
    once, with the state untouched and nothing handed to the import
    capability. *)
Theorem provide_then_require (importScript : list string → string → bool)
    (name : string) (g g1 : Goog) :
  provide name g = Some (Normal tt, g1) →
  truthy (getObjectByName name (global g1)) = true →
  inherited name = false →
  require importScript name g1 = Some (Normal tt, g1).
Proof.
  intros Hprov Hres Hown. unfold require.
  by rewrite (provide_isProvided name g g1).
Qed.

Lemma provide_then_require_witness :
  require (λ _ _, true) "a.b"
    (set_global (VObject [("a", VObject [("b", VObject [])])])
       (set_implicitNamespaces_ {["a"]} (initial (VObject []) EmptyString)))
  = Some (Normal tt,
          set_global (VObject [("a", VObject [("b", VObject [])])])
            (set_implicitNamespaces_ {["a"]} (initial (VObject []) EmptyString))).
Proof.
  apply (provide_then_require (λ _ _, true) "a.b" (initial (VObject []) EmptyString)).
  - vm_compute. reflexivity.
  - reflexivity.
  - reflexivity.
Defined.



(** ** What a pass loads *)

Lemma visitNode_scriptsNeeded g fuel path :
  needed g path →
  triple (scriptsNeeded g) (visitNode g fuel path) (scriptsNeeded g)
         (λ _, scriptsNeeded g).
Proof.
  revert path. induction fuel as [|fuel IH]; intros path Hpath;
    [by intros w r w' _ ?|].
  assert (Hpush : ∀ w, scriptsNeeded g w ∧ (path ∉ written (dependencies_ g)) →
            scriptsNeeded g
              (mkWalk (walk_visited w) ({[path]} ∪ seenScript w) (scripts w ++ [path]))).
  { intros w [HR Hw] q [Hq| ->%list_elem_of_singleton]%elem_of_app; [by apply HR|done]. }
  apply triple_visitNode.
  - done.
  - apply triple_pushScript; [by intros w [? _] _|].
    intros w (? & ? & _) _. by apply Hpush.
  - set (R := λ w, scriptsNeeded g w ∧ (path ∉ written (dependencies_ g))).
    apply (triple_andThen _ R).
    { apply triple_markVisited. by intros w (? & ? & _). }
    apply (triple_andThen _ R).
    + apply (triple_conseq R _ R _ (λ _, R));
        [done|done|by intros e w [? _]|].
      destruct (requires (dependencies_ g) !! path) as [l|] eqn:Hl;
        [|apply triple_skip].
      apply triple_forIn_simple. intros r Hr.
      apply triple_visitRequire; [done| |done].
      intros p Hprov Hown.
      assert (Hp : needed g p).
      { destruct Hpath as (p0 & Hp0 & Hreach). exists p0. split; [done|].
        eapply rtc_r; [done|]. by exists l, r. }
      intros w c w' [HR Hw] Hrun.
      pose proof (IH p Hp w c w' HR Hrun). by destruct c.
    + apply triple_pushScript; [by intros w [? _] _|].
      intros w ? _. by apply Hpush.
Qed.

Lemma visitIncluded_scriptsNeeded g :
  triple (scriptsNeeded g) (visitIncluded g) (scriptsNeeded g)
         (λ _, scriptsNeeded g).
Proof.
  apply triple_forIn_simple. intros path Hpath.
  destruct (decide _); [apply triple_skip|].
  apply visitNode_scriptsNeeded. by exists path.
Qed.

Lemma passScripts_scriptsNeeded g c w :
  visitIncluded g (startWalk g) = Some (c, w) → scriptsNeeded g w.
Proof.
  intros Hrun.
  assert (H0 : scriptsNeeded g (startWalk g)).
  { intros q Hq. by apply elem_of_nil in Hq. }
  pose proof (visitIncluded_scriptsNeeded g _ c w H0 Hrun). by destruct c.
Qed.

(** A path that the walk gets to is included or owns a name. *)
Lemma needed_included_or_owner g q :
  needed g q → q ∈ included_ g ∨ q ∈ owners g.
Proof.
  intros (p & Hp & Hreach). revert q Hreach. apply rtc_ind_r; [by left|].
  intros q' q _ (l & r & _ & _ & _ & Hown) _. right.
  by apply (elem_of_map_img_2 _ r).
Qed.







Lemma importScripts_throws_empty importScript scripts g e g' :
  importScripts importScript scripts g = (Throw e, g') → EmptyString ∈ scripts.
Proof.
  revert g. induction scripts as [|script rest IH]; intros g; cbn; [done|].
  destruct (Str.truthy script) eqn:Ht.
  - intros Hrun. apply elem_of_cons. right. by apply (IH _ Hrun).
  - intros _. destruct script; [|done]. apply elem_of_cons. by left.
Qed.

(** X13. [goog.require] throws the undefined-script-input error only when
    the empty path is in [goog.included_] or owns a name, that is, when a
    dependency was registered under an empty path. *)
Theorem require_undefined_script (importScript : list string → string → bool)
    (name : string) (g g' : Goog) :
  require importScript name g = Some (Throw UndefinedScriptInput, g') →
  EmptyString ∈ included_ g ∨ EmptyString ∈ owners g.
Proof.
  unfold require. destruct (isProvided_ name g); [done|].
  destruct (getPathFromDeps_ name g) as [path|]; [|done].
  destruct (Str.truthy path) eqn:Htruthy; [|done].
  set (gi := set_included_ (insert_key path (included_ g)) g).
  unfold writeScripts_.
  destruct (visitIncluded gi (startWalk gi)) as [[[[]|e] w]|] eqn:Hwalk; [| |done].
  - intros [= Himp]. apply importScripts_throws_empty in Himp.
    destruct (passScripts_scriptsNeeded gi _ w Hwalk _ Himp) as [_ Hn].
    destruct (needed_included_or_owner _ _ Hn) as [Hin|Hown]; [|by right].
    left. unfold gi in Hin. cbn [included_ set_included_] in Hin.
    apply elem_of_insert_key in Hin as [Heq|?]; [|done].
    by rewrite <- Heq in Htruthy.
  - intros [= -> _]. apply visitIncluded_throws in Hwalk as (r & ? & _). done.
Qed.

Lemma require_undefined_script_witness :
  EmptyString ∈ included_ emptyPathIndex ∨ EmptyString ∈ owners emptyPathIndex.
Proof.
  apply (require_undefined_script (λ _ _, true) "a" emptyPathIndex
           (afterRequire (λ _ _, true) "a" emptyPathIndex)).
  vm_compute. reflexivity.
Defined.

(** ** What a registration leaves in the index *)

Lemma Dependencies_eq (d d' : Dependencies) :
  pathToNames d = pathToNames d' → nameToPath d = nameToPath d' →
  requires d = requires d' → visited d = visited d' → written d = written d' →
  d = d'.
Proof. destruct d, d'. cbn. by intros -> -> -> -> ->. Qed.

Lemma foldl_addProvide_fields path names d :
  requires (foldl (addProvide path) d names) = requires d
  ∧ visited (foldl (addProvide path) d names) = visited d
  ∧ written (foldl (addProvide path) d names) = written d.
Proof.
  revert d. induction names as [|n names IH]; intros d; [done|]. cbn [foldl].
  destruct (IH (addProvide path d n)) as (-> & -> & ->). done.
Qed.

Lemma foldl_addRequire_fields path names d :
  pathToNames (foldl (addRequire path) d names) = pathToNames d
  ∧ visited (foldl (addRequire path) d names) = visited d
  ∧ written (foldl (addRequire path) d names) = written d.
Proof.
  revert d. induction names as [|n names IH]; intros d; [done|]. cbn [foldl].
  destruct (IH (addRequire path d n)) as (-> & -> & ->). done.
Qed.

(** The names listed under a path after the first loop. *)
Lemma foldl_addProvide_pathToNames path names d p :
  default ∅ (pathToNames (foldl (addProvide path) d names) !! p)
  = (if decide (p = path) then list_to_set names else ∅)
    ∪ default ∅ (pathToNames d !! p).
Proof.
  revert d. induction names as [|n names IH]; intros d; cbn [foldl].
  { destruct (decide (p = path)); set_solver. }
  rewrite IH. cbn [addProvide pathToNames].
  destruct (decide (p = path)) as [->|Hne].
  - rewrite lookup_insert_eq. cbn. set_solver.
  - rewrite lookup_insert_ne by done. set_solver.
Qed.

Lemma foldl_addProvide_pathToNames_dom path names d p :
  is_Some (pathToNames (foldl (addProvide path) d names) !! p)
  ↔ is_Some (pathToNames d !! p) ∨ (p = path ∧ names ≠ []).
Proof.
  revert d. induction names as [|n names IH]; intros d; cbn [foldl].
  { naive_solver. }
  rewrite IH. cbn [addProvide pathToNames]. rewrite lookup_insert_is_Some.
  destruct (decide (p = path)); naive_solver.
Qed.

(** The requirements of a path after the second loop. *)
Lemma foldl_addRequire_requires path names d p :
  default [] (requires (foldl (addRequire path) d names) !! p)
  = if decide (p = path)
    then foldl (λ l r, insert_key r l) (default [] (requires d !! p)) names
    else default [] (requires d !! p).
Proof.
  revert d. induction names as [|n names IH]; intros d; cbn [foldl].
  { by destruct (decide (p = path)). }
  rewrite IH. cbn [addRequire requires].
  destruct (decide (p = path)) as [->|Hne].
  - by rewrite lookup_insert_eq.
  - by rewrite lookup_insert_ne.
Qed.

Lemma foldl_addRequire_requires_dom path names d p :
  is_Some (requires (foldl (addRequire path) d names) !! p)
  ↔ is_Some (requires d !! p) ∨ (p = path ∧ names ≠ []).
Proof.
  revert d. induction names as [|n names IH]; intros d; cbn [foldl].
  { naive_solver. }
  rewrite IH. cbn [addRequire requires]. rewrite lookup_insert_is_Some.
  destruct (decide (p = path)); naive_solver.
Qed.

Lemma insert_index_sublist n key keys : keys `sublist_of` insert_index n key keys.
Proof.
  induction keys as [|k rest IH]; cbn [insert_index].
  - apply sublist_nil_l.
  - destruct (arrayIndex k) as [m|]; [|by apply sublist_cons_r; left].
    destruct (m <? n)%N; [by apply sublist_skip|by apply sublist_cons_r; left].
Qed.

(** A new key leaves the keys that were there in their order. *)
Lemma insert_key_sublist key keys : keys `sublist_of` insert_key key keys.
Proof.
  unfold insert_key. destruct (decide (key ∈ keys)); [done|].
  destruct (arrayIndex key).
  - apply insert_index_sublist.
  - by apply sublist_inserts_r.
Qed.

Lemma foldl_insert_key_sublist names l :
  l `sublist_of` foldl (λ l r, insert_key r l) l names.
Proof.
  revert l. induction names as [|n names IH]; intros l; cbn [foldl]; [done|].
  etrans; [|apply IH]. apply insert_key_sublist.
Qed.

(** Keys that are not array indices go last. *)
Lemma foldl_insert_key_prefix names l :
  Forall (λ r, arrayIndex r = None) names →
  l `prefix_of` foldl (λ l r, insert_key r l) l names.
Proof.
  intros Hnames. revert l.
  induction Hnames as [|n names Hn _ IH]; intros l; cbn [foldl]; [done|].
  etrans; [|apply IH]. unfold insert_key.
  destruct (decide (n ∈ l)); [done|]. rewrite Hn. by apply prefix_app_r.
Qed.

Lemma foldl_insert_key_elem names l r :
  r ∈ foldl (λ l r, insert_key r l) l names ↔ r ∈ l ∨ r ∈ names.
Proof.
  revert l. induction names as [|n names IH]; intros l; cbn [foldl].
  { rewrite elem_of_nil. naive_solver. }
  rewrite IH, elem_of_cons, elem_of_insert_key. naive_solver.
Qed.

Lemma foldl_insert_key_id names l :
  (∀ r, r ∈ names → r ∈ l) → foldl (λ l r, insert_key r l) l names = l.
Proof.
  induction names as [|n names IH]; intros Hall; cbn [foldl]; [done|].
  rewrite insert_key_id by (apply Hall, elem_of_cons; by left).
  apply IH. intros r Hr. apply Hall, elem_of_cons. by right.
Qed.

(** A gmap with [default] lookups and the same keys is the same map. *)
Lemma map_eq_default {A} (m1 m2 : gmap string A) (d : A) :
  (∀ p, is_Some (m1 !! p) ↔ is_Some (m2 !! p)) →
  (∀ p, default d (m1 !! p) = default d (m2 !! p)) →
  m1 = m2.
Proof.
  intros Hdom Hval. apply map_eq. intros p.
  specialize (Hdom p). specialize (Hval p).
  destruct (m1 !! p) as [x|], (m2 !! p) as [y|]; cbn in *.
  - by subst.
  - by destruct (proj1 Hdom ltac:(eauto)).
  - by destruct (proj2 Hdom ltac:(eauto)).
  - done.
Qed.

(** X14. Registering the same dependency a second time changes nothing:
    [goog.addDependency] is idempotent. *)
Theorem addDependency_idempotent (relPath : string)
    (provides requires_ : list string) (g : Goog) :
  addDependency relPath provides requires_
    (addDependency relPath provides requires_ g)
  = addDependency relPath provides requires_ g.
Proof.
  unfold addDependency, set_dependencies_. cbn [dependencies_ global
    implicitNamespaces_ included_ basePath imports].
  set (path := Str.replaceBackslashes relPath).
  set (ps := untilFalsy provides). set (rs := untilFalsy requires_).
  set (d1 := foldl (addRequire path) (foldl (addProvide path) (dependencies_ g) ps) rs).
  f_equal.
  destruct (foldl_addRequire_fields path rs (foldl (addProvide path) d1 ps))
    as (HP2 & HV2 & HW2).
  destruct (foldl_addProvide_fields path ps d1) as (HR2 & HV2' & HW2').
  destruct (foldl_addRequire_fields path rs
              (foldl (addProvide path) (dependencies_ g) ps)) as (HP1 & _ & _).
  apply Dependencies_eq.
  - rewrite HP2. apply (map_eq_default _ _ ∅).
    + intros p. rewrite foldl_addProvide_pathToNames_dom.
      unfold d1 at 1 2. rewrite HP1, foldl_addProvide_pathToNames_dom. naive_solver.
    + intros p. rewrite foldl_addProvide_pathToNames.
      unfold d1. rewrite HP1, foldl_addProvide_pathToNames. set_solver.
  - apply map_eq. intros n.
    rewrite foldl_addRequire_nameToPath, foldl_addProvide_nameToPath.
    unfold d1. rewrite foldl_addRequire_nameToPath, foldl_addProvide_nameToPath.
    by destruct (decide (n ∈ ps)).
  - apply (map_eq_default _ _ []).
    + intros p. rewrite foldl_addRequire_requires_dom, HR2.
      unfold d1. rewrite foldl_addRequire_requires_dom. naive_solver.
    + intros p. rewrite foldl_addRequire_requires, HR2.
      destruct (decide (p = path)) as [->|]; [|done].
      apply foldl_insert_key_id. intros r Hr.
      unfold d1. rewrite foldl_addRequire_requires, decide_True by done.
      apply foldl_insert_key_elem. by right.
  - by rewrite HV2, HV2'.
  - by rewrite HW2, HW2'.
Qed.

(** X15. A registration only adds to the index. For every path, the
    requirements it had are still requirements afterwards and the loop
    over them meets them in the same order as before; when none of the
    registered requirements is an array index, the new ones come after
    them, so that the old requirements are a prefix of the new. The names
    listed under the path are still listed; every name that had an owner
    still has one; and [deps.visited] and [deps.written] are untouched. *)
Theorem addDependency_accumulates (relPath : string)
    (provides requires_ : list string) (g : Goog) (p : string) :
  default [] (requires (dependencies_ g) !! p)
    `sublist_of`
    default [] (requires (dependencies_ (addDependency relPath provides requires_ g)) !! p)
  ∧ (Forall (λ r, arrayIndex r = None) (untilFalsy requires_) →
     default [] (requires (dependencies_ g) !! p)
       `prefix_of`
       default [] (requires (dependencies_ (addDependency relPath provides requires_ g)) !! p))
  ∧ default ∅ (pathToNames (dependencies_ g) !! p)
    ⊆ default ∅ (pathToNames (dependencies_ (addDependency relPath provides requires_ g)) !! p)
  ∧ (∀ n, is_Some (nameToPath (dependencies_ g) !! n) →
          is_Some (nameToPath (dependencies_ (addDependency relPath provides requires_ g)) !! n))
  ∧ visited (dependencies_ (addDependency relPath provides requires_ g))
    = visited (dependencies_ g)
  ∧ written (dependencies_ (addDependency relPath provides requires_ g))
    = written (dependencies_ g).
Proof.
  unfold addDependency. cbn [dependencies_ set_dependencies_].
  set (path := Str.replaceBackslashes relPath).
  set (ps := untilFalsy provides). set (rs := untilFalsy requires_).
  destruct (foldl_addRequire_fields path rs
              (foldl (addProvide path) (dependencies_ g) ps)) as (HP & HV & HW).
  destruct (foldl_addProvide_fields path ps (dependencies_ g)) as (HR & HV' & HW').
  split_and!.
  - rewrite foldl_addRequire_requires, HR.
    destruct (decide (p = path)); [apply foldl_insert_key_sublist|done].
  - intros Hrs. rewrite foldl_addRequire_requires, HR.
    destruct (decide (p = path)); [by apply foldl_insert_key_prefix|done].
  - rewrite HP, foldl_addProvide_pathToNames. set_solver.
  - intros n Hn.
    rewrite foldl_addRequire_nameToPath, foldl_addProvide_nameToPath.
    by destruct (decide (n ∈ ps)).
  - by rewrite HV, HV'.
  - by rewrite HW, HW'.
Qed.

(** X16. Registrations keep the two indexes of ownership in step in one
    direction: if every name with an owner is listed under its owner in
    [deps.pathToNames] before [goog.addDependency], the same holds
    after. *)
Theorem addDependency_ownersListed (relPath : string)
    (provides requires_ : list string) (g : Goog) :
  ownersListed (dependencies_ g) →
  ownersListed (dependencies_ (addDependency relPath provides requires_ g)).
Proof.
  intros Hold n p. unfold addDependency. cbn [dependencies_ set_dependencies_].
  set (path := Str.replaceBackslashes relPath).
  set (ps := untilFalsy provides). set (rs := untilFalsy requires_).
  destruct (foldl_addRequire_fields path rs
              (foldl (addProvide path) (dependencies_ g) ps)) as (-> & _ & _).
  rewrite foldl_addRequire_nameToPath, foldl_addProvide_nameToPath.
  rewrite foldl_addProvide_pathToNames.
  destruct (decide (n ∈ ps)) as [Hn|Hn].
  - intros [= <-]. rewrite decide_True by done.
    apply elem_of_union. left. by apply elem_of_list_to_set.
  - intros Hown. apply elem_of_union. right. by apply Hold.
Qed.

Lemma addDependency_ownersListed_witness :
  ownersListed
    (dependencies_ (addDependency "a.js" ["a"; "b"] ["c"]
                      (addDependency "b.js" ["b"] [] (initial (VObject []) EmptyString)))).
Proof.
  apply (addDependency_ownersListed "a.js" ["a"; "b"] ["c"]
           (addDependency "b.js" ["b"] [] (initial (VObject []) EmptyString))).
  intros n p H.
  change (nameToPath (dependencies_ (addDependency "b.js" ["b"] []
                                       (initial (VObject []) EmptyString))))
    with ({["b" := "b.js"]} : gmap string string) in H.
  apply lookup_singleton_Some in H as [<- <-].
  assert (default ∅ (pathToNames (dependencies_ (addDependency "b.js" ["b"] []
                                    (initial (VObject []) EmptyString))) !! "b.js")
          = ({["b"]} : gset string)) as -> by (vm_compute; reflexivity).
  apply elem_of_singleton. reflexivity.
Defined.

Lemma replaceBackslashes_idemp s :
  Str.replaceBackslashes (Str.replaceBackslashes s) = Str.replaceBackslashes s.
Proof.
  induction s as [|c s IH]; [done|]. cbn. rewrite IH. f_equal.
  destruct (Ascii.eqb c "092"%char) eqn:E; [done|]. by rewrite E.
Qed.

Lemma untilFalsy_app_empty a b :
  untilFalsy (a ++ EmptyString :: b) = untilFalsy a.
Proof.
  induction a as [|x a IH]; [done|]. cbn. by destruct (Str.truthy x); [rewrite IH|].
Qed.

(** X17. A path is registered with its backslashes turned into slashes:
    registering [relPath] and registering the path with slashes are the
    same registration, and the path recorded as owner of a name has no
    backslash. *)
Theorem addDependency_backslashes (relPath : string)
    (provides requires_ : list string) (g : Goog) :
  addDependency (Str.replaceBackslashes relPath) provides requires_ g
  = addDependency relPath provides requires_ g
  ∧ ∀ n p, n ∈ untilFalsy provides →
           getPathFromDeps_ n (addDependency relPath provides requires_ g) = Some p →
           Str.replaceBackslashes p = p.
Proof.
  split.
  - unfold addDependency. by rewrite replaceBackslashes_idemp.
  - intros n p Hn. unfold getPathFromDeps_, addDependency.
    cbn [dependencies_ set_dependencies_].
    rewrite foldl_addRequire_nameToPath, foldl_addProvide_nameToPath.
    rewrite decide_True by done. intros [= <-]. apply replaceBackslashes_idemp.
Qed.

(** X18. The lists of a registration end at their first empty name: what
    comes after an empty string in [provides] or in [requires] is not
    registered. *)
Theorem addDependency_stops_at_empty (relPath : string)
    (provides provides' requires_ requires' : list string) (g : Goog) :
  addDependency relPath (provides ++ EmptyString :: provides')
    (requires_ ++ EmptyString :: requires') g
  = addDependency relPath provides requires_ g.
Proof. unfold addDependency. by rewrite !untilFalsy_app_empty. Qed.

(** ** Unique ids *)


Lemma has_prop_store_prop part v props :
  has_prop part (store_prop part v props) = true.
Proof.
  induction props as [|[k w] props IH]; cbn.
  - by rewrite String.eqb_refl.
  - destruct (String.eqb k part) eqn:E; cbn; rewrite E; [done|]. apply IH.
Qed.

Lemma lookup_prop_absent part props :
  has_prop part props = false → lookup_prop part props = VUndefined.
Proof.
  induction props as [|[k w] props IH]; cbn; [done|].
  destruct (String.eqb k part); [done|]. apply IH.
Qed.

Section uids.

Variable UID : string.


Lemma readChain_absent st chain :
  forallb (λ p, negb (has_prop UID (propsOf st p))) chain = true →
  readChain st UID chain = VUndefined.
Proof.
  induction chain as [|p chain IH]; cbn; [done|].
  intros H. apply andb_true_iff in H as [Hp H]. apply negb_true_iff in Hp.
  rewrite Hp. by apply IH.
Qed.

(** An object whose prototypes have no uid reads its own. *)
Lemma read_own st obj :
  inheritsNoUid UID st obj = true → read st obj UID = uidOf UID st obj.
Proof.
  unfold inheritsNoUid, read, uidOf. cbn. intros H.
  destruct (has_prop _ (propsOf st obj)) eqn:E; [done|].
  rewrite (lookup_prop_absent _ _ E). by apply readChain_absent.
Qed.

Lemma getUid_old obj st :
  truthy (read st obj UID) = true → getUid UID obj st = (read st obj UID, st).
Proof. intros H. unfold getUid. by rewrite H. Qed.

Lemma getUid_new obj st :
  truthy (read st obj UID) = false →
  getUid UID obj st
  = (VNumber (increment (uidCounter_ st)),
     mkUids (<[obj := store_prop UID (VNumber (increment (uidCounter_ st)))
                        (propsOf st obj)]> (objects st))
            (prototypes st) (increment (uidCounter_ st))).
Proof. intros H. unfold getUid. by rewrite H. Qed.

Lemma getUid_prototypes obj st o :
  ancestors (getUid UID obj st).2 o = ancestors st o.
Proof. unfold getUid. by destruct (truthy _). Qed.

Lemma getUid_propsOf_ne obj st o :
  o ≠ obj → propsOf (getUid UID obj st).2 o = propsOf st o.
Proof.
  intros Hne. unfold getUid. destruct (truthy _); [done|].
  unfold propsOf. cbn. by rewrite lookup_insert_ne.
Qed.

(** What a call of [goog.getUid] leaves in the store. *)
Lemma getUid_uidOf_ne obj st o :
  o ≠ obj → uidOf UID (getUid UID obj st).2 o = uidOf UID st o.
Proof. intros Hne. unfold uidOf. by rewrite getUid_propsOf_ne. Qed.

Lemma getUid_uidOf_eq obj st :
  inheritsNoUid UID st obj = true →
  uidOf UID (getUid UID obj st).2 obj = (getUid UID obj st).1.
Proof.
  intros Hno. destruct (truthy (read st obj UID)) eqn:Ht.
  - rewrite getUid_old by done. cbn [fst snd]. by rewrite read_own.
  - rewrite getUid_new by done. unfold uidOf, propsOf. cbn.
    rewrite lookup_insert_eq. cbn. apply lookup_store_prop_eq.
Qed.

Lemma getUid_inheritsNoUid obj st o :
  obj ∉ ancestors st o →
  inheritsNoUid UID (getUid UID obj st).2 o = inheritsNoUid UID st o.
Proof.
  intros Hno. unfold inheritsNoUid. rewrite getUid_prototypes.
  induction (ancestors st o) as [|p chain IH]; cbn; [done|].
  rewrite getUid_propsOf_ne by set_solver. f_equal. apply IH. set_solver.
Qed.

Lemma getUid_truthy obj st :
  (0 ≤ uidCounter_ st)%Z → truthy (getUid UID obj st).1 = true.
Proof.
  intros Hc. destruct (truthy (read st obj UID)) eqn:Ht.
  - by rewrite getUid_old.
  - rewrite getUid_new by done. cbn. unfold increment.
    destruct (_ <? _)%Z eqn:E; apply negb_true_iff, Z.eqb_neq; [lia|].
    apply Z.ltb_ge in E. lia.
Qed.

Lemma getUid_counter obj st :
  (uidCounter_ st ≤ uidCounter_ (getUid UID obj st).2 ≤ uidCounter_ st + 1)%Z.
Proof.
  unfold getUid. destruct (truthy _); cbn; [lia|].
  unfold increment. destruct (_ <? _)%Z; lia.
Qed.

Lemma getUid_uidInv obj st :
  uidInv UID st → (uidCounter_ st < 2 ^ 53)%Z →
  uidInv UID (getUid UID obj st).2.
Proof.
  intros (Hc & Hrange & Hinj) Hroom.
  destruct (truthy (read st obj UID)) eqn:Ht.
  { by rewrite getUid_old. }
  assert (Hown : uidOf UID (getUid UID obj st).2 obj = VNumber (uidCounter_ st + 1)).
  { rewrite getUid_new by done. unfold uidOf, propsOf. cbn.
    rewrite lookup_insert_eq. cbn. rewrite lookup_store_prop_eq.
    unfold increment. by rewrite (proj2 (Z.ltb_lt _ _) Hroom). }
  assert (Hcnt : uidCounter_ (getUid UID obj st).2 = (uidCounter_ st + 1)%Z).
  { rewrite getUid_new by done. cbn.
    unfold increment. by rewrite (proj2 (Z.ltb_lt _ _) Hroom). }
  split; [|split].
  - lia.
  - intros o. rewrite Hcnt. destruct (decide (o = obj)) as [->|Hne].
    + rewrite Hown. intros _. eexists. split; [done|lia].
    + rewrite getUid_uidOf_ne by done.
      intros Ho. destruct (Hrange o Ho) as (k & -> & Hk). exists k. split; [done|lia].
  - intros o o'.
    destruct (decide (o = obj)) as [->|Ho], (decide (o' = obj)) as [->|Ho']; [done|..].
    + rewrite Hown, getUid_uidOf_ne by done.
      intros _ Heq. assert (Ht' : truthy (uidOf UID st o') = true).
      { rewrite <- Heq. cbn. apply negb_true_iff, Z.eqb_neq. lia. }
      destruct (Hrange o' Ht') as (k & Hk & ?). rewrite Hk in Heq.
      injection Heq as Heq. lia.
    + rewrite Hown, getUid_uidOf_ne by done.
      intros Ht' Heq. destruct (Hrange o Ht') as (k & Hk & ?). rewrite Hk in Heq.
      injection Heq as Heq. lia.
    + rewrite !getUid_uidOf_ne by done. apply Hinj.
Qed.

End uids.

Lemma noUids_uidInv UID : uidInv UID noUids.
Proof.
  split; [done|]. split.
  - intros o H. discriminate H.
  - intros o o' H. discriminate H.
Qed.



(** X19. The uid of an object does not change: once [goog.getUid] has
    answered for an object, a second call answers the same and leaves the
    store and the counter as they are. *)
Theorem getUid_stable (UID : string) (obj : positive) (st : Uids) :
  (0 ≤ uidCounter_ st)%Z →
  getUid UID obj (getUid UID obj st).2 = getUid UID obj st.
Proof.
  intros Hc. destruct (truthy (read st obj UID)) eqn:Ht.
  - rewrite (getUid_old UID obj st Ht). cbn. by apply getUid_old.
  - pose proof (getUid_truthy UID obj st Hc) as Hv.
    rewrite (getUid_new UID obj st Ht) in *. cbn in *.
    set (n := increment (uidCounter_ st)) in *.
    set (st1 := mkUids _ _ _).
    assert (Hread : read st1 obj UID = VNumber n).
    { unfold read. cbn [readChain]. unfold propsOf, st1. cbn [objects].
      rewrite lookup_insert_eq. cbn [default from_option id].
      by rewrite has_prop_store_prop, lookup_store_prop_eq. }
    rewrite getUid_old by (by rewrite Hread). by rewrite Hread.
Qed.

Lemma getUid_stable_witness :
  getUid "closure_uid_x" 1 (getUid "closure_uid_x" 1 noUids).2
  = getUid "closure_uid_x" 1 noUids.
Proof. apply (getUid_stable "closure_uid_x" 1 noUids). cbn. lia. Defined.

(** X20. Two objects that inherit no uid never get the same one. In a
    store whose uids were handed out by the counter, with the counter at
    least two steps below [2^53], for two different objects [a] and [b]
    none of whose prototypes has the uid property and with [a] not among
    the prototypes of [b], the answers of [goog.getUid] differ, and the
    store is again one whose uids were handed out by the counter. *)
Theorem getUid_distinct (UID : string) (a b : positive) (st : Uids) :
  uidInv UID st →
  (uidCounter_ st + 1 < 2 ^ 53)%Z →
  a ≠ b →
  inheritsNoUid UID st a = true →
  inheritsNoUid UID st b = true →
  a ∉ ancestors st b →
  (getUid UID a st).1 ≠ (getUid UID b (getUid UID a st).2).1
  ∧ uidInv UID (getUid UID b (getUid UID a st).2).2.
Proof.
  intros Hinv Hroom Hab Hna Hnb Hanc.
  pose proof (getUid_counter UID a st) as Hca.
  assert (Hinv1 : uidInv UID (getUid UID a st).2)
    by (apply getUid_uidInv; [done|lia]).
  assert (Hinv2 : uidInv UID (getUid UID b (getUid UID a st).2).2)
    by (apply getUid_uidInv; [done|lia]).
  split; [|done].
  pose proof (getUid_truthy UID a st ltac:(destruct Hinv; lia)) as Hta.
  assert (Hnb1 : inheritsNoUid UID (getUid UID a st).2 b = true)
    by (by rewrite getUid_inheritsNoUid).
  pose proof (getUid_uidOf_ne UID b (getUid UID a st).2 a Hab) as Hua.
  pose proof (getUid_uidOf_eq UID b (getUid UID a st).2 Hnb1) as Hub.
  rewrite (getUid_uidOf_eq UID a st Hna) in Hua.
  intros Heq. apply Hab.
  destruct Hinv2 as (_ & _ & Hinj). apply Hinj.
  - by rewrite Hua.
  - by rewrite Hua, Hub.
Qed.

Lemma getUid_distinct_witness :
  (getUid "closure_uid_x" 2 noUids).1
  ≠ (getUid "closure_uid_x" 3 (getUid "closure_uid_x" 2 noUids).2).1
  ∧ uidInv "closure_uid_x"
      (getUid "closure_uid_x" 3 (getUid "closure_uid_x" 2 noUids).2).2.
Proof.
  apply (getUid_distinct "closure_uid_x" 2 3 noUids).
  - split; [cbn; lia|]. split; intros o; intros; discriminate.
  - cbn. lia.
  - discriminate.
  - reflexivity.
  - reflexivity.
  - vm_compute. intros H. inversion H.
Defined.



(** X31. An object inherits the uid of its prototype, as the comment in
    [goog.getUid] says of [BaseClass.prototype] and [SubClass.prototype]:
    for an object that does not have the uid property itself and whose
    nearest prototype that has it holds a uid, [goog.getUid] answers the
    uid of that prototype and leaves the store and the counter as they
    are; so the object and the prototype, two objects, have the same
    uid. *)
Theorem getUid_inherited (UID : string) (obj p : positive) (st : Uids)
    (nearer further : list positive) :
  ancestors st obj = nearer ++ p :: further →
  forallb (λ q, negb (has_prop UID (propsOf st q))) (obj :: nearer) = true →
  has_prop UID (propsOf st p) = true →
  truthy (uidOf UID st p) = true →
  getUid UID obj st = (uidOf UID st p, st)
  ∧ (getUid UID p st).1 = uidOf UID st p.
Proof.
  intros Hanc Hnear Hp Ht.
  assert (Hread : read st obj UID = uidOf UID st p).
  { unfold read. rewrite Hanc.
    change (obj :: nearer ++ p :: further) with ((obj :: nearer) ++ p :: further).
    induction (obj :: nearer) as [|q chain IH]; cbn in *.
    - by rewrite Hp.
    - apply andb_true_iff in Hnear as [Hq Hnear]. apply negb_true_iff in Hq.
      rewrite Hq. by apply IH. }
  split.
  - rewrite getUid_old by (by rewrite Hread). by rewrite Hread.
  - assert (Hown : read st p UID = uidOf UID st p).
    { unfold read. cbn. by rewrite Hp. }
    rewrite getUid_old by (by rewrite Hown). done.
Qed.

Lemma getUid_inherited_witness :
  getUid "closure_uid_x" 2 (heirStore "closure_uid_x")
  = (uidOf "closure_uid_x" (heirStore "closure_uid_x") 1, heirStore "closure_uid_x")
  ∧ (getUid "closure_uid_x" 1 (heirStore "closure_uid_x")).1
    = uidOf "closure_uid_x" (heirStore "closure_uid_x") 1.
Proof.
  apply (getUid_inherited "closure_uid_x" 2 1 (heirStore "closure_uid_x") [] []).
  - reflexivity.
  - reflexivity.
  - reflexivity.
  - reflexivity.
Defined.

(** ** Copied properties *)

Lemma has_prop_elem k (props : list (string * value)) :
  has_prop k props = true ↔ k ∈ map fst props.
Proof.
  induction props as [|[k' v] props IH]; cbn.
  - split; [done|]. intros H. by apply elem_of_nil in H.
  - rewrite orb_true_iff, IH, elem_of_cons, String.eqb_eq. naive_solver.
Qed.

Lemma mixin_keys (source tprops : list (string * value)) (ks : list string) :
  ∃ rprops,
    foldl (λ t x, t ≫= λ t, assign t x (lookup_prop x source))
          (Some (VObject tprops)) ks = Some (VObject rprops)
    ∧ ∀ k, lookup_prop k rprops
           = if decide (k ∈ ks) then lookup_prop k source else lookup_prop k tprops.
Proof.
  revert tprops. induction ks as [|x ks IH]; intros tprops; cbn [foldl].
  { exists tprops. split; [done|]. intros k.
    rewrite decide_False; [done|]. apply not_elem_of_nil. }
  cbn [mbind option_bind assign set].
  destruct (IH (store_prop x (lookup_prop x source) tprops)) as (rprops & -> & Hr).
  exists rprops. split; [done|]. intros k. rewrite Hr.
  destruct (decide (k ∈ ks)) as [Hin|Hin].
  - rewrite decide_True; [done|]. apply elem_of_cons. by right.
  - destruct (decide (k = x)) as [->|Hne].
    + rewrite decide_True by (apply elem_of_cons; by left).
      apply lookup_store_prop_eq.
    + rewrite decide_False by (rewrite elem_of_cons; naive_solver).
      by apply lookup_store_prop_ne.
Qed.

Lemma mixin_object (props source : list (string * value)) :
  ∃ r, mixin (VObject props) source = Some r
       ∧ ∀ k, get r k = if has_prop k source then lookup_prop k source
                        else lookup_prop k props.
Proof.
  unfold mixin.
  destruct (mixin_keys source props (map fst source)) as (rprops & -> & Hr).
  eexists. split; [done|]. intros k. cbn [get]. rewrite Hr.
  destruct (has_prop k source) eqn:Hk.
  - apply has_prop_elem in Hk. by rewrite decide_True.
  - rewrite decide_False; [done|]. intros Hin%has_prop_elem. congruence.
Qed.

(** X26. [goog.mixin] copies every property that the enumeration of the
    source gives and touches nothing else: on a target that is an object
    the call returns, and a property of the target afterwards reads as in
    the source when the enumeration has it, and as in the target before
    otherwise; on a target that is a boolean, a number or a string the
    call returns and leaves the target as it is; on [undefined] and
    [null] the call raises a TypeError, unless the enumeration of the
    source is empty. The same holds for the global object after
    [goog.globalize]. *)
Theorem mixin_get (target : value) (source : list (string * value)) (g : Goog) :
  (∀ props, target = VObject props →
     ∃ r, mixin target source = Some r
          ∧ ∀ k, get r k = if has_prop k source then lookup_prop k source
                           else get target k)
  ∧ ((∀ props, target ≠ VObject props) → target ≠ VUndefined → target ≠ VNull →
     mixin target source = Some target)
  ∧ (target = VUndefined ∨ target = VNull →
     mixin target source = match source with [] => Some target | _ => None end)
  ∧ (∀ props, global g = VObject props →
       ∃ g', globalize source g = Some g'
             ∧ ∀ k, get (global g') k
                    = if has_prop k source then lookup_prop k source
                      else get (global g) k).
Proof.
  split_and!.
  - intros props ->. apply mixin_object.
  - intros Hobj Hu Hn. unfold mixin.
    induction (map fst source) as [|x ks IH]; [done|]. cbn [foldl].
    destruct target; try done. by destruct (Hobj props).
  - intros Hnone. unfold mixin. destruct source as [|[x v] source]; [done|].
    cbn [map fst foldl].
    assert (Hstep : Some target ≫= (λ t, assign t x (lookup_prop x ((x, v) :: source)))
                    = None) by (by destruct Hnone as [-> | ->]).
    rewrite Hstep. clear. induction (map fst source) as [|y ks IH]; [done|].
    cbn [foldl]. apply IH.
  - intros props Hglob. unfold globalize. rewrite Hglob.
    destruct (mixin_object props source) as (r & -> & Hr).
    eexists. split; [done|]. intros k. cbn [global set_global]. apply Hr.
Qed.

(** ** The base path of the library *)

Lemma lastIndexOfChar_ge c s : (-1 ≤ lastIndexOfChar c s)%Z.
Proof.
  induction s as [|x r IH]; cbn [lastIndexOfChar]; [lia|].
  destruct (0 <=? lastIndexOfChar c r)%Z; [lia|].
  destruct (Ascii.eqb x c); lia.
Qed.

Lemma length_append a b :
  String.length (String.append a b) = (String.length a + String.length b)%nat.
Proof.
  induction a as [|x a IH]; [done|].
  change (String.append (String x a) b) with (String x (String.append a b)).
  cbn [String.length]. by rewrite IH.
Qed.

Lemma lastIndexOfChar_app c a b :
  lastIndexOfChar c (String.append a b)
  = if (0 <=? lastIndexOfChar c b)%Z
    then (Z.of_nat (String.length a) + lastIndexOfChar c b)%Z
    else lastIndexOfChar c a.
Proof.
  induction a as [|x a IH].
  - change (String.append EmptyString b) with b. cbn [String.length lastIndexOfChar].
    pose proof (lastIndexOfChar_ge c b).
    destruct (Z.leb_spec 0 (lastIndexOfChar c b)); lia.
  - change (String.append (String x a) b) with (String x (String.append a b)).
    cbn [lastIndexOfChar String.length]. rewrite IH. destruct (Z.leb_spec 0 (lastIndexOfChar c b)); [|done].
    rewrite (proj2 (Z.leb_le _ _)) by lia. lia.
Qed.

Lemma substring_app_skip a b n m :
  String.substring (String.length a + n) m (String.append a b)
  = String.substring n m b.
Proof.
  induction a as [|x a IH]; [done|].
  change (String.append (String x a) b) with (String x (String.append a b)).
  cbn [String.length Nat.add String.substring]. apply IH.
Qed.

Lemma substring_app_prefix a b :
  String.substring 0 (String.length a) (String.append a b) = a.
Proof.
  induction a as [|x a IH]; [by destruct b|].
  change (String.append (String x a) b) with (String x (String.append a b)).
  cbn [String.length String.substring]. by rewrite IH.
Qed.

(** X28. [goog.findBasePath_] takes the directory of base.js from the
    last script element. Without [CLOSURE_BASE_PATH], in an HTML document
    whose last script has the source [base] followed by [base.js] and
    then nothing or a query, with no question mark in [base] and none in
    the query after its first character, [goog.basePath] becomes [base]
    and nothing else changes. *)
Theorem findBasePath__last_script (scripts : list string) (base query : string)
    (g : Goog) :
  truthy (get (global g) "CLOSURE_BASE_PATH") = false →
  inHtmlDocument_ g = Some true →
  lastIndexOfChar "?"%char base = (-1)%Z →
  query = EmptyString
  ∨ (∃ q, query = String "?"%char q ∧ lastIndexOfChar "?"%char q = (-1)%Z) →
  findBasePath_
    (scripts ++ [String.append base (String.append "base.js" query)]) g
  = Some (set_basePath base g).
Proof.
  intros Hbase Hhtml Hnoq Hquery. unfold findBasePath_.
  rewrite Hbase, Hhtml, rev_unit. cbn [findBasePath_loop].
  set (src := String.append base (String.append "base.js" query)).
  assert (Hl : (if (lastIndexOfChar "?"%char src =? -1)%Z
                then Z.of_nat (String.length src)
                else lastIndexOfChar "?"%char src)
               = (Z.of_nat (String.length base) + 7)%Z).
  { assert (Hlen : String.length src = (String.length base + 7 + String.length
                                           (match query with
                                            | EmptyString => EmptyString
                                            | String _ q => String "?"%char q
                                            end))%nat).
    { unfold src. rewrite !length_append.
      destruct Hquery as [->|(q & -> & _)]; cbn; lia. }
    assert (Hq : lastIndexOfChar "?"%char src
                 = match query with
                   | EmptyString => (-1)%Z
                   | String _ _ => (Z.of_nat (String.length base) + 7)%Z
                   end).
    { unfold src. rewrite lastIndexOfChar_app.
      destruct Hquery as [->|(q & -> & Hq)].
      - change (lastIndexOfChar "?"%char (String.append "base.js" EmptyString))
          with (-1)%Z.
        by rewrite (proj2 (Z.leb_gt 0 (-1)) ltac:(lia)).
      - rewrite (lastIndexOfChar_app _ "base.js").
        assert (Hq0 : lastIndexOfChar "?"%char (String "?"%char q) = 0%Z).
        { cbn [lastIndexOfChar]. rewrite Hq. reflexivity. }
        rewrite Hq0. change (0 <=? 0)%Z with true. cbv iota.
        change (Z.of_nat (String.length "base.js") + 0)%Z with 7%Z.
        change (0 <=? 7)%Z with true. cbv iota. reflexivity. }
    rewrite Hq, Hlen.
    destruct Hquery as [->|(q & -> & _)].
    - rewrite Z.eqb_refl. cbn [String.length]. lia.
    - destruct (Z.eqb_spec (Z.of_nat (String.length base) + 7) (-1)); lia. }
  rewrite Hl.
  assert (Hsize : (Z.of_nat (String.length base) + 7
                   ≤ Z.of_nat (String.length src))%Z).
  { unfold src. rewrite !length_append. cbn. lia. }
  assert (Hname : substr src (Z.of_nat (String.length base) + 7 - 7) 7 = "base.js").
  { unfold substr. rewrite (proj2 (Z.ltb_ge _ _)) by lia.
    rewrite Z.min_l by lia. rewrite Z.max_l by lia. rewrite Z.min_l by lia.
    replace (Z.to_nat (Z.of_nat (String.length base) + 7 - 7))
      with (String.length base + 0)%nat by lia.
    unfold src. rewrite substring_app_skip.
    change (Z.to_nat 7) with (String.length "base.js").
    apply substring_app_prefix. }
  assert (Hpath : substr src 0 (Z.of_nat (String.length base) + 7 - 7) = base).
  { unfold substr. cbn [Z.ltb Z.compare]. rewrite Z.min_l by lia.
    rewrite Z.max_l by lia. rewrite Z.min_l by lia.
    replace (Z.to_nat (Z.of_nat (String.length base) + 7 - 7))
      with (String.length base) by lia.
    apply substring_app_prefix. }
  by rewrite Hname, Hpath.
Qed.

Lemma findBasePath__last_script_witness :
  findBasePath_
    (["lib/other.js"]
     ++ [String.append "closure/goog/" (String.append "base.js" "?v=2")])
    (initial (VObject [("document", VObject [("write", VObject [])])]) EmptyString)
  = Some (set_basePath "closure/goog/"
            (initial (VObject [("document", VObject [("write", VObject [])])])
               EmptyString)).
Proof.
  apply (findBasePath__last_script ["lib/other.js"] "closure/goog/" "?v=2").
  - reflexivity.
  - reflexivity.
  - reflexivity.
  - right. exists "v=2". split; reflexivity.
Defined.

(** ** Renamed CSS names *)

Lemma append_cons x a b :
  String.append (String x a) b = String x (String.append a b).
Proof. reflexivity. Qed.

Lemma append_assoc a b c :
  String.append (String.append a b) c = String.append a (String.append b c).
Proof.
  induction a as [|x a IH]; [done|]. rewrite !append_cons. by rewrite IH.
Qed.

Lemma splitOn_nonempty c s : splitOn c s ≠ [].
Proof.
  destruct s as [|x r]; cbn; [done|].
  destruct (Ascii.eqb x c); [done|]. by destruct (splitOn c r).
Qed.

Lemma splitOn_app c a b :
  splitOn c (String.append a (String c b)) = splitOn c a ++ splitOn c b.
Proof.
  induction a as [|x a IH].
  - change (String.append EmptyString (String c b)) with (String c b).
    cbn. by rewrite Ascii.eqb_refl.
  - rewrite append_cons. cbn [splitOn]. rewrite IH.
    destruct (Ascii.eqb x c); [done|].
    pose proof (splitOn_nonempty c a). by destruct (splitOn c a).
Qed.

Lemma join_cons sep x rest :
  rest ≠ [] → join sep (x :: rest) = String.append x (String.append sep (join sep rest)).
Proof. by destruct rest. Qed.

Lemma join_app sep l1 l2 :
  l1 ≠ [] → l2 ≠ [] →
  join sep (l1 ++ l2)
  = String.append (join sep l1) (String.append sep (join sep l2)).
Proof.
  intros H1 H2. induction l1 as [|x l1 IH]; [done|].
  destruct l1 as [|y l1].
  - cbn [app]. by rewrite join_cons.
  - rewrite <- app_comm_cons. rewrite join_cons by done.
    rewrite IH by done. rewrite (join_cons sep x (y :: l1)) by done.
    by rewrite !append_assoc.
Qed.

Lemma join_splitOn c s : join (String c EmptyString) (splitOn c s) = s.
Proof.
  induction s as [|x r IH]; [done|]. cbn [splitOn].
  destruct (Ascii.eqb x c) eqn:E.
  - apply Ascii.eqb_eq in E as ->.
    rewrite join_cons by apply splitOn_nonempty. by rewrite IH.
  - pose proof (splitOn_nonempty c r) as Hne.
    destruct (splitOn c r) as [|h [|h' t]]; [done| |].
    + cbn in *. by rewrite IH.
    + rewrite join_cons by done. rewrite join_cons in IH by done.
      rewrite append_cons. by rewrite IH.
Qed.

Lemma mapParts_app mapping l1 l2 :
  mapParts mapping (l1 ++ l2)
  = m1 ← mapParts mapping l1; m2 ← mapParts mapping l2; Some (m1 ++ m2).
Proof.
  induction l1 as [|x l1 IH]; cbn.
  - by destruct (mapParts mapping l2).
  - destruct (getMapping mapping x); [|done]. cbn. rewrite IH.
    destruct (mapParts mapping l1); [|done]. cbn.
    by destruct (mapParts mapping l2).
Qed.

Lemma mapParts_nonempty mapping l m :
  mapParts mapping l = Some m → l ≠ [] → m ≠ [].
Proof.
  destruct l as [|x l]; [done|]. cbn. intros H _.
  destruct (getMapping mapping x); [|done]. cbn in H.
  destruct (mapParts mapping l); [|done]. cbn in H. by injection H as <-.
Qed.

Lemma mapParts_fixed mapping l :
  (∀ x, x ∈ l → getMapping mapping x = Some x) → mapParts mapping l = Some l.
Proof.
  induction l as [|x l IH]; intros Hf; [done|]. cbn.
  rewrite Hf by (apply elem_of_cons; by left). cbn.
  rewrite IH; [done|]. intros y Hy. apply Hf, elem_of_cons. by right.
Qed.

(** X29. Renaming by parts goes through the dashes. With a mapping set in
    a style other than [BY_WHOLE], [goog.getCssName] of two names joined
    by a dash is the dash-joined result for the two names, when both
    results are strings, and is no string when one of them is none; and a
    name each of whose parts [getMapping] answers with the part itself
    comes back unchanged. *)
Theorem getCssName_by_parts (mapping : gmap string string)
    (opt_style : option string) (a b s : string) :
  opt_style ≠ Some "BY_WHOLE" →
  getCssName (setCssNameMapping mapping opt_style)
    (String.append a (String "-"%char b)) None
  = (ra ← getCssName (setCssNameMapping mapping opt_style) a None;
     rb ← getCssName (setCssNameMapping mapping opt_style) b None;
     Some (String.append ra (String "-"%char rb)))
  ∧ ((∀ part, part ∈ splitOn "-"%char s → getMapping mapping part = Some part) →
     getCssName (setCssNameMapping mapping opt_style) s None = Some s).
Proof.
  intros Hstyle. unfold getCssName, setCssNameMapping.
  cbn [cssNameMapping_ cssNameMappingStyle_]. rewrite decide_False by done.
  unfold renameByParts. split.
  - rewrite splitOn_app, mapParts_app.
    destruct (mapParts mapping (splitOn "-" a)) as [ma|] eqn:Ea; [|done].
    destruct (mapParts mapping (splitOn "-" b)) as [mb|] eqn:Eb; [|done].
    cbn [mbind option_bind fmap option_fmap option_map]. f_equal.
    apply join_app.
    + apply (mapParts_nonempty _ _ _ Ea). intros H. by apply splitOn_nonempty in H.
    + apply (mapParts_nonempty _ _ _ Eb). intros H. by apply splitOn_nonempty in H.
  - intros Hparts.
    rewrite mapParts_fixed by done. cbn [fmap option_fmap option_map].
    f_equal. apply join_splitOn.
Qed.

Lemma getCssName_by_parts_witness :
  getCssName (setCssNameMapping {["goog" := "a"; "button" := "b"]} None)
    (String.append "goog" (String "-"%char "button")) None
  = (ra ← getCssName (setCssNameMapping {["goog" := "a"; "button" := "b"]} None)
            "goog" None;
     rb ← getCssName (setCssNameMapping {["goog" := "a"; "button" := "b"]} None)
            "button" None;
     Some (String.append ra (String "-"%char rb)))
  ∧ ((∀ part, part ∈ splitOn "-"%char "x-y" →
              getMapping {["goog" := "a"; "button" := "b"]} part = Some part) →
     getCssName (setCssNameMapping {["goog" := "a"; "button" := "b"]} None)
       "x-y" None = Some "x-y").
Proof.
  apply (getCssName_by_parts {["goog" := "a"; "button" := "b"]} None
           "goog" "button" "x-y").
  discriminate.
Defined.

(** * Properties of array.js *)

(** ** Binary search *)

Lemma toInt32_small n : (0 ≤ n < 2 ^ 31)%Z → array.toInt32 n = n.
Proof.
  intros Hn. unfold array.toInt32. pow2.
  rewrite Z.mod_small by lia. lia.
Qed.

Lemma middle_between left right :
  (0 ≤ left < right)%Z → (right < 2 ^ 30)%Z →
  (left ≤ Z.shiftr (array.toInt32 (left + right)) 1 < right)%Z.
Proof.
  intros Hl Hr. rewrite toInt32_small by (pow2; lia).
  rewrite Z.shiftr_div_pow2 by lia. change (2 ^ 1)%Z with 2%Z.
  split; [apply Z.div_le_lower_bound|apply Z.div_lt_upper_bound]; lia.
Qed.

Section search.

Context {A : Type}.
Variable undefined : A.

(** The loop of [goog.array.binarySearch_] on an array that the compare
    results split at [p]: positive below [p], not positive from [p] on. *)
Lemma binarySearch_loop_spec (arr : list A) (cr : A → Z → list A → Z) (p : Z)
    fuel left right found :
  (Z.of_nat (length arr) < 2 ^ 30)%Z →
  (∀ i, (0 ≤ i < p)%Z → (0 < cr (array.at_ undefined arr i) i arr)%Z) →
  (∀ i, (p ≤ i < Z.of_nat (length arr))%Z →
        (cr (array.at_ undefined arr i) i arr ≤ 0)%Z) →
  (0 ≤ left ≤ p)%Z → (p ≤ right ≤ Z.of_nat (length arr))%Z →
  (right - left < Z.of_nat fuel)%Z →
  (if decide (right = Z.of_nat (length arr)) then found = false
   else found = (cr (array.at_ undefined arr right) right arr =? 0)%Z) →
  array.binarySearch_loop undefined fuel arr cr left right found
  = Some (if decide (p < Z.of_nat (length arr)
                     ∧ cr (array.at_ undefined arr p) p arr = 0)%Z
          then p else (- p - 1)%Z).
Proof.
  intros Hlen Hpos Hneg. revert left right found.
  assert (Hlen' : (Z.of_nat (length arr) < 2 ^ 31)%Z) by (pow2; lia).
  induction fuel as [|fuel IH]; intros left right found Hl Hr Hfuel Hfound; [lia|].
  cbn [array.binarySearch_loop].
  destruct (left <? right)%Z eqn:Hlt.
  - apply Z.ltb_lt in Hlt.
    pose proof (middle_between left right ltac:(lia) ltac:(lia)) as Hmid.
    set (middle := Z.shiftr (array.toInt32 (left + right)) 1) in *.
    destruct (cr (array.at_ undefined arr middle) middle arr >? 0)%Z eqn:Hc.
    + apply Z.gtb_lt in Hc.
      assert (middle < p)%Z.
      { destruct (decide (middle < p)%Z); [done|].
        specialize (Hneg middle ltac:(lia)). lia. }
      apply IH; [lia..|done].
    + assert (Hc' : (cr (array.at_ undefined arr middle) middle arr ≤ 0)%Z).
      { destruct (Z.gtb_spec (cr (array.at_ undefined arr middle) middle arr) 0);
          [done|lia]. }
      assert (p ≤ middle)%Z.
      { destruct (decide (p ≤ middle)%Z); [done|].
        specialize (Hpos middle ltac:(lia)). lia. }
      apply IH; [lia..|].
      rewrite decide_False by lia. done.
  - apply Z.ltb_ge in Hlt. assert (left = p) as -> by lia.
    assert (right = p) as -> by lia. f_equal.
    destruct (decide (p = Z.of_nat (length arr))) as [Hp|Hp].
    + subst found. rewrite decide_False by lia.
      rewrite toInt32_small by lia. unfold Z.lnot. lia.
    + subst found.
      destruct (Z.eqb_spec (cr (array.at_ undefined arr p) p arr) 0) as [Hz|Hz].
      * rewrite decide_True; [done|]. split; [lia|done].
      * rewrite decide_False by tauto.
        rewrite toInt32_small by lia. unfold Z.lnot. lia.
Qed.

Lemma binarySearch__spec (arr : list A) (cr : A → Z → list A → Z) (p : Z) :
  (Z.of_nat (length arr) < 2 ^ 30)%Z →
  (0 ≤ p ≤ Z.of_nat (length arr))%Z →
  (∀ i, (0 ≤ i < p)%Z → (0 < cr (array.at_ undefined arr i) i arr)%Z) →
  (∀ i, (p ≤ i < Z.of_nat (length arr))%Z →
        (cr (array.at_ undefined arr i) i arr ≤ 0)%Z) →
  array.binarySearch_ undefined arr cr
  = Some (if decide (p < Z.of_nat (length arr)
                     ∧ cr (array.at_ undefined arr p) p arr = 0)%Z
          then p else (- p - 1)%Z).
Proof.
  intros Hlen Hp Hpos Hneg. unfold array.binarySearch_.
  apply binarySearch_loop_spec; [done..|lia|lia|lia|].
  by rewrite decide_True.
Qed.

End search.

(** X22. [goog.array.binarySelect] on an array of fewer than [2^30]
    elements that the evaluator splits at [p], with positive results
    below [p] and results that are not positive from [p] on: the search
    ends and returns [p] when the result at [p] is zero, which is then
    the lowest index with a zero result, and [-p - 1], that is [~p], the
    insertion point, otherwise. *)
Theorem binarySelect_partition {A : Type} (undefined : A) (arr : list A)
    (evaluator : A → Z → list A → Z) (p : Z) :
  (Z.of_nat (length arr) < 2 ^ 30)%Z →
  (0 ≤ p ≤ Z.of_nat (length arr))%Z →
  (∀ i, (0 ≤ i < p)%Z → (0 < evaluator (array.at_ undefined arr i) i arr)%Z) →
  (∀ i, (p ≤ i < Z.of_nat (length arr))%Z →
        (evaluator (array.at_ undefined arr i) i arr ≤ 0)%Z) →
  array.binarySelect undefined arr evaluator
  = Some (if decide (p < Z.of_nat (length arr)
                     ∧ evaluator (array.at_ undefined arr p) p arr = 0)%Z
          then p else (- p - 1)%Z).
Proof. apply binarySearch__spec. Qed.

Lemma binarySelect_partition_witness :
  array.binarySelect 0%Z [10; 20; 30]%Z (λ x _ _, 20 - x)%Z
  = Some (if decide (1 < Z.of_nat (length [10; 20; 30]%Z)
                     ∧ (λ x (_ : Z) (_ : list Z), 20 - x)
                         (array.at_ 0 [10; 20; 30] 1) 1 [10; 20; 30] = 0)%Z
          then 1 else (- 1 - 1))%Z.
Proof.
  apply (binarySelect_partition 0%Z [10; 20; 30]%Z (λ x _ _, 20 - x)%Z 1).
  - cbn. lia.
  - cbn. lia.
  - intros i Hi. assert (i = 0)%Z as -> by lia. by vm_compute.
  - intros i Hi. cbn in Hi.
    assert (i = 1 ∨ i = 2)%Z as [-> | ->] by lia; by vm_compute.
Defined.

(** ** Sorted arrays of numbers *)

Lemma defaultCompare_pos a b :
  (0 < array.defaultCompare Z.ltb a b)%Z ↔ (b < a)%Z.
Proof.
  unfold array.defaultCompare.
  destruct (Z.ltb_spec b a), (Z.ltb_spec a b); lia.
Qed.

Lemma defaultCompare_zero a b :
  array.defaultCompare Z.ltb a b = 0%Z ↔ a = b.
Proof.
  unfold array.defaultCompare.
  destruct (Z.ltb_spec b a), (Z.ltb_spec a b); lia.
Qed.

Lemma ordered_le strict a b : ordered strict a b → (a ≤ b)%Z.
Proof. destruct strict; cbn; lia. Qed.

Lemma lt_ordered strict a b : (a < b)%Z → ordered strict a b.
Proof. destruct strict; cbn; lia. Qed.

Lemma ordered_trans strict a b c :
  ordered strict a b → ordered strict b c → ordered strict a c.
Proof. destruct strict; cbn; lia. Qed.

Lemma isSorted_loop_iff strict x rest :
  array.isSorted_loop (array.defaultCompare Z.ltb) strict x rest = true
  ↔ StronglySorted (ordered strict) (x :: rest).
Proof.
  revert x. induction rest as [|y rest IH]; intros x; cbn [array.isSorted_loop].
  { split; [|done]. intros _. repeat constructor. }
  rewrite (StronglySorted_cons _ (y :: rest) x), Forall_cons.
  pose proof (defaultCompare_pos x y) as Hpos.
  pose proof (defaultCompare_zero x y) as Hzero.
  destruct (Z.gtb_spec (array.defaultCompare Z.ltb x y) 0) as [Hgt|Hle];
    cbn [orb].
  { split; [done|]. intros [[Hxy _] _]. apply ordered_le in Hxy. lia. }
  assert (Hstep : ordered strict x y →
            (array.isSorted_loop (array.defaultCompare Z.ltb) strict y rest = true
             ↔ (ordered strict x y ∧ Forall (ordered strict x) rest)
               ∧ StronglySorted (ordered strict) (y :: rest))).
  { intros Hxy. rewrite IH. split; [|by intros [_ ?]]. intros Hs.
    split_and!; [done| |done].
    apply StronglySorted_cons in Hs as [Hall _].
    eapply Forall_impl; [exact Hall|]. intros z Hz.
    by eapply ordered_trans. }
  destruct (Z.eqb_spec (array.defaultCompare Z.ltb x y) 0) as [Hz|Hnz];
    cbn [andb orb].
  - apply Hzero in Hz as ->. destruct strict.
    + split; [done|]. intros [[Hyy _] _]. cbn in Hyy. lia.
    + apply Hstep. cbn. lia.
  - apply Hstep, lt_ordered. lia.
Qed.

(** [goog.array.isSorted] with the default comparison says that the
    numbers are in order. *)
Lemma isSorted_iff strict arr :
  array.isSorted Z.ltb arr None strict = true
  ↔ StronglySorted (ordered strict) arr.
Proof.
  destruct arr as [|x rest]; cbn [array.isSorted default].
  - split; [constructor|done].
  - apply isSorted_loop_iff.
Qed.

Lemma StronglySorted_ordered_le strict arr :
  StronglySorted (ordered strict) arr → StronglySorted Z.le arr.
Proof.
  induction 1 as [|x l _ IH Hall]; constructor; [done|].
  eapply Forall_impl; [exact Hall|]. intros y. apply ordered_le.
Qed.

(** A sorted array splits into the numbers below [t] and the others. *)
Lemma sorted_partition t arr :
  StronglySorted Z.le arr →
  ∃ p, (p ≤ length arr)%nat
       ∧ Forall (λ x, x < t)%Z (take p arr)
       ∧ Forall (λ x, t ≤ x)%Z (drop p arr).
Proof.
  induction 1 as [|x l Hs IH Hall].
  { exists 0%nat. by split_and!. }
  destruct (decide (x < t)%Z) as [Hx|Hx].
  - destruct IH as (p & Hp & Hlow & Hhigh). exists (S p). cbn.
    split_and!; [lia|by constructor|done].
  - exists 0%nat. cbn. split_and!; [lia|done|].
    constructor; [lia|]. eapply Forall_impl; [exact Hall|]. intros y. cbn. lia.
Qed.

Lemma at_lookup undefined (arr : list Z) (i : nat) x :
  arr !! i = Some x → array.at_ undefined arr (Z.of_nat i) = x.
Proof.
  intros Hi. unfold array.at_.
  destruct (Z.ltb_spec (Z.of_nat i) 0); [lia|].
  rewrite Nat2Z.id. by apply nth_lookup_Some.
Qed.

(** The result of [goog.array.binarySearch] with the default comparison
    on a sorted array of numbers, in terms of the split of the array at
    the target. *)
Lemma binarySearch_Z_spec undefined (arr : list Z) (target : Z) :
  (Z.of_nat (length arr) < 2 ^ 30)%Z →
  StronglySorted Z.le arr →
  ∃ p, (p ≤ length arr)%nat
       ∧ Forall (λ x, x < target)%Z (take p arr)
       ∧ Forall (λ x, target ≤ x)%Z (drop p arr)
       ∧ array.binarySearch undefined Z.ltb arr target None
         = Some (if decide (arr !! p = Some target) then Z.of_nat p
                 else (- Z.of_nat p - 1)%Z).
Proof.
  intros Hlen Hs. destruct (sorted_partition target arr Hs) as (p & Hp & Hlow & Hhigh).
  exists p. split_and!; [done..|].
  unfold array.binarySearch. cbn [default].
  rewrite (binarySearch__spec undefined arr _ (Z.of_nat p)); [|done|lia|..].
  - f_equal. destruct (decide (arr !! p = Some target)) as [Hfound|Hnot].
    + rewrite decide_True; [done|]. split.
      * apply lookup_lt_Some in Hfound. lia.
      * rewrite (at_lookup _ _ _ _ Hfound). by apply defaultCompare_zero.
    + rewrite decide_False; [done|]. intros [Hlt Hz]. apply Hnot.
      destruct (lookup_lt_is_Some_2 arr p ltac:(lia)) as [x Hx].
      rewrite (at_lookup _ _ _ _ Hx) in Hz.
      apply (proj1 (defaultCompare_zero _ _)) in Hz. by subst.
  - intros i Hi.
    destruct (lookup_lt_is_Some_2 arr (Z.to_nat i) ltac:(lia)) as [x Hx].
    rewrite <- (Z2Nat.id i) by lia. rewrite (at_lookup _ _ _ _ Hx).
    apply defaultCompare_pos.
    apply (Forall_lookup_1 _ _ (Z.to_nat i) x Hlow).
    rewrite lookup_take_lt by lia. done.
  - intros i Hi.
    destruct (lookup_lt_is_Some_2 arr (Z.to_nat i) ltac:(lia)) as [x Hx].
    rewrite <- (Z2Nat.id i) by lia. rewrite (at_lookup _ _ _ _ Hx).
    assert (Hge : (target ≤ x)%Z).
    { apply (Forall_lookup_1 _ _ (Z.to_nat i - p) x Hhigh).
      rewrite lookup_drop. rewrite <- Hx. f_equal. lia. }
    pose proof (defaultCompare_pos target x). lia.
Qed.

(** In a sorted array where the target is not at the split, everything
    from the split on is above the target. *)
Lemma sorted_not_found (arr : list Z) (target : Z) (p : nat) :
  StronglySorted Z.le arr →
  Forall (λ x, target ≤ x)%Z (drop p arr) →
  arr !! p ≠ Some target →
  Forall (λ x, target < x)%Z (drop p arr).
Proof.
  intros Hs Hhigh Hnot.
  rewrite <- (take_drop p arr) in Hs. apply StronglySorted_app in Hs as (_ & _ & Hs).
  assert (Hhead : drop p arr !! 0%nat = arr !! p).
  { rewrite lookup_drop. f_equal. lia. }
  destruct (drop p arr) as [|y rest]; [done|].
  cbn in Hhead. apply Forall_cons in Hhigh as [Hy _].
  assert (target < y)%Z.
  { destruct (decide (y = target)) as [->|]; [by rewrite <- Hhead in Hnot|lia]. }
  apply StronglySorted_cons in Hs as [Hall _].
  constructor; [done|]. eapply Forall_impl; [exact Hall|]. intros z. cbn. lia.
Qed.

Lemma sorted_absent (arr : list Z) (target : Z) (p : nat) :
  Forall (λ x, x < target)%Z (take p arr) →
  Forall (λ x, target < x)%Z (drop p arr) →
  target ∉ arr.
Proof.
  intros Hlow Hhigh Hin. rewrite <- (take_drop p arr) in Hin.
  rewrite Forall_forall in Hlow, Hhigh.
  apply elem_of_app in Hin as [Hin|Hin]; [apply Hlow in Hin|apply Hhigh in Hin]; lia.
Qed.

Lemma splice_inside {A} (arr items : list A) (i n : nat) :
  (i + n ≤ length arr)%nat →
  array.splice arr (Z.of_nat i) (Z.of_nat n) items
  = (take n (drop i arr), take i arr ++ items ++ drop (i + n) arr).
Proof.
  intros Hin. unfold array.splice.
  rewrite (proj2 (Z.ltb_ge _ _)) by lia.
  rewrite (Z.min_l (Z.of_nat i)) by lia. rewrite Z.max_l by lia.
  rewrite Z.min_l by lia.
  by rewrite <- Nat2Z.inj_add, !Nat2Z.id.
Qed.

Lemma insertAt_middle (arr : list Z) (v : Z) (p : nat) :
  (p ≤ length arr)%nat →
  array.insertAt arr v (Some (Z.of_nat p)) = take p arr ++ v :: drop p arr.
Proof.
  intros Hp. unfold array.insertAt. cbn [default from_option id].
  pose proof (splice_inside arr [v] p 0 ltac:(lia)) as Hsplice.
  change (Z.of_nat 0) with 0%Z in Hsplice. rewrite Hsplice.
  cbn [snd]. by rewrite Nat.add_0_r.
Qed.

Lemma removeAt_lookup (arr : list Z) (p : nat) x :
  arr !! p = Some x →
  array.removeAt arr (Z.of_nat p) = (true, take p arr ++ drop (S p) arr).
Proof.
  intros Hx. pose proof (lookup_lt_Some _ _ _ Hx) as Hp.
  unfold array.removeAt.
  pose proof (splice_inside arr [] p 1 ltac:(lia)) as Hsplice.
  change (Z.of_nat 1) with 1%Z in Hsplice. rewrite Hsplice.
  cbn [fst snd app]. rewrite Nat.add_1_r. f_equal.
  rewrite length_take, length_drop. apply Nat.eqb_eq. lia.
Qed.

(** X23. [goog.array.binarySearch] with the default comparison, for an
    integer target on a sorted array of fewer than [2^30] elements that
    are all integers (no [NaN], no other values): the search ends; a result
    that is not negative is the lowest index at which the target stands;
    a negative result [r] means that the target is not in the array, and
    [-(r + 1)] is the place where it belongs: everything before is below
    the target, everything from there on above. *)
Theorem binarySearch_sorted (undefined : Z) (arr : list Z) (target : Z) :
  (Z.of_nat (length arr) < 2 ^ 30)%Z →
  array.isSorted Z.ltb arr None false = true →
  ∃ r, array.binarySearch undefined Z.ltb arr target None = Some r
       ∧ ((0 ≤ r)%Z →
          arr !! Z.to_nat r = Some target
          ∧ Forall (λ x, x < target)%Z (take (Z.to_nat r) arr))
       ∧ ((r < 0)%Z →
          (target ∉ arr)
          ∧ (Z.to_nat (- (r + 1)) ≤ length arr)%nat
          ∧ Forall (λ x, x < target)%Z (take (Z.to_nat (- (r + 1))) arr)
          ∧ Forall (λ x, target < x)%Z (drop (Z.to_nat (- (r + 1))) arr)).
Proof.
  intros Hlen Hs%isSorted_iff. cbn [ordered] in Hs.
  destruct (binarySearch_Z_spec undefined arr target Hlen Hs)
    as (p & Hp & Hlow & Hhigh & ->).
  eexists. split; [done|].
  destruct (decide (arr !! p = Some target)) as [Hfound|Hnot].
  - split; [|lia]. intros _. by rewrite Nat2Z.id.
  - split; [lia|]. intros _.
    replace (Z.to_nat (- (- Z.of_nat p - 1 + 1))) with p by lia.
    pose proof (sorted_not_found arr target p Hs Hhigh Hnot) as Hhigh'.
    split_and!; [by eapply sorted_absent|done..].
Qed.

Lemma binarySearch_sorted_witness :
  ∃ r, array.binarySearch 0%Z Z.ltb [10; 20; 30]%Z 25%Z None = Some r
       ∧ ((0 ≤ r)%Z →
          [10; 20; 30]%Z !! Z.to_nat r = Some 25%Z
          ∧ Forall (λ x, x < 25)%Z (take (Z.to_nat r) [10; 20; 30]%Z))
       ∧ ((r < 0)%Z →
          (25%Z ∉ [10; 20; 30]%Z)
          ∧ (Z.to_nat (- (r + 1)) ≤ length [10; 20; 30]%Z)%nat
          ∧ Forall (λ x, x < 25)%Z (take (Z.to_nat (- (r + 1))) [10; 20; 30]%Z)
          ∧ Forall (λ x, 25 < x)%Z (drop (Z.to_nat (- (r + 1))) [10; 20; 30]%Z)).
Proof.
  apply (binarySearch_sorted 0%Z [10; 20; 30]%Z 25%Z).
  - by vm_compute.
  - reflexivity.
Defined.

(** X24. [goog.array.binaryInsert] of an integer with the default
    comparison keeps a sorted array of fewer than [2^30] elements that
    are all integers (no [NaN], no other values) sorted, and strictly
    sorted if it was: it ends; it returns [true] exactly when the value
    was not
    in the array, and then the array has the value as one more element;
    otherwise the array is left as it was. *)
Theorem binaryInsert_sorted (undefined : Z) (arr : list Z) (value : Z)
    (strict : bool) :
  (Z.of_nat (length arr) < 2 ^ 30)%Z →
  array.isSorted Z.ltb arr None strict = true →
  ∃ b arr', array.binaryInsert undefined Z.ltb arr value None = Some (b, arr')
            ∧ array.isSorted Z.ltb arr' None strict = true
            ∧ (b = true ↔ value ∉ arr)
            ∧ arr' ≡ₚ (if b then value :: arr else arr)
            ∧ (b = false → arr' = arr).
Proof.
  intros Hlen Hsorted. pose proof Hsorted as Hs%isSorted_iff.
  pose proof (StronglySorted_ordered_le _ _ Hs) as Hle.
  destruct (binarySearch_Z_spec undefined arr value Hlen Hle)
    as (p & Hp & Hlow & Hhigh & Hsearch).
  unfold array.binaryInsert. rewrite Hsearch.
  destruct (decide (arr !! p = Some value)) as [Hfound|Hnot].
  - destruct (Z.ltb_spec (Z.of_nat p) 0); [lia|].
    exists false, arr. split_and!; [done..| |done|done].
    split; [done|]. intros Hin. destruct Hin. by eapply list_elem_of_lookup_2.
  - destruct (Z.ltb_spec (- Z.of_nat p - 1) 0); [|lia].
    replace (- (- Z.of_nat p - 1 + 1))%Z with (Z.of_nat p) by lia.
    rewrite insertAt_middle by done.
    pose proof (sorted_not_found arr value p Hle Hhigh Hnot) as Hhigh'.
    eexists true, _. split_and!; [done| | | |done].
    + apply isSorted_iff.
      rewrite <- (take_drop p arr) in Hs.
      apply StronglySorted_app in Hs as (Hcross & Hs1 & Hs2).
      rewrite Forall_forall in Hlow, Hhigh'.
      apply StronglySorted_app_2; [|done|].
      * intros x1 x2 H1 [->|H2]%elem_of_cons; [|by apply Hcross].
        apply lt_ordered. by apply Hlow.
      * apply StronglySorted_cons. split; [|done].
        apply Forall_forall. intros x Hx. apply lt_ordered. by apply Hhigh'.
    + split; [|done]. intros _. by eapply sorted_absent.
    + rewrite <- Permutation_middle. by rewrite take_drop.
Qed.

Lemma binaryInsert_sorted_witness :
  ∃ b arr', array.binaryInsert 0%Z Z.ltb [10; 20; 30]%Z 25%Z None = Some (b, arr')
            ∧ array.isSorted Z.ltb arr' None true = true
            ∧ (b = true ↔ 25%Z ∉ [10; 20; 30]%Z)
            ∧ arr' ≡ₚ (if b then 25%Z :: [10; 20; 30]%Z else [10; 20; 30]%Z)
            ∧ (b = false → arr' = [10; 20; 30]%Z).
Proof.
  apply (binaryInsert_sorted 0%Z [10; 20; 30]%Z 25%Z true).
  - by vm_compute.
  - reflexivity.
Defined.

(** X25. [goog.array.binaryRemove] of an integer with the default
    comparison, on a sorted array of fewer than [2^30] elements that are
    all integers (no [NaN], no other values): it ends, returns [true]
    exactly when the value was in the array, takes out one occurrence of
    the value in that case and nothing otherwise, and leaves the array
    sorted, strictly if it was. *)
Theorem binaryRemove_sorted (undefined : Z) (arr : list Z) (value : Z)
    (strict : bool) :
  (Z.of_nat (length arr) < 2 ^ 30)%Z →
  array.isSorted Z.ltb arr None strict = true →
  ∃ b arr', array.binaryRemove undefined Z.ltb arr value None = Some (b, arr')
            ∧ array.isSorted Z.ltb arr' None strict = true
            ∧ (b = true ↔ value ∈ arr)
            ∧ arr ≡ₚ (if b then value :: arr' else arr').
Proof.
  intros Hlen Hsorted. pose proof Hsorted as Hs%isSorted_iff.
  pose proof (StronglySorted_ordered_le _ _ Hs) as Hle.
  destruct (binarySearch_Z_spec undefined arr value Hlen Hle)
    as (p & Hp & Hlow & Hhigh & Hsearch).
  unfold array.binaryRemove. rewrite Hsearch.
  destruct (decide (arr !! p = Some value)) as [Hfound|Hnot].
  - destruct (Z.leb_spec 0 (Z.of_nat p)); [|lia].
    rewrite (removeAt_lookup _ _ _ Hfound).
    eexists true, _. split_and!; [done| | |].
    + apply isSorted_iff.
      rewrite <- (take_drop_middle arr p value Hfound) in Hs.
      apply StronglySorted_app in Hs as (Hcross & Hs1 & Hs2).
      apply StronglySorted_cons in Hs2 as [_ Hs2].
      apply StronglySorted_app_2; [|done..].
      intros x1 x2 H1 H2. apply Hcross; [done|]. apply elem_of_cons. by right.
    + split; [|done]. intros _. by eapply list_elem_of_lookup_2.
    + rewrite Permutation_middle. by rewrite take_drop_middle.
  - destruct (Z.leb_spec 0 (- Z.of_nat p - 1)); [lia|].
    pose proof (sorted_not_found arr value p Hle Hhigh Hnot) as Hhigh'.
    exists false, arr. split_and!; [done..| |done].
    split; [done|]. intros Hin. by destruct (sorted_absent arr value p).
Qed.

Lemma binaryRemove_sorted_witness :
  ∃ b arr', array.binaryRemove 0%Z Z.ltb [10; 20; 20; 30]%Z 20%Z None = Some (b, arr')
            ∧ array.isSorted Z.ltb arr' None false = true
            ∧ (b = true ↔ 20%Z ∈ [10; 20; 20; 30]%Z)
            ∧ [10; 20; 20; 30]%Z ≡ₚ (if b then 20%Z :: arr' else arr').
Proof.
  apply (binaryRemove_sorted 0%Z [10; 20; 20; 30]%Z 20%Z false).
  - by vm_compute.
  - reflexivity.
Defined.

Lemma StronglySorted_lookup {A} (R : A → A → Prop) (l : list A) :
  StronglySorted R l
  ↔ ∀ i j x y, (i < j)%nat → l !! i = Some x → l !! j = Some y → R x y.
Proof.
  induction l as [|a l IH].
  { split; [|constructor]. intros _ i j x y _ Hi. done. }
  rewrite StronglySorted_cons, IH, Forall_lookup. split.
  - intros [Hall Hs] i j x y Hij Hi Hj.
    destruct j as [|j]; [lia|]. destruct i as [|i]; cbn in *.
    + injection Hi as <-. by eapply Hall.
    + eapply (Hs i j); [lia|done..].
  - intros H. split.
    + intros j y Hj. apply (H 0%nat (S j) a y); [lia|done..].
    + intros i j x y Hij Hi Hj. apply (H (S i) (S j) x y); [lia|done..].
Qed.

(** X30. What [goog.array.isSorted] checks. With the default comparison
    on an array whose elements are all integers (no [NaN], no other
    values), it returns [true] exactly when every element is at most
    every later element, and with [opt_strict] exactly when every
    element is below every later element, although it only compares
    neighbours. *)
Theorem isSorted_pairs (arr : list Z) (opt_strict : bool) :
  array.isSorted Z.ltb arr None opt_strict = true
  ↔ ∀ i j x y, (i < j)%nat → arr !! i = Some x → arr !! j = Some y →
               ordered opt_strict x y.
Proof. rewrite isSorted_iff. apply StronglySorted_lookup. Qed.

(** ** Rotation *)

Lemma splice_tail {A} (arr : list A) (n : nat) :
  (0 < n ≤ length arr)%nat →
  array.splice arr (- Z.of_nat n) (Z.of_nat n) []
  = (drop (length arr - n) arr, take (length arr - n) arr).
Proof.
  intros Hn. unfold array.splice.
  rewrite (proj2 (Z.ltb_lt _ _)) by lia.
  rewrite (Z.max_l _ 0) by lia. rewrite (Z.max_l _ 0) by lia.
  rewrite Z.min_l by lia.
  replace (Z.to_nat (Z.of_nat (length arr) + - Z.of_nat n)) with (length arr - n)%nat
    by lia.
  replace (Z.to_nat (Z.of_nat (length arr) + - Z.of_nat n + Z.of_nat n))
    with (length arr) by lia.
  rewrite Nat2Z.id. cbn [app].
  change (@firstn A) with (@take A). change (@skipn A) with (@drop A).
  rewrite drop_all, app_nil_r. f_equal.
  apply take_ge. rewrite length_drop. lia.
Qed.

(** The array after [goog.array.rotate]: the elements from the index
    [(-n) mod length] on, then the elements before it. *)
Lemma rotate_spec {A} (arr : list A) (n : Z) :
  array.rotate arr n
  = drop (Z.to_nat ((- n) mod Z.of_nat (length arr))) arr
    ++ take (Z.to_nat ((- n) mod Z.of_nat (length arr))) arr.
Proof.
  unfold array.rotate.
  destruct (Nat.eqb_spec (length arr) 0) as [Hz|Hnz].
  { destruct arr; [|done]. by rewrite drop_nil, take_nil. }
  set (len := Z.of_nat (length arr)). assert (Hlen : (0 < len)%Z) by lia.
  pose proof (Z.mod_pos_bound (- n) len Hlen) as Hmb.
  assert (Hrem : (Z.rem n len = if decide (0 ≤ n)%Z then n mod len
                               else - ((- n) mod len))%Z).
  { destruct (decide (0 ≤ n)%Z).
    - by apply Z.rem_mod_nonneg.
    - rewrite <- (Z.opp_involutive n) at 1. rewrite Z.rem_opp_l by lia.
      rewrite Z.rem_mod_nonneg by lia. done. }
  assert (Hk : ((- n) mod len = if decide (0 < Z.rem n len)%Z then len - Z.rem n len
                                else - Z.rem n len)%Z).
  { rewrite Hrem. destruct (decide (0 ≤ n)%Z).
    - pose proof (Z.mod_pos_bound n len Hlen).
      destruct (decide (0 < n mod len)%Z).
      + apply Z.mod_opp_l_nz; lia.
      + rewrite Z.mod_opp_l_z; lia.
    - rewrite decide_False by lia. lia. }
  rewrite Hk.
  assert (Hbound : (- len < Z.rem n len < len)%Z).
  { rewrite Hrem. destruct (decide (0 ≤ n)%Z); [|lia].
    pose proof (Z.mod_pos_bound n len Hlen). lia. }
  destruct (Z.gtb_spec (Z.rem n len) 0) as [Hpos|Hnpos].
  - rewrite decide_True by lia.
    pose proof (splice_tail arr (Z.to_nat (Z.rem n len)) ltac:(lia)) as Hsp.
    rewrite Z2Nat.id in Hsp by lia. rewrite Hsp. cbn [fst snd].
    replace (Z.to_nat (len - Z.rem n len)) with (length arr - Z.to_nat (Z.rem n len))%nat
      by lia.
    done.
  - rewrite decide_False by lia.
    destruct (Z.ltb_spec (Z.rem n len) 0) as [Hneg|Hnneg].
    + pose proof (splice_inside arr [] 0 (Z.to_nat (- Z.rem n len)) ltac:(lia))
        as Hsp.
      rewrite Z2Nat.id in Hsp by lia. change (Z.of_nat 0) with 0%Z in Hsp.
      rewrite Hsp. cbn [fst snd app]. by rewrite drop_0.
    + assert (Hz : Z.rem n len = 0%Z) by lia.
      rewrite Hz. cbn. by rewrite app_nil_r.
Qed.

(** X27. [goog.array.rotate] moves every element [n] places to the right,
    around the end of the array: the element at index [i] is afterwards
    at index [(i + n) mod length]; the length is kept; and rotating back
    by [-n] gives the array as it was. *)
Theorem rotate_moves {A : Type} (arr : list A) (n : Z) :
  length (array.rotate arr n) = length arr
  ∧ (∀ i, (i < length arr)%nat →
          array.rotate arr n
            !! Z.to_nat ((Z.of_nat i + n) mod Z.of_nat (length arr))
          = arr !! i)
  ∧ array.rotate (array.rotate arr n) (- n) = arr.
Proof.
  assert (Hlen : ∀ (l : list A) m, length (array.rotate l m) = length l).
  { intros l m. rewrite rotate_spec, length_app, length_take, length_drop. lia. }
  split; [apply Hlen|].
  destruct (decide (length arr = 0)%nat) as [Hz|Hnz].
  { destruct arr; [|done]. split; [intros i Hi; cbn in Hi; lia|done]. }
  set (len := Z.of_nat (length arr)). assert (Hpos : (0 < len)%Z) by lia.
  pose proof (Z.mod_pos_bound (- n) len Hpos) as Hk.
  split.
  - intros i Hi. rewrite rotate_spec. fold len.
    set (k := ((- n) mod len)%Z) in *.
    assert (Hn : (n = - k + (- ((- n) / len)) * len)%Z).
    { pose proof (Z.div_mod (- n) len ltac:(lia)). unfold k. lia. }
    assert (Hidx : ((Z.of_nat i + n) mod len
                    = if decide (k ≤ Z.of_nat i)%Z then Z.of_nat i - k
                      else Z.of_nat i - k + len)%Z).
    { rewrite Hn. replace (Z.of_nat i + (- k + - (- n / len) * len))%Z
        with (Z.of_nat i - k + - (- n / len) * len)%Z by lia.
      rewrite Z.mod_add by lia.
      destruct (decide (k ≤ Z.of_nat i)%Z).
      - apply Z.mod_small. lia.
      - transitivity ((Z.of_nat i - k + len) mod len)%Z; [|apply Z.mod_small; lia].
        rewrite <- (Z.mod_add (Z.of_nat i - k) 1 len) by lia. f_equal. lia. }
    rewrite Hidx. destruct (decide (k ≤ Z.of_nat i)%Z).
    + rewrite lookup_app_l by (rewrite length_drop; lia).
      rewrite lookup_drop. f_equal. lia.
    + rewrite lookup_app_r by (rewrite length_drop; lia).
      rewrite length_drop, lookup_take_lt by lia. f_equal. lia.
  - rewrite (rotate_spec (array.rotate arr n)), Hlen. fold len.
    rewrite Z.opp_involutive, rotate_spec. fold len.
    set (k := ((- n) mod len)%Z) in *.
    assert (Hk2 : (n mod len = if decide (k = 0)%Z then 0 else len - k)%Z).
    { rewrite <- (Z.opp_involutive n) at 1. destruct (decide (k = 0)%Z).
      - apply Z.mod_opp_l_z; [lia|done].
      - apply Z.mod_opp_l_nz; [lia|done]. }
    rewrite Hk2. destruct (decide (k = 0)%Z) as [Hk0|Hk0].
    + rewrite Hk0. cbn. by rewrite !app_nil_r.
    + assert (Hd : Z.to_nat (len - k) = length (drop (Z.to_nat k) arr)).
      { rewrite length_drop. lia. }
      rewrite Hd, drop_app_length, take_app_length. apply take_drop.
Qed.
